(** * Verification of the live transcription recorder

    A shallow embedding of [recorder/transcribe_recorder.py]: the transcript
    handler, the shared transcription buffer, the readiness tracking, the
    periodic API sender, the recording loop with its sessions, the audio
    generators, the credentials of the transcription client, the timestamps
    of the entries and the command loop of [main], followed by the
    properties proved about them.

    Python values are modelled as follows.
    - [str] is the [string] of the bytes of its UTF-8 encoding, which is
      what a string literal of this file holds.  UTF-8 keeps the order of
      the code points, so the comparison of two [str], which goes by code
      points, is the comparison of the bytes, [String.leb]; the operations
      that go character by character ([strip], [s[:n]]) first split the
      bytes into characters.
    - [int] is [Z] (Python integers are unbounded).
    - a [list] is a [list]; [list.append] adds at the end.
    - the dict [transcription_buffer], whose keys are always ['mic'] and
      ['system'], is a record with one field per key.
    - [list.sort(key=...)] is a stable sort; it is modelled by a stable
      insertion sort, and [sort_by_timestamp_unique] shows that every stable
      sort computes the same list. *)

From Stdlib Require Import List Bool Arith ZArith Lia String Ascii.
From Stdlib Require Import Sorted Permutation.
Import ListNotations.

Set Implicit Arguments.
Set Warnings "-register-all".

#[local] Open Scope string_scope.
#[local] Open Scope nat_scope.
#[local] Open Scope list_scope.

(* ================================================================== *)
(** ** Python strings *)

Module PyStr.

(** [a <= b] on [str]. *)
Definition le (a b : string) : Prop := String.leb a b = true.

(** A byte of the form 10xxxxxx, which continues a character. *)
Definition continues (c : ascii) : bool :=
  ((128 <=? N_of_ascii c) && (N_of_ascii c <? 192))%N.

(** The characters of a [str], each as the bytes that encode it: a byte
    that continues no character starts one. *)
Fixpoint chars (s : string) : list string :=
  match s with
  | EmptyString => []
  | String c r =>
      match chars r with
      | String c' g :: rest =>
          if continues c' then String c (String c' g) :: rest
          else String c EmptyString :: String c' g :: rest
      | rest => String c EmptyString :: rest
      end
  end.

(** [ch.isspace()] for one character: the white space of Unicode, which is
    U+0009 to U+000D, U+001C to U+0020, U+0085, U+00A0, U+1680, U+2000 to
    U+200A, U+2028, U+2029, U+202F, U+205F and U+3000. *)
Definition isspace (ch : string) : bool :=
  match map N_of_ascii (list_ascii_of_string ch) with
  | [a] => (((9 <=? a) && (a <=? 13)) || ((28 <=? a) && (a <=? 32)))%N
  | [a; b] => ((a =? 194) && ((b =? 133) || (b =? 160)))%N
  | [a; b; c] =>
      (((a =? 225) && (b =? 154) && (c =? 128))
       || ((a =? 226) && (b =? 128)
           && (((128 <=? c) && (c <=? 138))
               || (c =? 168) || (c =? 169) || (c =? 175)))
       || ((a =? 226) && (b =? 129) && (c =? 159))
       || ((a =? 227) && (b =? 128) && (c =? 128)))%N
  | _ => false
  end.

(** The characters that are left when the white space in front is
    dropped. *)
Fixpoint drop_spaces (l : list string) : list string :=
  match l with
  | [] => []
  | ch :: r => if isspace ch then drop_spaces r else l
  end.

(** The [str] made of the characters of [l]. *)
Definition join (l : list string) : string := String.concat EmptyString l.

(** [s.lstrip()]. *)
Definition lstrip (s : string) : string := join (drop_spaces (chars s)).

(** [s.rstrip()]. *)
Definition rstrip (s : string) : string :=
  join (rev (drop_spaces (rev (chars s)))).

(** [s.strip()]. *)
Definition strip (s : string) : string :=
  join (rev (drop_spaces (rev (drop_spaces (chars s))))).

(** Truth value of a [str]: the empty string is false. *)
Definition truthy (s : string) : bool :=
  match s with EmptyString => false | _ => true end.

(** A string is blank when every character of it is white space. *)
Definition blank (s : string) : bool := forallb isspace (chars s).

(** [s[:n]]. *)
Definition prefix_n (n : nat) (s : string) : string :=
  join (firstn n (chars s)).

End PyStr.

(* ================================================================== *)
(** ** Data *)

(** The two keys of [transcription_buffer] and of [streams_ready]. *)
Inductive channel : Type := mic | system.

Definition channel_eqb (a b : channel) : bool :=
  match a, b with
  | mic, mic | system, system => true
  | _, _ => false
  end.

(** [channel_name] as the string the source passes around. *)
Definition channel_name (c : channel) : string :=
  match c with mic => "mic" | system => "system" end.

(** An element of a buffer list: [{'timestamp': ..., 'text': ...}]. *)
Record entry : Type := Entry {
  e_timestamp : string;
  e_text : string
}.

(** The speaker of a turn: ['agent'] or ['customer']. *)
Inductive speaker : Type := agent | customer.

Definition speaker_name (s : speaker) : string :=
  match s with agent => "agent" | customer => "customer" end.

(** An element of [all_transcriptions]:
    [{'speaker': ..., 'transcript': ..., 'timestamp': ...}]. *)
Record turn : Type := Turn {
  t_speaker : speaker;
  t_transcript : string;
  t_timestamp : string
}.

(** [transcription_buffer = {'mic': [], 'system': []}]. *)
Record buffer : Type := Buffer {
  buf_mic : list entry;
  buf_system : list entry
}.

Definition empty_buffer : buffer := Buffer [] [].

(** [transcription_buffer[c]]. *)
Definition buf_get (c : channel) (b : buffer) : list entry :=
  match c with mic => buf_mic b | system => buf_system b end.

(** [transcription_buffer[c] = l]. *)
Definition buf_set (c : channel) (l : list entry) (b : buffer) : buffer :=
  match c with
  | mic => Buffer l (buf_system b)
  | system => Buffer (buf_mic b) l
  end.

(** [transcription_buffer[c].append(e)]. *)
Definition buf_append (c : channel) (e : entry) (b : buffer) : buffer :=
  buf_set c (buf_get c b ++ [e]) b.

(* ================================================================== *)
(** ** The window of one tick (lines 314-337) *)

Module Window.

(** The speaker a channel is reported as: mic entries are added "as agent",
    system entries "as customer". *)
Definition speaker_of (c : channel) : speaker :=
  match c with mic => agent | system => customer end.

(** The dict appended to [all_transcriptions] for one buffer entry. *)
Definition to_turn (c : channel) (e : entry) : turn :=
  Turn (speaker_of c) (e_text e) (e_timestamp e).

(** Lines 315-331: the two [for] loops, mic first, then system. *)
Definition combine (b : buffer) : list turn :=
  map (to_turn mic) (buf_mic b) ++ map (to_turn system) (buf_system b).

(** Insertion of [x] before the first element whose timestamp is not
    smaller than its own or, failing that, at the end. *)
Fixpoint insert (x : turn) (l : list turn) : list turn :=
  match l with
  | [] => [x]
  | y :: r =>
      if String.leb (t_timestamp x) (t_timestamp y)
      then x :: l
      else y :: insert x r
  end.

(** Line 334: [all_transcriptions.sort(key=lambda x: x['timestamp'])]. *)
Definition sort_by_timestamp (l : list turn) : list turn :=
  fold_right insert [] l.

(** [l[-n:]] for [n > 0]. *)
Definition last_n (n : nat) (l : list turn) : list turn :=
  skipn (List.length l - n) l.

(** Line 337:
    [all_transcriptions[-10:] if len(all_transcriptions) > 10
     else all_transcriptions]. *)
Definition recent (all_transcriptions : list turn) : list turn :=
  if 10 <? List.length all_transcriptions
  then last_n 10 all_transcriptions
  else all_transcriptions.

(** [recent_transcriptions] as computed from the buffer at line 337. *)
Definition window (b : buffer) : list turn :=
  recent (sort_by_timestamp (combine b)).

(** The entries of a list that carry timestamp [t], in order. *)
Definition at_time (t : string) (l : list turn) : list turn :=
  filter (fun x => String.eqb (t_timestamp x) t) l.

(** Ascending order of timestamps. *)
Definition ts_le (x y : turn) : Prop :=
  PyStr.le (t_timestamp x) (t_timestamp y).

End Window.

(* ================================================================== *)
(** ** The activity log *)

(** The messages passed to [log_activity] on the paths modelled here, one
    constructor per call site, carrying the values interpolated at that site.
    The ["[timestamp] "] prefix that [log_activity] adds and the traces
    marked DEBUG are not modelled. *)
Inductive log_msg : Type :=
| Log_no_speech (c : channel) (events_received : Z)            (* line 82 *)
| Log_final (c : channel) (transcript : string)                (* line 102 *)
| Log_buffer_added (c : channel) (buffer_size : nat)           (* line 103 *)
| Log_partial (c : channel) (transcript : string)              (* line 105 *)
| Log_first_chunk (c : channel)                                (* line 238 *)
| Log_both_ready                                               (* line 245 *)
| Log_chunks_sent (c : channel) (chunks_sent : Z)              (* line 248 *)
| Log_sender_waiting                                           (* line 297 *)
| Log_recording_ready                                          (* line 299 *)
| Log_timer_triggered                                          (* line 305 *)
| Log_buffer_status (mic_count system_count : nat)             (* line 312 *)
| Log_sending (n cleared_mic cleared_system : nat)             (* line 347 *)
| Log_turn (i : nat) (s : speaker) (transcript50 : string)     (* line 349 *)
| Log_nothing_to_send (cleared_mic cleared_system : nat)       (* line 351 *)
| Log_sending_request (window : Z)                             (* line 364 *)
| Log_request_sent (window : Z) (status_code : Z)              (* line 366 *)
| Log_response_saved (window : Z)                              (* line 381 *)
| Log_api_error (text : string)                                (* line 387 *)
| Log_request_failed (e : string)                              (* line 389 *)
| Log_starting_transcription                                   (* line 398 *)
| Log_init_timeout                                             (* line 412 *)
| Log_will_retry                                               (* line 413 *)
| Log_recording_error (e : string)                             (* line 415 *)
| Log_recording_traceback.                                     (* line 417 *)

(** The two messages that report a failed delivery. *)
Definition is_failure_msg (m : log_msg) : bool :=
  match m with
  | Log_api_error _ | Log_request_failed _ => true
  | _ => false
  end.

(* ================================================================== *)
(** ** Recognition events (the input of the handler) *)

(** [alt.transcript]; the confidence only decorates a log line and is left
    out. *)
Record alternative : Type := Alternative {
  alt_transcript : string
}.

(** One element of [transcript_event.transcript.results]. *)
Record result : Type := Result {
  is_partial : bool;
  alternatives : list alternative
}.

(** [transcript_event.transcript.results]. *)
Definition transcript_event : Type := list result.

(* ================================================================== *)
(** ** [TranscriptionHandler.handle_transcript_event] (lines 75-105) *)

Module Handler.

(** What the handler reads and writes: the shared buffer, the activity
    log, its own event counter, and the clock.  [clock_reads] counts the
    calls of [datetime.datetime.now()] made so far; the [k]-th call returns
    the instant whose [isoformat()] is [now k]. *)
Record world : Type := World {
  transcription_buffer : buffer;
  activity_log : list log_msg;
  events_received : Z;
  clock_reads : nat
}.

Definition log_activity (m : log_msg) (w : world) : world :=
  World (transcription_buffer w) (activity_log w ++ [m])
        (events_received w) (clock_reads w).

(** The condition of line 90: [not result.is_partial and transcript.strip()]. *)
Definition is_final_with_text (partial : bool) (transcript : string) : bool :=
  negb partial && PyStr.truthy (PyStr.strip transcript).

(** The condition of line 104: [result.is_partial and transcript.strip()]. *)
Definition is_partial_with_text (partial : bool) (transcript : string) : bool :=
  partial && PyStr.truthy (PyStr.strip transcript).

Section WithClock.

(** [now k] is [datetime.datetime.now().isoformat()] at the [k]-th
    reading of the clock. *)
Variable now : nat -> string.

(** Lines 91-99: the timestamp is taken, then the entry is appended to
    the list of the handler's channel. *)
Definition append_final (c : channel) (transcript : string) (w : world)
  : world :=
  let timestamp := (now (clock_reads w) ++ "Z")%string in
  World (buf_append c (Entry timestamp transcript) (transcription_buffer w))
        (activity_log w) (events_received w) (S (clock_reads w)).

(** The body of the inner loop (lines 87-105) for one alternative. *)
Definition handle_alternative (c : channel) (partial : bool)
           (alt : alternative) (w : world) : world :=
  let transcript := alt_transcript alt in
  if is_final_with_text partial transcript then
    let w1 := append_final c transcript w in
    let buffer_size := List.length (buf_get c (transcription_buffer w1)) in
    log_activity (Log_buffer_added c buffer_size)
      (log_activity (Log_final c transcript) w1)
  else if is_partial_with_text partial transcript then
    log_activity (Log_partial c transcript) w
  else w.

(** The inner loop (line 86) over the alternatives of one result. *)
Definition handle_result (c : channel) (r : result) (w : world) : world :=
  fold_left (fun w alt => handle_alternative c (is_partial r) alt w)
            (alternatives r) w.

(** [handle_transcript_event] for the handler of channel [c]. *)
Definition handle_transcript_event (c : channel) (ev : transcript_event)
           (w : world) : world :=
  let w0 := World (transcription_buffer w) (activity_log w)
                  (events_received w + 1) (clock_reads w) in
  match ev with
  | [] =>
      if (events_received w0 mod 50 =? 0)%Z
      then log_activity (Log_no_speech c (events_received w0)) w0
      else w0
  | _ => fold_left (fun w r => handle_result c r w) ev w0
  end.

(** The entries built from a list of transcripts when the clock has been
    read [k] times before. *)
Fixpoint stamped (k : nat) (transcripts : list string) : list entry :=
  match transcripts with
  | [] => []
  | t :: r => Entry (now k ++ "Z")%string t :: stamped (S k) r
  end.

End WithClock.

(** The transcripts of one result that line 90 lets through. *)
Definition accepted_of_result (r : result) : list string :=
  filter (is_final_with_text (is_partial r))
         (map alt_transcript (alternatives r)).

(** The transcripts of one event that line 90 lets through, in the order of
    the two loops. *)
Definition accepted (ev : transcript_event) : list string :=
  flat_map accepted_of_result ev.

End Handler.

(* ================================================================== *)
(** ** JSON values (the payload and the saved response) *)

(** The Python values handed to [requests.post(json=...)] and [json.dump]:
    a dict is the list of its items in insertion order. *)
Inductive json : Type :=
| JStr (s : string)
| JInt (z : Z)
| JList (l : list json)
| JDict (items : list (string * json)).


(** [d[k]] on the items of a dict. *)
Fixpoint lookup (k : string) (items : list (string * json)) : option json :=
  match items with
  | [] => None
  | (k', v) :: r => if String.eqb k k' then Some v else lookup k r
  end.

(** The module constants that are fixed when the process starts. *)
Record config : Type := Config {
  CALL_ID : string;        (* line 50: str(uuid.uuid4()) *)
  CLIENT_EMAIL : string;   (* line 52 *)
  SESSION_ID : string      (* line 46 *)
}.

(* ================================================================== *)
(** ** [send_api_requests_periodically] (lines 292-389) *)

Module Sender.

(** An element of [recent_transcriptions] as the dict it is. *)
Definition turn_json (t : turn) : json :=
  JDict [("speaker", JStr (speaker_name (t_speaker t)));
         ("transcript", JStr (t_transcript t));
         ("timestamp", JStr (t_timestamp t))].

(** Lines 356-361: the dict [payload]. *)
Definition make_payload (cfg : config) (window_counter : Z)
           (recent_transcriptions : list turn) : list (string * json) :=
  [("call_id", JStr (CALL_ID cfg));
   ("window_num", JInt window_counter);
   ("client_email", JStr (CLIENT_EMAIL cfg));
   ("turns", JList (map turn_json recent_transcriptions))].

(** What [requests.post] does: it returns a response or raises. *)
Inductive post_outcome : Type :=
| Responded (status_code : Z) (text : string)
| Post_raised (e : string).

(** What writing the response file (lines 379-380) does. *)
Inductive save_outcome : Type :=
| Saved
| Save_raised (e : string).

(** Lines 369-376: the dict [response_data]. *)
Definition make_response_data (cfg : config) (window_counter status_code : Z)
           (timestamp : string) (payload : list (string * json))
           (text : string) : json :=
  JDict [("call_id", JStr (CALL_ID cfg));
         ("window", JInt window_counter);
         ("status_code", JInt status_code);
         ("timestamp", JStr timestamp);
         ("request_payload", JDict payload);
         ("response_body", JStr text)].

(** The state the sender thread reads and writes, and what it sends out:
    [posted] lists the payloads passed to [requests.post], [saved] the
    response files written, [printed] the API_RESPONSE_DATA lines. *)
Record world : Type := World {
  transcription_buffer : buffer;
  window_counter : Z;
  activity_log : list log_msg;
  posted : list (list (string * json));
  saved : list (Z * json);
  printed : list json
}.

(** The state when the module has been loaded (lines 20, 51, 55-58). *)
Definition initial : world := World empty_buffer 0%Z [] [] [] [].

Definition log_activity (m : log_msg) (w : world) : world :=
  World (transcription_buffer w) (window_counter w) (activity_log w ++ [m])
        (posted w) (saved w) (printed w).

(** Replacement of the buffer. *)
Definition with_buffer (b : buffer) (w : world) : world :=
  World b (window_counter w) (activity_log w) (posted w) (saved w)
        (printed w).

(** Lines 348-349: one line per turn, numbered from 1. *)
Fixpoint log_turns (i : nat) (l : list turn) (w : world) : world :=
  match l with
  | [] => w
  | t :: r =>
      log_turns (S i) r
        (log_activity
           (Log_turn (S i) (t_speaker t) (PyStr.prefix_n 50 (t_transcript t)))
           w)
  end.

(** Lines 346-351: what is about to be sent is logged. *)
Definition log_window (recent_transcriptions : list turn)
           (cleared_mic cleared_system : nat) (w : world) : world :=
  match recent_transcriptions with
  | [] => log_activity (Log_nothing_to_send cleared_mic cleared_system) w
  | _ =>
      log_turns 0 recent_transcriptions
        (log_activity
           (Log_sending (List.length recent_transcriptions)
                        cleared_mic cleared_system) w)
  end.

(** Lines 308-351: the block run under [transcription_lock].  It returns
    [recent_transcriptions] and leaves both lists of the buffer empty. *)
Definition drain (w : world) : list turn * world :=
  let b := transcription_buffer w in
  let mic_count := List.length (buf_mic b) in
  let system_count := List.length (buf_system b) in
  let w := log_activity (Log_buffer_status mic_count system_count) w in
  let all_transcriptions := Window.sort_by_timestamp (Window.combine b) in
  let recent_transcriptions := Window.recent all_transcriptions in
  let cleared_mic := List.length (buf_mic b) in
  let cleared_system := List.length (buf_system b) in
  let w := with_buffer (buf_set system [] (buf_set mic [] b)) w in
  (recent_transcriptions,
   log_window recent_transcriptions cleared_mic cleared_system w).

(** Line 354: [window_counter += 1]. *)
Definition increment (w : world) : world :=
  World (transcription_buffer w) (window_counter w + 1) (activity_log w)
        (posted w) (saved w) (printed w).

(** Lines 364-365, up to the call: the request is logged and
    [requests.post] is called with [payload]. *)
Definition request (payload : list (string * json)) (w : world) : world :=
  let w := log_activity (Log_sending_request (window_counter w)) w in
  World (transcription_buffer w) (window_counter w) (activity_log w)
        (posted w ++ [payload]) (saved w) (printed w).

(** Lines 365-389, from the moment [requests.post] returns or raises: the
    rest of the [try] block and its [except Exception] handler. *)
Definition response (cfg : config) (o : post_outcome) (sv : save_outcome)
           (timestamp : string) (payload : list (string * json)) (w : world)
  : world :=
  let n := window_counter w in
  match o with
  | Post_raised e => log_activity (Log_request_failed e) w
  | Responded status_code text =>
      let w := log_activity (Log_request_sent n status_code) w in
      let response_data :=
        make_response_data cfg n status_code timestamp payload text in
      match sv with
      | Save_raised e => log_activity (Log_request_failed e) w
      | Saved =>
          let w := World (transcription_buffer w) (window_counter w)
                         (activity_log w) (posted w)
                         (saved w ++ [(n, response_data)]) (printed w) in
          let w := log_activity (Log_response_saved n) w in
          let w := World (transcription_buffer w) (window_counter w)
                         (activity_log w) (posted w) (saved w)
                         (printed w ++ [response_data]) in
          if (status_code =? 200)%Z then w
          else log_activity (Log_api_error text) w
      end
  end.

(** Lines 363-389: the [try] block and its [except Exception] handler. *)
Definition deliver (cfg : config) (o : post_outcome) (sv : save_outcome)
           (timestamp : string) (payload : list (string * json)) (w : world)
  : world :=
  response cfg o sv timestamp payload (request payload w).

(** What happens around one pass of the loop: the entries the two handlers
    append while the sender sleeps, and the outcome of the request. *)
Record tick_env : Type := TickEnv {
  arrived : buffer;
  outcome : post_outcome;
  save : save_outcome;
  response_time : string
}.

(** The entries appended by the handlers during [time.sleep(REC_SECONDS)]. *)
Definition arrive (a : buffer) (w : world) : world :=
  World (Buffer (buf_mic (transcription_buffer w) ++ buf_mic a)
                (buf_system (transcription_buffer w) ++ buf_system a))
        (window_counter w) (activity_log w) (posted w) (saved w) (printed w).

(** Lines 353-389: what follows the locked block. *)
Definition dispatch (cfg : config) (e : tick_env)
           (recent_transcriptions : list turn) (w : world) : world :=
  match recent_transcriptions with
  | [] => w
  | _ =>
      let w := increment w in
      let payload := make_payload cfg (window_counter w) recent_transcriptions in
      deliver cfg (outcome e) (save e) (response_time e) payload w
  end.

(** One pass of the [while True] loop (lines 302-389). *)
Definition tick (cfg : config) (e : tick_env) (w : world) : world :=
  let w := arrive (arrived e) w in
  let w := log_activity Log_timer_triggered w in
  let (recent_transcriptions, w) := drain w in
  dispatch cfg e recent_transcriptions w.

(** The loop, run for as many passes as there are environments. *)
Definition run (cfg : config) (envs : list tick_env) (w : world) : world :=
  fold_left (fun w e => tick cfg e w) envs w.

(** [send_api_requests_periodically] from the moment [recording_ready.wait()]
    has returned. *)
Definition send_api_requests_periodically (cfg : config)
           (envs : list tick_env) : world :=
  run cfg envs
      (log_activity Log_recording_ready
         (log_activity Log_sender_waiting initial)).

(** [payload["window_num"]]. *)
Definition window_num_of (payload : list (string * json)) : option json :=
  lookup "window_num" payload.

(** The window of a pass: what line 337 computes from the buffer as it is
    when the lock is taken. *)
Definition window_of_tick (e : tick_env) (w : world) : list turn :=
  Window.window (transcription_buffer (arrive (arrived e) w)).

(** A delivery fails when the request raises or the status is not 2xx. *)
Definition delivery_failed (o : post_outcome) : bool :=
  match o with
  | Post_raised _ => true
  | Responded status_code _ =>
      negb ((200 <=? status_code)%Z && (status_code <? 300)%Z)
  end.

End Sender.

(* ================================================================== *)
(** ** The running system: two threads, one event loop *)

(** [main] starts two threads.  The sender thread runs
    [send_api_requests_periodically].  The recording thread runs an asyncio
    event loop whose coroutines are [recording_loop] (the supervisor) and,
    for each channel of a session, [handle_events] (the handler) and
    [write_chunks] (the writer).  The threads interleave at every statement;
    the coroutines of the loop run one at a time and give up control only
    where they [await].  [threading.Lock] and [threading.Event] operations
    are atomic. *)
Module System.

(** A value per channel, such as the dict [streams_ready]. *)
Record per_channel (A : Type) : Type := PerChannel {
  on_mic : A;
  on_system : A
}.

Definition get {A} (c : channel) (p : per_channel A) : A :=
  match c with mic => on_mic p | system => on_system p end.

Definition set {A} (c : channel) (v : A) (p : per_channel A) : per_channel A :=
  match c with
  | mic => PerChannel v (on_system p)
  | system => PerChannel (on_mic p) v
  end.

(** The coroutines of the event loop. *)
Inductive coroutine : Type :=
| Handler (c : channel)
| Writer (c : channel)
| Supervisor.

(** Who can hold [transcription_lock]. *)
Inductive activity : Type :=
| Sender_thread
| Loop (k : coroutine).

(** Where the sender thread is: the statement it executes next. *)
Inductive sender_pc : Type :=
| D_start          (* line 297 *)
| D_wait           (* line 298: recording_ready.wait() *)
| D_sleep          (* line 302: time.sleep(REC_SECONDS), then line 305 *)
| D_lock           (* line 308: entering [with transcription_lock] *)
| D_status         (* lines 310-315 *)
| D_add_mic        (* lines 318-323 *)
| D_add_system     (* lines 326-331 *)
| D_sort           (* line 334 *)
| D_recent         (* line 337 *)
| D_cleared        (* lines 340-341 *)
| D_clear_mic      (* line 342 *)
| D_clear_system   (* line 343 *)
| D_log            (* lines 346-351 *)
| D_unlock         (* leaving the [with] block *)
| D_check          (* lines 353-364 *)
| D_post (payload : list (string * json)).  (* line 365: requests.post *)

Record sender_state : Type := SenderState {
  pc : sender_pc;
  all_transcriptions : list turn;
  recent_transcriptions : list turn;
  cleared_mic : nat;
  cleared_system : nat
}.

(** Where a handler is.  [pending] lists what the two loops of lines 85-86
    have still to visit: each alternative with the [is_partial] of its
    result. *)
Inductive handler_pc : Type :=
| H_none           (* there is no handler task *)
| H_await          (* [handle_events] awaits the next event *)
| H_enter (ev : transcript_event)                     (* lines 76-83 *)
| H_next (pending : list (bool * alternative))        (* lines 85-91 *)
| H_lock (timestamp transcript : string)
         (pending : list (bool * alternative))        (* line 94 *)
| H_append (timestamp transcript : string)
           (pending : list (bool * alternative))      (* lines 95-98 *)
| H_len (transcript : string)
        (pending : list (bool * alternative))         (* line 99 *)
| H_unlock (buffer_size : nat) (transcript : string)
           (pending : list (bool * alternative))      (* leaving [with] *)
| H_log (buffer_size : nat) (transcript : string)
        (pending : list (bool * alternative)).        (* lines 101-103 *)

Record handler_state : Type := HandlerState {
  h_pc : handler_pc;
  events_received : Z
}.

(** Where a writer is. *)
Inductive writer_pc : Type :=
| W_none           (* there is no writer task *)
| W_start          (* the task is created and has not run yet *)
| W_next           (* line 235: [async for chunk in stream_gen] *)
| W_count          (* lines 236-238 *)
| W_mark           (* line 240: streams_ready[channel_name] = True *)
| W_all            (* line 242: all(streams_ready.values()) *)
| W_is_set         (* line 243: recording_ready.is_set() *)
| W_set            (* lines 244-245: recording_ready.set() *)
| W_first_done     (* lines 246-248: first_chunk = False *)
| W_send           (* line 249: await send_audio_event *)
| W_end            (* line 251: await end_stream *)
| W_done.          (* [write_chunks] has returned *)

Record writer_state : Type := WriterState {
  w_pc : writer_pc;
  first_chunk : bool;
  chunks_sent : Z
}.

(** Where the supervisor is. *)
Inductive supervisor_pc : Type :=
| S_poll           (* lines 396-397 and 419: the loop test, the sleep *)
| S_clear          (* line 401: recording_ready.clear() *)
| S_reset_mic      (* line 402 *)
| S_reset_system   (* line 403 *)
| S_gather         (* line 407: awaiting the two transcriptions *)
| S_stopped.       (* [stop_evt] was set: the loop has ended *)

(** The order in which the operations on the shared data take place.  It
    is an auxiliary variable: no statement reads it. *)
Inductive hevent : Type :=
| Ev_append (c : channel) (e : entry)   (* line 95 was executed *)
| Ev_drain                              (* the sender took the lock *)
| Ev_session                            (* line 401 was executed *)
| Ev_first_chunk (c : channel)          (* line 240 was executed *)
| Ev_fire.                              (* line 244 was executed *)

Record state : Type := State {
  globals : Sender.world;
  transcription_lock : option activity;
  recording_ready : bool;
  streams_ready : per_channel bool;
  sender : sender_state;
  handlers : per_channel handler_state;
  writers : per_channel writer_state;
  supervisor : supervisor_pc;
  running : option coroutine;
  history : list hevent
}.

Definition with_globals (f : Sender.world -> Sender.world) (s : state) :=
  State (f (globals s)) (transcription_lock s) (recording_ready s)
        (streams_ready s) (sender s) (handlers s) (writers s)
        (supervisor s) (running s) (history s).

Definition with_lock (l : option activity) (s : state) :=
  State (globals s) l (recording_ready s) (streams_ready s) (sender s)
        (handlers s) (writers s) (supervisor s) (running s) (history s).

Definition with_recording_ready (b : bool) (s : state) :=
  State (globals s) (transcription_lock s) b (streams_ready s) (sender s)
        (handlers s) (writers s) (supervisor s) (running s) (history s).

Definition with_streams_ready (r : per_channel bool) (s : state) :=
  State (globals s) (transcription_lock s) (recording_ready s) r (sender s)
        (handlers s) (writers s) (supervisor s) (running s) (history s).

Definition with_sender (d : sender_state) (s : state) :=
  State (globals s) (transcription_lock s) (recording_ready s)
        (streams_ready s) d (handlers s) (writers s) (supervisor s)
        (running s) (history s).

Definition with_handlers (h : per_channel handler_state) (s : state) :=
  State (globals s) (transcription_lock s) (recording_ready s)
        (streams_ready s) (sender s) h (writers s) (supervisor s)
        (running s) (history s).

Definition with_writers (w : per_channel writer_state) (s : state) :=
  State (globals s) (transcription_lock s) (recording_ready s)
        (streams_ready s) (sender s) (handlers s) w (supervisor s)
        (running s) (history s).

Definition with_supervisor (p : supervisor_pc) (s : state) :=
  State (globals s) (transcription_lock s) (recording_ready s)
        (streams_ready s) (sender s) (handlers s) (writers s) p
        (running s) (history s).

Definition with_running (r : option coroutine) (s : state) :=
  State (globals s) (transcription_lock s) (recording_ready s)
        (streams_ready s) (sender s) (handlers s) (writers s)
        (supervisor s) r (history s).

Definition record (e : hevent) (s : state) :=
  State (globals s) (transcription_lock s) (recording_ready s)
        (streams_ready s) (sender s) (handlers s) (writers s)
        (supervisor s) (running s) (history s ++ [e]).

Definition log (m : log_msg) (s : state) : state :=
  with_globals (Sender.log_activity m) s.

Definition buffer_of (s : state) : buffer :=
  Sender.transcription_buffer (globals s).

(** The sender moves to [p]. *)
Definition goto (p : sender_pc) (s : state) : state :=
  let d := sender s in
  with_sender (SenderState p (all_transcriptions d) (recent_transcriptions d)
                           (cleared_mic d) (cleared_system d)) s.

Definition with_all (l : list turn) (s : state) : state :=
  let d := sender s in
  with_sender (SenderState (pc d) l (recent_transcriptions d)
                           (cleared_mic d) (cleared_system d)) s.

Definition with_recent (l : list turn) (s : state) : state :=
  let d := sender s in
  with_sender (SenderState (pc d) (all_transcriptions d) l
                           (cleared_mic d) (cleared_system d)) s.

Definition with_cleared (m y : nat) (s : state) : state :=
  let d := sender s in
  with_sender (SenderState (pc d) (all_transcriptions d)
                           (recent_transcriptions d) m y) s.

(** The handler of channel [c] moves to [p]. *)
Definition h_goto (c : channel) (p : handler_pc) (s : state) : state :=
  let h := get c (handlers s) in
  with_handlers (set c (HandlerState p (events_received h)) (handlers s)) s.

(** The writer of channel [c] moves to [p]. *)
Definition w_goto (c : channel) (p : writer_pc) (s : state) : state :=
  let w := get c (writers s) in
  with_writers
    (set c (WriterState p (first_chunk w) (chunks_sent w)) (writers s)) s.

(** The running coroutine reaches an [await] and gives up control. *)
Definition suspend (s : state) : state := with_running None s.

(** [all(streams_ready.values())]. *)
Definition all_ready (r : per_channel bool) : bool :=
  on_mic r && on_system r.

(** What the loops of lines 85-86 visit, in order. *)
Definition visits (ev : transcript_event) : list (bool * alternative) :=
  flat_map (fun r => map (fun a => (is_partial r, a)) (alternatives r)) ev.

(** The state when [main] has started both threads. *)
Definition initial : state :=
  State Sender.initial None false (PerChannel false false)
        (SenderState D_start [] [] 0 0)
        (PerChannel (HandlerState H_none 0%Z) (HandlerState H_none 0%Z))
        (PerChannel (WriterState W_none true 0%Z) (WriterState W_none true 0%Z))
        S_poll None [].

(** *** The sender thread *)

(** The sender thread, which runs [send_api_requests_periodically],
    executes its next statement.  [o], [sv] and [now]
    are what the environment answers at line 365 and after: the outcome of
    the request, of writing the response file, and the time of line 373.
    The result is [None] where the thread cannot proceed: the event is not
    set at line 298, or the lock is taken at line 308. *)
Definition sender_step (cfg : config) (o : Sender.post_outcome)
           (sv : Sender.save_outcome) (now : string) (s : state)
  : option state :=
  let d := sender s in
  let b := buffer_of s in
  match pc d with
  | D_start => Some (goto D_wait (log Log_sender_waiting s))
  | D_wait =>
      if recording_ready s
      then Some (goto D_sleep (log Log_recording_ready s))
      else None
  | D_sleep => Some (goto D_lock (log Log_timer_triggered s))
  | D_lock =>
      match transcription_lock s with
      | None =>
          Some (goto D_status
                  (record Ev_drain (with_lock (Some Sender_thread) s)))
      | Some _ => None
      end
  | D_status =>
      Some (goto D_add_mic
              (with_all []
                 (log (Log_buffer_status (List.length (buf_mic b))
                                         (List.length (buf_system b))) s)))
  | D_add_mic =>
      Some (goto D_add_system
              (with_all (all_transcriptions d
                           ++ map (Window.to_turn mic) (buf_mic b)) s))
  | D_add_system =>
      Some (goto D_sort
              (with_all (all_transcriptions d
                           ++ map (Window.to_turn system) (buf_system b)) s))
  | D_sort =>
      Some (goto D_recent
              (with_all (Window.sort_by_timestamp (all_transcriptions d)) s))
  | D_recent =>
      Some (goto D_cleared
              (with_recent (Window.recent (all_transcriptions d)) s))
  | D_cleared =>
      Some (goto D_clear_mic
              (with_cleared (List.length (buf_mic b))
                            (List.length (buf_system b)) s))
  | D_clear_mic =>
      Some (goto D_clear_system
              (with_globals (Sender.with_buffer (buf_set mic [] b)) s))
  | D_clear_system =>
      Some (goto D_log
              (with_globals (Sender.with_buffer (buf_set system [] b)) s))
  | D_log =>
      Some (goto D_unlock
              (with_globals
                 (Sender.log_window (recent_transcriptions d)
                                    (cleared_mic d) (cleared_system d)) s))
  | D_unlock => Some (goto D_check (with_lock None s))
  | D_check =>
      match recent_transcriptions d with
      | [] => Some (goto D_sleep s)
      | _ =>
          let s := with_globals Sender.increment s in
          let payload :=
            Sender.make_payload cfg (Sender.window_counter (globals s))
                                (recent_transcriptions d) in
          Some (goto (D_post payload)
                  (with_globals (Sender.request payload) s))
      end
  | D_post payload =>
      Some (goto D_sleep
              (with_globals (Sender.response cfg o sv now payload) s))
  end.

(** *** The handler of a channel *)

(** [handle_transcript_event] of the handler of channel [c], which is the
    running coroutine, executes its next statement; [now] is the clock as
    line 91 reads it. *)
Definition handler_step (c : channel) (now : string) (s : state)
  : option state :=
  let h := get c (handlers s) in
  match h_pc h with
  | H_none | H_await => None
  | H_enter ev =>
      let n := (events_received h + 1)%Z in
      let s := with_handlers (set c (HandlerState (h_pc h) n) (handlers s)) s in
      match ev with
      | [] =>
          Some (suspend
                  (h_goto c H_await
                     (if (n mod 50 =? 0)%Z
                      then log (Log_no_speech c n) s else s)))
      | _ => Some (h_goto c (H_next (visits ev)) s)
      end
  | H_next [] => Some (suspend (h_goto c H_await s))
  | H_next ((partial, alt) :: rest) =>
      let transcript := alt_transcript alt in
      if Handler.is_final_with_text partial transcript then
        Some (h_goto c (H_lock (now ++ "Z")%string transcript rest) s)
      else if Handler.is_partial_with_text partial transcript then
        Some (h_goto c (H_next rest) (log (Log_partial c transcript) s))
      else Some (h_goto c (H_next rest) s)
  | H_lock timestamp transcript rest =>
      match transcription_lock s with
      | None =>
          Some (h_goto c (H_append timestamp transcript rest)
                  (with_lock (Some (Loop (Handler c))) s))
      | Some _ => None
      end
  | H_append timestamp transcript rest =>
      let e := Entry timestamp transcript in
      Some (h_goto c (H_len transcript rest)
              (record (Ev_append c e)
                 (with_globals
                    (Sender.with_buffer (buf_append c e (buffer_of s))) s)))
  | H_len transcript rest =>
      Some (h_goto c
              (H_unlock (List.length (buf_get c (buffer_of s)))
                        transcript rest) s)
  | H_unlock buffer_size transcript rest =>
      Some (h_goto c (H_log buffer_size transcript rest) (with_lock None s))
  | H_log buffer_size transcript rest =>
      Some (h_goto c (H_next rest)
              (log (Log_buffer_added c buffer_size)
                 (log (Log_final c transcript) s)))
  end.

(** *** The writer of a channel *)

(** Lines 247-248: every 500th chunk is reported. *)
Definition log_progress (c : channel) (chunks_sent : Z) (s : state) : state :=
  if (chunks_sent mod 500 =? 0)%Z
  then log (Log_chunks_sent c chunks_sent) s
  else s.

(** [write_chunks] for channel [c], which is the running coroutine,
    executes its next statement. *)
Definition writer_step (c : channel) (s : state) : option state :=
  let w := get c (writers s) in
  match w_pc w with
  | W_count =>
      let n := (chunks_sent w + 1)%Z in
      let s :=
        with_writers
          (set c (WriterState (w_pc w) (first_chunk w) n) (writers s)) s in
      if first_chunk w
      then Some (w_goto c W_mark (log (Log_first_chunk c) s))
      else Some (suspend (w_goto c W_send (log_progress c n s)))
  | W_mark =>
      Some (w_goto c W_all
              (record (Ev_first_chunk c)
                 (with_streams_ready (set c true (streams_ready s)) s)))
  | W_all =>
      if all_ready (streams_ready s)
      then Some (w_goto c W_is_set s)
      else Some (w_goto c W_first_done s)
  | W_is_set =>
      if negb (recording_ready s)
      then Some (w_goto c W_set s)
      else Some (w_goto c W_first_done s)
  | W_set =>
      Some (w_goto c W_first_done
              (log Log_both_ready
                 (record Ev_fire (with_recording_ready true s))))
  | W_first_done =>
      Some (suspend
              (with_writers
                 (set c (WriterState W_send false (chunks_sent w))
                      (writers s))
                 (log_progress c (chunks_sent w) s)))
  | W_none | W_start | W_next | W_send | W_end | W_done => None
  end.

(** *** The supervisor *)

(** The tasks that a session creates: a new handler and a new writer for
    each channel. *)
Definition spawn (s : state) : state :=
  with_writers
    (PerChannel (WriterState W_start true 0%Z) (WriterState W_start true 0%Z))
    (with_handlers
       (PerChannel (HandlerState H_await 0%Z) (HandlerState H_await 0%Z)) s).

(** The tasks of a session are finished or cancelled. *)
Definition reap (s : state) : state :=
  w_goto mic W_none (w_goto system W_none
    (h_goto mic H_none (h_goto system H_none s))).

(** [recording_loop], which is the running coroutine, executes its next
    statement. *)
Definition supervisor_step (s : state) : option state :=
  match supervisor s with
  | S_clear =>
      Some (with_supervisor S_reset_mic
              (record Ev_session (with_recording_ready false s)))
  | S_reset_mic =>
      Some (with_supervisor S_reset_system
              (with_streams_ready (set mic false (streams_ready s)) s))
  | S_reset_system =>
      Some (suspend
              (spawn
                 (with_supervisor S_gather
                    (with_streams_ready
                       (set system false (streams_ready s)) s))))
  | S_poll | S_gather | S_stopped => None
  end.

(** *** The event loop and the interleaving of the two threads *)

(** How the wait of line 407 ends. *)
Inductive session_outcome : Type :=
| Session_returned                 (* both transcriptions have returned *)
| Session_timed_out                (* asyncio.TimeoutError, lines 411-413 *)
| Session_raised (e : string).     (* any other exception, lines 414-417 *)

(** Lines 411-417: what the supervisor logs when the wait ends. *)
Definition log_outcome (o : session_outcome) (s : state) : state :=
  match o with
  | Session_returned => s
  | Session_timed_out => log Log_will_retry (log Log_init_timeout s)
  | Session_raised e =>
      log Log_recording_traceback (log (Log_recording_error e) s)
  end.

(** What a writer that waits is resumed with. *)
Inductive writer_input : Type :=
| Chunk        (* line 235 delivers a chunk *)
| Finished     (* the awaited operation completes; at line 235, the
                  stream has no more chunks *)
| Failed.      (* the awaited operation raises *)

(** One move of the system. *)
Inductive label : Type :=
| L_sender (o : Sender.post_outcome) (sv : Sender.save_outcome)
           (now : string)
    (* the sender thread executes its next statement *)
| L_run (now : string)
    (* the running coroutine executes its next statement *)
| L_event (c : channel) (ev : transcript_event)
    (* the loop resumes the handler of [c] with a recognition event *)
| L_writer (c : channel) (i : writer_input)
    (* the loop resumes the writer of [c] *)
| L_poll (running_evt stop_evt : bool)
    (* the loop resumes the supervisor at the test of lines 396-397 *)
| L_session_over (o : session_outcome).
    (* the wait of line 407 ends: both transcriptions have returned, or
       the timeout has cancelled them, or an exception has come out; the
       tasks of the session are finished or cancelled by then *)

(** The loop resumes the writer of [c]. *)
Definition resume_writer (c : channel) (i : writer_input) (s : state)
  : option state :=
  let w := get c (writers s) in
  match w_pc w, i with
  | W_start, _ =>
      Some (with_writers
              (set c (WriterState W_next true (chunks_sent w)) (writers s)) s)
  | W_next, Chunk => Some (with_running (Some (Writer c)) (w_goto c W_count s))
  | W_next, Finished => Some (w_goto c W_end s)
  | W_next, Failed => Some (w_goto c W_done s)
  | W_send, Finished => Some (w_goto c W_next s)
  | W_send, Failed => Some (w_goto c W_done s)
  | W_end, (Finished | Failed) => Some (w_goto c W_done s)
  | _, _ => None
  end.

(** The loop resumes the supervisor at the loop test. *)
Definition resume_supervisor (running_evt stop_evt : bool) (s : state)
  : option state :=
  match supervisor s with
  | S_poll =>
      if stop_evt then Some (with_supervisor S_stopped s)
      else if running_evt then
        Some (with_running (Some Supervisor)
                (with_supervisor S_clear (log Log_starting_transcription s)))
      else Some s
  | _ => None
  end.

Definition step (cfg : config) (l : label) (s : state) : option state :=
  match l with
  | L_sender o sv now => sender_step cfg o sv now s
  | L_run now =>
      match running s with
      | Some (Handler c) => handler_step c now s
      | Some (Writer c) => writer_step c s
      | Some Supervisor => supervisor_step s
      | None => None
      end
  | L_event c ev =>
      match running s, h_pc (get c (handlers s)) with
      | None, H_await =>
          Some (with_running (Some (Handler c)) (h_goto c (H_enter ev) s))
      | _, _ => None
      end
  | L_writer c i =>
      match running s with
      | None => resume_writer c i s
      | Some _ => None
      end
  | L_poll running_evt stop_evt =>
      match running s with
      | None => resume_supervisor running_evt stop_evt s
      | Some _ => None
      end
  | L_session_over o =>
      match running s, supervisor s with
      | None, S_gather =>
          Some (log_outcome o (with_supervisor S_poll (reap s)))
      | _, _ => None
      end
  end.

(** The system makes the moves of [sched] one after the other. *)
Fixpoint exec (cfg : config) (sched : list label) (s : state)
  : option state :=
  match sched with
  | [] => Some s
  | l :: r =>
      match step cfg l s with
      | Some s' => exec cfg r s'
      | None => None
      end
  end.

End System.

(* ================================================================== *)
(** ** Reading the history *)

Module Hist.

Import System.

Definition is_drain (e : hevent) : bool :=
  match e with Ev_drain => true | _ => false end.

Definition is_session (e : hevent) : bool :=
  match e with Ev_session => true | _ => false end.

Definition is_fire (e : hevent) : bool :=
  match e with Ev_fire => true | _ => false end.

Definition is_first_chunk (c : channel) (e : hevent) : bool :=
  match e with Ev_first_chunk c' => channel_eqb c c' | _ => false end.

Definition is_gate (e : hevent) : bool :=
  match e with Ev_first_chunk _ | Ev_fire => true | _ => false end.

(** One more event for a history cut at the events [stop]: a [stop] event
    closes the open piece and opens an empty one, any other event joins the
    open piece. *)
Definition cut_step (stop : hevent -> bool)
           (st : list (list hevent) * list hevent) (e : hevent)
  : list (list hevent) * list hevent :=
  if stop e then (fst st ++ [snd st], []) else (fst st, snd st ++ [e]).

(** The history cut at the events [stop]: the closed pieces, oldest first,
    and the piece that is still open. *)
Definition cut (stop : hevent -> bool) (h : list hevent)
  : list (list hevent) * list hevent :=
  fold_left (cut_step stop) h ([], []).

(** The entries appended to the list of channel [c] by the events of [l],
    in order. *)
Definition appended (c : channel) (l : list hevent) : list entry :=
  flat_map (fun e => match e with
                     | Ev_append c' x => if channel_eqb c c' then [x] else []
                     | _ => []
                     end) l.

Definition appended_buffer (l : list hevent) : buffer :=
  Buffer (appended mic l) (appended system l).

(** The entries appended since the sender last took the lock (since the
    start, if it never did). *)
Definition pending (h : list hevent) : buffer :=
  appended_buffer (snd (cut is_drain h)).

(** The entries appended before the sender last took the lock and after it
    took the lock the time before (after the start, if there was no time
    before); nothing if the sender never took the lock. *)
Definition taken (h : list hevent) : buffer :=
  appended_buffer (last (fst (cut is_drain h)) []).

(** The events of the session in progress: those after the last execution
    of line 401. *)
Definition current_session (h : list hevent) : list hevent :=
  snd (cut is_session h).

(** The events of the sessions that are over, oldest first.  The first
    piece holds what happened before the first session. *)
Definition past_sessions (h : list hevent) : list (list hevent) :=
  fst (cut is_session h).

(** The first chunks and the firings of the gate among the events [l]. *)
Definition gate_events (l : list hevent) : list hevent := filter is_gate l.

(** Channel [c] has had its first chunk among the events [l]. *)
Definition observed (c : channel) (l : list hevent) : bool :=
  existsb (is_first_chunk c) l.

(** The gate has fired among the events [l]. *)
Definition fired (l : list hevent) : bool := existsb is_fire l.

(** How many times the gate has fired among the events [l]. *)
Definition fire_count (l : list hevent) : nat :=
  List.length (filter is_fire l).

(** Every firing among the events [l] comes after a first chunk of both
    channels; [m] and [y] tell whether the mic and the system channel had
    theirs before [l]. *)
Fixpoint fires_after_both (m y : bool) (l : list hevent) : bool :=
  match l with
  | [] => true
  | Ev_first_chunk mic :: r => fires_after_both true y r
  | Ev_first_chunk system :: r => fires_after_both m true r
  | Ev_fire :: r => m && y && fires_after_both m y r
  | _ :: r => fires_after_both m y r
  end.

(** The gate events a session can show: none; one first chunk; the first
    chunks of both channels; those followed by one firing. *)
Definition session_shape (g : list hevent) : bool :=
  match g with
  | [] => true
  | [Ev_first_chunk _] => true
  | [Ev_first_chunk c; Ev_first_chunk c'] => negb (channel_eqb c c')
  | [Ev_first_chunk c; Ev_first_chunk c'; Ev_fire] => negb (channel_eqb c c')
  | _ => false
  end.

(** Both channels have had their first chunk and the gate has not fired. *)
Definition about_to_fire (g : list hevent) : bool :=
  observed mic g && observed system g && negb (fired g).

End Hist.

(* ================================================================== *)
(** ** Where the activities of the system are *)

Module Where.

Import System.

(** The sender is between taking and releasing [transcription_lock]. *)
Definition d_locked (p : sender_pc) : bool :=
  match p with
  | D_status | D_add_mic | D_add_system | D_sort | D_recent | D_cleared
  | D_clear_mic | D_clear_system | D_log | D_unlock => true
  | _ => false
  end.


(** The sender waits: for the event (line 298), for the period to elapse
    (line 302), or for the answer to its request (line 365). *)
Definition d_suspended (p : sender_pc) : bool :=
  match p with
  | D_wait | D_sleep | D_post _ => true
  | _ => false
  end.

(** A handler is between taking and releasing [transcription_lock]. *)
Definition h_locked (p : handler_pc) : bool :=
  match p with
  | H_append _ _ _ | H_len _ _ | H_unlock _ _ _ => true
  | _ => false
  end.


(** A handler is not between two [await]s. *)
Definition h_suspended (p : handler_pc) : bool :=
  match p with
  | H_none | H_await => true
  | _ => false
  end.

(** A writer is not between two [await]s. *)
Definition w_suspended (p : writer_pc) : bool :=
  match p with
  | W_none | W_start | W_next | W_send | W_end | W_done => true
  | _ => false
  end.


(** The supervisor is not between two [await]s. *)
Definition s_suspended (p : supervisor_pc) : bool :=
  match p with
  | S_poll | S_gather | S_stopped => true
  | _ => false
  end.

(** The next statement of the supervisor writes [recording_ready] or
    [streams_ready] (lines 401-403). *)
Definition s_touches_readiness (p : supervisor_pc) : bool :=
  match p with
  | S_clear | S_reset_mic | S_reset_system => true
  | _ => false
  end.

Definition handler_at (c : channel) (s : state) : handler_pc :=
  h_pc (get c (handlers s)).

Definition writer_at (c : channel) (s : state) : writer_pc :=
  w_pc (get c (writers s)).

(** The activity waits at a suspension point, or does not exist. *)
Definition suspended (a : activity) (s : state) : bool :=
  match a with
  | Sender_thread => d_suspended (pc (sender s))
  | Loop (Handler c) => h_suspended (handler_at c s)
  | Loop (Writer c) => w_suspended (writer_at c s)
  | Loop Supervisor => s_suspended (supervisor s)
  end.


(** The activity is inside a [with transcription_lock] block. *)
Definition in_locked_block (a : activity) (s : state) : bool :=
  match a with
  | Sender_thread => d_locked (pc (sender s))
  | Loop (Handler c) => h_locked (handler_at c s)
  | Loop (Writer _) | Loop Supervisor => false
  end.


(** The states the system can be in. *)
Definition reachable (cfg : config) (s : state) : Prop :=
  exists sched, exec cfg sched initial = Some s.

Definition coroutine_eqb (k k' : coroutine) : bool :=
  match k, k' with
  | Handler c, Handler c' | Writer c, Writer c' => channel_eqb c c'
  | Supervisor, Supervisor => true
  | _, _ => false
  end.

Definition activity_eqb (a a' : activity) : bool :=
  match a, a' with
  | Sender_thread, Sender_thread => true
  | Loop k, Loop k' => coroutine_eqb k k'
  | _, _ => false
  end.

(** The activity holds [transcription_lock]. *)
Definition holds_lock (a : activity) (s : state) : bool :=
  match transcription_lock s with
  | Some a' => activity_eqb a a'
  | None => false
  end.

(** The coroutine is the one the event loop is running. *)
Definition is_running (k : coroutine) (s : state) : bool :=
  match running s with
  | Some k' => coroutine_eqb k k'
  | None => false
  end.

(** The lock is held by the activity that is inside a locked block, and by
    no other. *)
Definition lock_ok (s : state) : Prop :=
  in_locked_block Sender_thread s = holds_lock Sender_thread s
  /\ in_locked_block (Loop (Handler mic)) s = holds_lock (Loop (Handler mic)) s
  /\ in_locked_block (Loop (Handler system)) s
     = holds_lock (Loop (Handler system)) s
  /\ holds_lock (Loop (Writer mic)) s = false
  /\ holds_lock (Loop (Writer system)) s = false
  /\ holds_lock (Loop Supervisor) s = false.

(** Every coroutine but the running one waits at a suspension point. *)
Definition loop_ok (s : state) : Prop :=
  is_running (Handler mic) s || suspended (Loop (Handler mic)) s = true
  /\ is_running (Handler system) s || suspended (Loop (Handler system)) s
     = true
  /\ is_running (Writer mic) s || suspended (Loop (Writer mic)) s = true
  /\ is_running (Writer system) s || suspended (Loop (Writer system)) s = true
  /\ is_running Supervisor s || suspended (Loop Supervisor) s = true.

(** The sender has left the wait of line 298 behind. *)
Definition past_gate (s : state) : bool :=
  match pc (sender s) with
  | D_start | D_wait => false
  | _ => true
  end.

(** What the buffer holds when the sender is at [p], given the entries
    [taken] by the pass in progress or the last one and the entries
    [pending] since. *)
Definition expected_buffer (p : sender_pc) (taken pending : buffer) : buffer :=
  match p with
  | D_status | D_add_mic | D_add_system | D_sort | D_recent | D_cleared
  | D_clear_mic => taken
  | D_clear_system => Buffer [] (buf_system taken)
  | D_log | D_unlock => empty_buffer
  | _ => pending
  end.

(** What [all_transcriptions] holds when the sender is at [p]. *)
Definition all_ok (p : sender_pc) (all_transcriptions : list turn)
           (taken : buffer) : Prop :=
  match p with
  | D_status => True
  | D_add_mic => all_transcriptions = []
  | D_add_system =>
      all_transcriptions = map (Window.to_turn mic) (buf_mic taken)
  | D_sort => all_transcriptions = Window.combine taken
  | _ => all_transcriptions = Window.sort_by_timestamp (Window.combine taken)
  end.

(** What [recent_transcriptions] holds when the sender is at [p]. *)
Definition recent_ok (p : sender_pc) (recent_transcriptions : list turn)
           (taken : buffer) : Prop :=
  match p with
  | D_status | D_add_mic | D_add_system | D_sort | D_recent => True
  | _ => recent_transcriptions = Window.window taken
  end.

(** The buffer and the locals of the sender agree with the history. *)
Definition buffer_ok (s : state) : Prop :=
  let h := history s in
  let d := sender s in
  buffer_of s = expected_buffer (pc d) (Hist.taken h) (Hist.pending h)
  /\ (d_locked (pc d) = true -> Hist.pending h = empty_buffer)
  /\ all_ok (pc d) (all_transcriptions d) (Hist.taken h)
  /\ recent_ok (pc d) (recent_transcriptions d) (Hist.taken h).

(** A writer is between the test of line 242 and the end of line 244. *)
Definition in_gate_check (p : writer_pc) : bool :=
  match p with
  | W_all | W_is_set | W_set => true
  | _ => false
  end.

(** The running coroutine is a writer inside lines 242-244. *)
Definition mid_block (s : state) : bool :=
  (is_running (Writer mic) s && in_gate_check (writer_at mic s))
  || (is_running (Writer system) s && in_gate_check (writer_at system s)).

(** The gate events of the session in progress. *)
Definition gate (s : state) : list hevent :=
  Hist.gate_events (Hist.current_session (history s)).

(** A session that is over shows one of the shapes, and it has fired if
    both channels had their first chunk. *)
Definition complete (g : list hevent) : bool :=
  Hist.session_shape g && negb (Hist.about_to_fire g).

(** What the position of the writer of channel [c] tells about the session
    in progress. *)
Definition writer_ok (c : channel) (s : state) : Prop :=
  let w := get c (writers s) in
  match w_pc w with
  | W_start | W_mark => Hist.observed c (gate s) = false
  | W_next | W_count => first_chunk w = true -> Hist.observed c (gate s) = false
  | W_is_set =>
      Hist.observed mic (gate s) = true /\ Hist.observed system (gate s) = true
  | W_set =>
      Hist.observed mic (gate s) = true /\ Hist.observed system (gate s) = true
      /\ Hist.fired (gate s) = false
  | W_send => first_chunk w = false
  | _ => True
  end.

(** What [streams_ready] holds, by the position of the supervisor. *)
Definition flags_ok (s : state) : Prop :=
  match supervisor s with
  | S_reset_mic => gate s = []
  | S_reset_system => gate s = [] /\ on_mic (streams_ready s) = false
  | _ =>
      on_mic (streams_ready s) = Hist.observed mic (gate s)
      /\ on_system (streams_ready s) = Hist.observed system (gate s)
  end.

(** There are writers only while the supervisor awaits the session. *)
Definition writers_in_session (s : state) : Prop :=
  supervisor s <> S_gather ->
  writer_at mic s = W_none /\ writer_at system s = W_none.

(** The readiness state agrees with the history. *)
Definition gate_ok (s : state) : Prop :=
  Hist.session_shape (gate s) = true
  /\ recording_ready s = Hist.fired (gate s)
  /\ flags_ok s
  /\ writer_ok mic s
  /\ writer_ok system s
  /\ (Hist.about_to_fire (gate s) = true -> mid_block s = true)
  /\ writers_in_session s
  /\ Forall (fun l => complete (Hist.gate_events l) = true)
            (Hist.past_sessions (history s)).



End Where.

(* ================================================================== *)
(** ** Vocabulary of the properties *)

Module Props.

(** The entries of a buffer list that carry timestamp [t], in order. *)
Definition entries_at (t : string) (l : list entry) : list entry :=
  filter (fun e => String.eqb (e_timestamp e) t) l.

(** The entries of the buffer at timestamp [t] in the order lines 318-331
    visit them: the mic entries as agent, then the system entries as
    customer, each list in insertion order. *)
Definition tied (t : string) (b : buffer) : list turn :=
  map (Window.to_turn mic) (entries_at t (buf_mic b))
  ++ map (Window.to_turn system) (entries_at t (buf_system b)).

(** No agent turn of [l] comes after a customer turn of [l]. *)
Fixpoint agents_first (l : list turn) : bool :=
  match l with
  | [] => true
  | x :: r =>
      match t_speaker x with
      | agent => agents_first r
      | customer =>
          forallb (fun y => match t_speaker y with
                            | customer => true
                            | agent => false
                            end) r
      end
  end.

(** The timestamps of a list of turns. *)
Definition timestamps (l : list turn) : list string := map t_timestamp l.

(** The other channel. *)
Definition other (c : channel) : channel :=
  match c with mic => system | system => mic end.

(** The transcripts of an event that have a character other than white
    space and belong to a result that is not partial, in the order of the
    two loops. *)
Definition final_texts (ev : transcript_event) : list string :=
  flat_map (fun r =>
              if is_partial r then []
              else filter (fun t => negb (PyStr.blank t))
                          (map alt_transcript (alternatives r))) ev.

(** The window numbers [1, 2, ..., n] as they stand in payloads. *)
Definition numbers_from_one (n : nat) : list (option json) :=
  map (fun k => Some (JInt (Z.of_nat k))) (seq 1 n).

(** The messages a pass of the sender loop adds to the log. *)
Definition logged_by (cfg : config) (e : Sender.tick_env) (w : Sender.world)
  : list log_msg :=
  skipn (List.length (Sender.activity_log w))
        (Sender.activity_log (Sender.tick cfg e w)).

(** The counter is the number of requests made so far, and the requests
    carry the numbers 1, 2, 3, ... in the order they were made. *)
Definition numbered (w : Sender.world) : Prop :=
  Sender.window_counter w = Z.of_nat (List.length (Sender.posted w))
  /\ map Sender.window_num_of (Sender.posted w)
     = numbers_from_one (List.length (Sender.posted w)).


(** [len(payload["turns"])], when [payload["turns"]] is a list. *)
Definition turns_count (payload : list (string * json)) : option nat :=
  match lookup "turns" payload with
  | Some (JList l) => Some (List.length l)
  | _ => None
  end.

(** The request carries at least one turn and at most ten. *)
Definition well_sized (payload : list (string * json)) : bool :=
  match turns_count payload with
  | Some n => (1 <=? n) && (n <=? 10)
  | None => false
  end.

(** What has been sent and archived so far fits together: a line is
    printed for every file written and for nothing else; the files carry
    the numbers of requests already answered, each number once and in
    rising order, so there are no more files than such requests; and the
    file with number [n] holds the payload of the [n]-th request.  [answered] is the number of requests whose answer has
    been dealt with. *)
Definition archive_ok (cfg : config) (answered : Z) (w : Sender.world)
  : Prop :=
  Sender.printed w = map snd (Sender.saved w)
  /\ (Z.of_nat (List.length (Sender.saved w)) <= answered)%Z
  /\ StronglySorted Z.lt (map fst (Sender.saved w))
  /\ Forall (fun x =>
               (1 <= fst x <= answered)%Z
               /\ exists payload status_code timestamp text,
                   nth_error (Sender.posted w) (Z.to_nat (fst x) - 1)
                   = Some payload
                   /\ snd x
                      = Sender.make_response_data
                          cfg (fst x) status_code timestamp payload text)
            (Sender.saved w).

End Props.

(* ================================================================== *)
(** ** A stream of events, and the turns of one speaker *)

Module Stream.

(** [handle_transcript_event] called for the events of a stream one after
    the other, as the base class's [handle_events] does for the handler of
    channel [c]. *)
Definition handle_all (now : nat -> string) (c : channel)
           (events : list transcript_event) (w : Handler.world)
  : Handler.world :=
  fold_left (fun w ev => Handler.handle_transcript_event now c ev w) events w.

(** The timestamps of a buffer list never go down. *)
Definition ascending (l : list entry) : Prop :=
  StronglySorted (fun a b => PyStr.le (e_timestamp a) (e_timestamp b)) l.

Definition speaker_eqb (a b : speaker) : bool :=
  match a, b with
  | agent, agent | customer, customer => true
  | _, _ => false
  end.

(** The turns of one speaker, in the order they have in [l]. *)
Definition turns_of (sp : speaker) (l : list turn) : list turn :=
  filter (fun t => speaker_eqb (t_speaker t) sp) l.

(** The timestamps the handler gives to its next [n] entries when the clock
    has been read [k] times. *)
Definition stamps (now : nat -> string) (k n : nat) : list string :=
  map (fun i => (now i ++ "Z")%string) (seq k n).

End Stream.

(* ================================================================== *)
(** ** The command loop of [main] (lines 445-463) and the shutdown handler *)

(** The main thread reads commands from standard input until it is told to
    quit.  The model starts where the loop starts; the two threads started
    before it appear only through the entries they add to the activity log
    while the main thread waits for a line.  SIGINT and SIGTERM are handled
    by [shutdown_handler] (lines 466-472), so that no KeyboardInterrupt
    reaches the loop; a signal is taken to arrive while the main thread
    waits in [readline]. *)
Module Main.

(** [str.lower] on one character, for the ASCII range. *)
Definition lower_char (c : ascii) : ascii :=
  let n := nat_of_ascii c in
  if (65 <=? n) && (n <=? 90) then ascii_of_nat (n + 32) else c.

(** [s.lower()]. *)
Fixpoint lower (s : string) : string :=
  match s with
  | EmptyString => EmptyString
  | String c r => String (lower_char c) (lower r)
  end.

(** Every character of the string is in the ASCII range. *)
Fixpoint is_ascii (s : string) : bool :=
  match s with
  | EmptyString => true
  | String c r => (nat_of_ascii c <? 128) && is_ascii r
  end.

(** The entries of the activity log: those of the main thread, and those
    that the other threads add. *)
Inductive msg : Type :=
| Log_activated                  (* line 450 *)
| Log_paused                     (* line 453 *)
| Log_quit                       (* line 455 *)
| Log_shutdown                   (* line 467 *)
| Log_other (m : log_msg).

(** The lines printed. *)
Inductive line : Type :=
| Out_entry (m : msg)     (* an entry of the log, lines 27 and 35 *)
| Out_blank_rule          (* line 31: an empty line and a rule *)
| Out_title               (* line 32 *)
| Out_rule                (* lines 33 and 36 *)
| Out_help.               (* line 458 *)

Record world : Type := World {
  running : bool;                (* the event [running] is set *)
  stop : bool;                   (* the event [stop] is set *)
  activity_log : list msg;
  printed : list line
}.

(** Lines 22-27. *)
Definition log_activity (m : msg) (w : world) : world :=
  World (running w) (stop w) (activity_log w ++ [m])
        (printed w ++ [Out_entry m]).

(** What [dump_log] prints for a log. *)
Definition dump_of (log : list msg) : list line :=
  [Out_blank_rule; Out_title; Out_rule] ++ map Out_entry log ++ [Out_rule].

(** Lines 29-36. *)
Definition dump_log (w : world) : world :=
  World (running w) (stop w) (activity_log w)
        (printed w ++ dump_of (activity_log w)).

(** Lines 448-458: the branches on [cmd]. *)
Definition command (cmd : string) (w : world) : world :=
  if String.eqb cmd "s" then
    log_activity Log_activated
                 (World true (stop w) (activity_log w) (printed w))
  else if String.eqb cmd "p" then
    log_activity Log_paused
                 (World false (stop w) (activity_log w) (printed w))
  else if String.eqb cmd "q" then
    let w := log_activity Log_quit w in
    World (running w) true (activity_log w) (printed w)
  else if PyStr.truthy cmd then
    World (running w) (stop w) (activity_log w) (printed w ++ [Out_help])
  else w.

(** Line 447: [sys.stdin.readline().strip().lower()]. *)
Definition cmd_of (read : string) : string := lower (PyStr.strip read).

(** What happens while the main thread is in the loop: [readline] returns
    a line, another thread logs an entry, or a signal arrives. *)
Inductive input : Type :=
| Read (read : string)
| Logged (m : log_msg)
| Signal.

(** How [main] ends. *)
Inductive ending : Type :=
| Returned                 (* the loop is left and [main] returns *)
| Exited (code : Z).       (* [sys.exit] in the shutdown handler *)

(** Lines 466-469, followed by the [finally] clause of line 462, which the
    SystemExit raised by [sys.exit(0)] passes through. *)
Definition shutdown (w : world) : world :=
  dump_log (dump_log (log_activity Log_shutdown w)).

(** Lines 445-463.  When the inputs are used up standard input is at its
    end, where [readline] returns the empty string.  [None] when the loop
    has not ended within [fuel] steps. *)
Fixpoint main_loop (fuel : nat) (inputs : list input) (w : world)
  : option (ending * world * list input) :=
  match fuel with
  | 0 => None
  | S fuel =>
      if stop w then Some (Returned, dump_log w, inputs)
      else
        match inputs with
        | [] => main_loop fuel [] (command (cmd_of "") w)
        | Read read :: rest => main_loop fuel rest (command (cmd_of read) w)
        | Logged m :: rest =>
            main_loop fuel rest (log_activity (Log_other m) w)
        | Signal :: rest => Some (Exited 0, shutdown w, rest)
        end
  end.

(** The input is a line that gives the command [c]. *)
Definition gives (c : string) (i : input) : bool :=
  match i with
  | Read read => String.eqb (cmd_of read) c
  | _ => false
  end.

Definition is_signal (i : input) : bool :=
  match i with Signal => true | _ => false end.

(** The input is a line of ASCII characters, or no line. *)
Definition ascii_input (i : input) : bool :=
  match i with Read read => is_ascii read | _ => true end.

(** Neither a quit command nor a signal. *)
Definition goes_on (i : input) : bool :=
  negb (gives "q" i) && negb (is_signal i).


(** What one input does to the state. *)
Definition react (i : input) (w : world) : world :=
  match i with
  | Read read => command (cmd_of read) w
  | Logged m => log_activity (Log_other m) w
  | Signal => shutdown w
  end.

(** The state after a list of inputs. *)
Definition after (inputs : list input) (w : world) : world :=
  fold_left (fun w i => react i w) inputs w.

End Main.

(* ================================================================== *)
(** ** The timestamps of the entries (line 91) *)

(** Line 91 reads the clock and builds the timestamp of an entry as
    [datetime.datetime.now().isoformat() + "Z"].  [isoformat] writes a
    [datetime] without time zone as [YYYY-MM-DDTHH:MM:SS.ffffff], and as
    [YYYY-MM-DDTHH:MM:SS] when its microsecond is 0. *)
Module Clock.

#[local] Open Scope Z_scope.

Record datetime : Type := Datetime {
  year : Z;
  month : Z;
  day : Z;
  hour : Z;
  minute : Z;
  second : Z;
  microsecond : Z
}.

(** The ranges of the fields of a [datetime]. *)
Definition valid (d : datetime) : bool :=
  (1 <=? year d) && (year d <=? 9999)
  && (1 <=? month d) && (month d <=? 12)
  && (1 <=? day d) && (day d <=? 31)
  && (0 <=? hour d) && (hour d <? 24)
  && (0 <=? minute d) && (minute d <? 60)
  && (0 <=? second d) && (second d <? 60)
  && (0 <=? microsecond d) && (microsecond d <? 1000000).

(** The last decimal digit of [n]. *)
Definition digit (n : Z) : ascii := ascii_of_N (Z.to_N (48 + n mod 10)).

(** [n] written with [width] decimal digits, with zeros in front. *)
Fixpoint digits (width : nat) (n : Z) : string :=
  match width with
  | O => EmptyString
  | S w => (digits w (n / 10) ++ String (digit n) EmptyString)%string
  end.

(** The fraction of a second as [isoformat] writes it. *)
Definition fraction (d : datetime) : string :=
  if microsecond d =? 0 then EmptyString
  else ("." ++ digits 6 (microsecond d))%string.

(** [d.isoformat()]. *)
Definition isoformat (d : datetime) : string :=
  (digits 4 (year d) ++ "-" ++ digits 2 (month d) ++ "-"
   ++ digits 2 (day d) ++ "T" ++ digits 2 (hour d) ++ ":"
   ++ digits 2 (minute d) ++ ":" ++ digits 2 (second d)
   ++ fraction d)%string.

(** Line 91: the timestamp of an entry made at [d]. *)
Definition timestamp (d : datetime) : string :=
  (isoformat d ++ "Z")%string.

(** One step of a comparison field by field. *)
Definition and_then (c : comparison) (rest : comparison) : comparison :=
  match c with Eq => rest | _ => c end.

(** The order of two [datetime]s up to the second. *)
Definition compare_seconds (a b : datetime) : comparison :=
  and_then (year a ?= year b)
  (and_then (month a ?= month b)
  (and_then (day a ?= day b)
  (and_then (hour a ?= hour b)
  (and_then (minute a ?= minute b)
            (second a ?= second b))))).

(** The order of two [datetime]s in time: the comparison of Python, field
    by field. *)
Definition compare (a b : datetime) : comparison :=
  and_then (compare_seconds a b) (microsecond a ?= microsecond b).

(** The microsecond is 0. *)
Definition whole (d : datetime) : bool := microsecond d =? 0.

End Clock.

(* ================================================================== *)
(** ** The credentials handed to the transcription client (lines 196-208) *)

Module Credentials.

(** [os.environ]: the value of each variable that is set. *)
Definition environ : Type := string -> option string.

(** [os.environ[k] = v]. *)
Definition setenv (k v : string) (env : environ) : environ :=
  fun k' => if String.eqb k' k then Some v else env k'.

(** What [session.get_credentials()] returns; [token] is [None] or a
    string. *)
Record credentials : Type := Credentials {
  access_key : string;
  secret_key : string;
  token : option string
}.

(** The truth value of [credentials.token]: [None] and the empty string
    are false. *)
Definition has_token (c : credentials) : bool :=
  match token c with
  | Some t => PyStr.truthy t
  | None => false
  end.

(** Lines 204-208. *)
Definition export (c : credentials) (env : environ) : environ :=
  let env := setenv "AWS_ACCESS_KEY_ID" (access_key c) env in
  let env := setenv "AWS_SECRET_ACCESS_KEY" (secret_key c) env in
  let env :=
    match token c with
    | Some t => if PyStr.truthy t then setenv "AWS_SESSION_TOKEN" t env
                else env
    | None => env
    end in
  setenv "AWS_DEFAULT_REGION" "ap-southeast-2" env.

(** The four variables that [export] can write. *)
Definition exported (k : string) : bool :=
  String.eqb k "AWS_ACCESS_KEY_ID" || String.eqb k "AWS_SECRET_ACCESS_KEY"
  || String.eqb k "AWS_SESSION_TOKEN" || String.eqb k "AWS_DEFAULT_REGION".

End Credentials.

(* ================================================================== *)
(** ** The lines a pass of the sender logs *)

Module Pass.

(** Lines 348-349: the lines for the turns of a window, numbered after
    [i]. *)
Fixpoint turn_lines (i : nat) (l : list turn) : list log_msg :=
  match l with
  | [] => []
  | t :: r =>
      Log_turn (S i) (t_speaker t) (PyStr.prefix_n 50 (t_transcript t))
      :: turn_lines (S i) r
  end.

(** Lines 346-351. *)
Definition window_lines (recent_transcriptions : list turn)
           (cleared_mic cleared_system : nat) : list log_msg :=
  match recent_transcriptions with
  | [] => [Log_nothing_to_send cleared_mic cleared_system]
  | _ =>
      Log_sending (List.length recent_transcriptions)
                  cleared_mic cleared_system
      :: turn_lines 0 recent_transcriptions
  end.

Definition is_api_error (m : log_msg) : bool :=
  match m with Log_api_error _ => true | _ => false end.

Definition is_request_failed (m : log_msg) : bool :=
  match m with Log_request_failed _ => true | _ => false end.

(** The buffer when the pass takes the lock. *)
Definition at_lock (e : Sender.tick_env) (w : Sender.world) : buffer :=
  Sender.transcription_buffer (Sender.arrive (Sender.arrived e) w).

(** Lines 366-389: the lines that follow the request. *)
Definition answer_lines (n : Z) (o : Sender.post_outcome)
           (sv : Sender.save_outcome) : list log_msg :=
  match o with
  | Sender.Post_raised e => [Log_request_failed e]
  | Sender.Responded status_code text =>
      Log_request_sent n status_code
      :: match sv with
         | Sender.Save_raised e => [Log_request_failed e]
         | Sender.Saved =>
             Log_response_saved n
             :: (if (status_code =? 200)%Z then [] else [Log_api_error text])
         end
  end.

End Pass.

(* ================================================================== *)
(** ** From ffmpeg to the transcription stream (lines 108-188, 226-255) *)

(** [mic_stream] and [system_stream] differ in the source they record and
    in the label of their log lines only; [write_chunks] forwards what the
    generator of its channel yields.  The readiness flags that
    [write_chunks] sets on the first chunk are part of [System]; here the
    generator and the loop that consumes it are followed for one channel,
    one chunk after the other. *)
Module Audio.

(** What [proc.stdout.read(CHUNK_SIZE)] does: it returns bytes, none at
    the end of the output, or raises. *)
Inductive read : Type :=
| Data (chunk : string)
| Read_raised (e : string).

(** What [stream.input_stream.send_audio_event] does. *)
Inductive send : Type :=
| Sent
| Send_raised (e : string).

Record state : Type := State {
  forwarded : list string;   (* the chunks passed to [send_audio_event] *)
  chunk_count : Z;           (* of the generator, lines 123 and 130 *)
  chunks_sent : Z            (* of [write_chunks], lines 225 and 236 *)
}.

Definition initial : state := State [] 0 0.

(** How the loop of [write_chunks] ends. *)
Inductive ending : Type :=
| Stream_ended        (* the generator is exhausted: line 251 ends the
                         stream *)
| Sending_failed (e : string).
                      (* the handler of line 252: the stream is not ended *)

(** Lines 125-133 and 235-249.  The generator reads; an empty read ends
    it (line 127), and so does a read that raises, which line 134 catches;
    a chunk is counted on both sides and sent.  The result lists the reads
    that were never made; [None] when the loop has not ended with the
    reads and sends given. *)
Fixpoint write_chunks (reads : list read) (sends : list send) (s : state)
  : option (ending * state * list read) :=
  match reads with
  | [] => None
  | Read_raised _ :: rest => Some (Stream_ended, s, rest)
  | Data chunk :: rest =>
      if PyStr.truthy chunk then
        let s := State (forwarded s ++ [chunk]) (chunk_count s + 1)
                       (chunks_sent s + 1) in
        match sends with
        | [] => None
        | Sent :: sends' => write_chunks rest sends' s
        | Send_raised e :: _ => Some (Sending_failed e, s, rest)
        end
      else Some (Stream_ended, s, rest)
  end.

(** The read ends the generator. *)
Definition stops (r : read) : bool :=
  match r with
  | Data chunk => negb (PyStr.truthy chunk)
  | Read_raised _ => true
  end.

End Audio.

(* ================================================================== *)
(** ** Inputs used in the examples *)

Module Examples.

Definition cfg : config :=
  Config "00000000-0000-4000-8000-000000000000" "agent@example.com"
         "20240101_120000".

(** Timestamps [10, 30, 20] on the mic channel, [15, 25] on the system
    channel. *)
Definition interleaved : buffer :=
  Buffer [Entry "10" "a"; Entry "30" "b"; Entry "20" "c"]
         [Entry "15" "x"; Entry "25" "y"].

(** Thirteen fragments: eleven on the mic channel at times 01 to 11, two on
    the system channel at times 12 and 13. *)
Definition thirteen : buffer :=
  Buffer [Entry "01" "m1"; Entry "02" "m2"; Entry "03" "m3"; Entry "04" "m4";
          Entry "05" "m5"; Entry "06" "m6"; Entry "07" "m7"; Entry "08" "m8";
          Entry "09" "m9"; Entry "10" "m10"; Entry "11" "m11"]
         [Entry "12" "s1"; Entry "13" "s2"].

(** A mic and a system fragment with the same timestamp, the system one
    appended to its list first in time. *)
Definition tie : buffer :=
  Buffer [Entry "10" "agent says"; Entry "10" "agent again"]
         [Entry "10" "customer says"].

(** A clock whose [k]-th reading is [k] seconds past noon. *)
Definition clock (k : nat) : string :=
  match k with
  | 0 => "2024-01-01T12:00:00.000001"
  | 1 => "2024-01-01T12:00:01.000001"
  | 2 => "2024-01-01T12:00:02.000001"
  | _ => "2024-01-01T12:00:03.000001"
  end.

(** A handler that has seen nothing yet, and an empty buffer. *)
Definition quiet : Handler.world := Handler.World empty_buffer [] 0%Z 0.

(** One event with one final result that has two alternatives. *)
Definition two_alternatives : transcript_event :=
  [Result false [Alternative "hello there"; Alternative "hello their"]].

(** One event with a partial result, a final result that is blank, and a
    final result with one alternative. *)
Definition mixed_event : transcript_event :=
  [Result true [Alternative "hel"];
   Result false [Alternative "   "];
   Result false [Alternative "hello"]].

(** A pass of the sender loop during which the five entries of
    [interleaved] arrive and the request is answered with status 200. *)
Definition good_tick : Sender.tick_env :=
  Sender.TickEnv interleaved (Sender.Responded 200 "ok") Sender.Saved
                 "2024-01-01T12:00:15.000001".

(** The same pass when the request is answered with status 503. *)
Definition failing_tick : Sender.tick_env :=
  Sender.TickEnv interleaved (Sender.Responded 503 "unavailable") Sender.Saved
                 "2024-01-01T12:00:15.000001".

(** The same pass when the request raises. *)
Definition raising_tick : Sender.tick_env :=
  Sender.TickEnv interleaved (Sender.Post_raised "connection refused")
                 Sender.Saved "2024-01-01T12:00:15.000001".

(** A pass during which nothing arrives. *)
Definition idle_tick : Sender.tick_env :=
  Sender.TickEnv empty_buffer (Sender.Responded 200 "ok") Sender.Saved
                 "2024-01-01T12:00:30.000001".

(** An event with one final result. *)
Definition hello : transcript_event := [Result false [Alternative "hello"]].

(** An answer with status 200, for the moves of the sender that need none. *)
Definition ok : System.label :=
  System.L_sender (Sender.Responded 200 "ok") Sender.Saved
                  "2024-01-01T12:00:15.000001".

(** The running coroutine executes one statement at noon. *)
Definition go : System.label := System.L_run "2024-01-01T12:00:00.000001".


(** A session starts, both writers get their first chunk and the event is
    set; the sender passes the wait. *)
Definition gate_opens : list System.label :=
  [System.L_poll true false; go; go; go;
   System.L_writer mic System.Chunk; System.L_writer mic System.Chunk;
   go; go; go; go;
   System.L_writer system System.Chunk; System.L_writer system System.Chunk;
   go; go; go; go; go; go;
   ok; ok].

(** The session ends and a new one starts, which clears the event; the
    sender then makes a whole pass. *)
Definition new_session_and_pass : list System.label :=
  [System.L_session_over System.Session_timed_out;
   System.L_poll true false; go; go; go;
   ok; ok; ok; ok; ok; ok; ok; ok; ok; ok; ok; ok; ok].

(** After [gate_opens]: the mic handler appends an entry; the sender takes
    the lock; an event for the system handler arrives, and the handler has
    to wait for the lock; the sender finishes its locked block; the system
    handler then appends its entry. *)
Definition append_drain_append : list System.label :=
  gate_opens
  ++ [System.L_event mic hello; go; go; go; go; go; go; go; go;
      ok; ok;
      System.L_event system hello; go; go;
      ok; ok; ok; ok; ok; ok; ok; ok; ok; ok;
      go; go; go; go; go; go].

(** After [gate_opens]: the mic handler appends an entry; the sender takes
    the lock and executes the first statement of its block; an event for
    the system handler arrives and the handler reaches line 94. *)
Definition handler_waits : list System.label :=
  gate_opens
  ++ [System.L_event mic hello; go; go; go; go; go; go; go; go;
      ok; ok;
      System.L_event system hello; go; go].

(** After [append_drain_append]: the sender makes the request for the entry
    of the mic handler, receives the answer and writes the file; its next
    pass does the same for the entry of the system handler. *)
Definition two_requests : list System.label :=
  append_drain_append ++ repeat ok 16.

(** The main thread at the start of its loop, with nothing logged yet. *)
Definition idle_main : Main.world := Main.World false false [] [].

(** Lines typed at the recorder: start, pause with blanks and a capital
    letter, a word that is no command, an empty line, and start again;
    meanwhile the sender thread logs that it waits. *)
Definition typed : list Main.input :=
  [Main.Read (String "s" (String "010" EmptyString));
   Main.Logged Log_sender_waiting;
   Main.Read (String " " (String "P" (String " " (String "010" EmptyString))));
   Main.Read (String "h" (String "i" (String "010" EmptyString)));
   Main.Read (String "010" EmptyString);
   Main.Read (String "S" (String "010" EmptyString))].


(** A clock whose [k]-th reading is [k] microseconds past noon, written as
    [isoformat] writes it: the first reading falls on a whole second. *)
Definition noon_clock (k : nat) : string :=
  Clock.isoformat (Clock.Datetime 2024 1 1 12 0 0 (Z.of_nat k)).

(** Eleven events, each with one final result: the fragments f0 to f10 in
    the order they are received. *)
Definition eleven : list transcript_event :=
  map (fun t => [Result false [Alternative t]])
      ["f0"; "f1"; "f2"; "f3"; "f4"; "f5"; "f6"; "f7"; "f8"; "f9"; "f10"].

(** A transcript made of one no-break space (U+00A0), of one next-line
    character (U+0085), and of one ideographic space (U+3000). *)
Definition no_break_space : string := String "194" (String "160" EmptyString).

Definition next_line : string := String "194" (String "133" EmptyString).

Definition ideographic_space : string :=
  String "227" (String "128" (String "128" EmptyString)).


End Examples.

(* ================================================================== *)
(** ** How far an activity is from releasing the lock *)

Module Progress.

Import System.

(** The number of statements the sender has still to execute before it has
    released [transcription_lock]: 10 when it has just taken it (lines
    310-315 come next), 1 when it is about to leave the [with] block, 0
    outside the block. *)
Definition d_to_release (p : sender_pc) : nat :=
  match p with
  | D_status => 10
  | D_add_mic => 9
  | D_add_system => 8
  | D_sort => 7
  | D_recent => 6
  | D_cleared => 5
  | D_clear_mic => 4
  | D_clear_system => 3
  | D_log => 2
  | D_unlock => 1
  | _ => 0
  end.


(** The move is a move of the sender thread. *)
Definition is_sender_label (l : label) : bool :=
  match l with
  | L_sender _ _ _ => true
  | _ => false
  end.

(** The move is a statement of the running coroutine. *)
Definition is_run_label (l : label) : bool :=
  match l with
  | L_run _ => true
  | _ => false
  end.

(** Outside a session there are no handler and no writer tasks, and the
    coroutine that runs, if any, is at a statement between two [await]s. *)
Definition tasks_ok (s : state) : Prop :=
  (supervisor s <> S_gather ->
   Where.handler_at mic s = H_none /\ Where.handler_at system s = H_none
   /\ Where.writer_at mic s = W_none /\ Where.writer_at system s = W_none)
  /\ (forall k, Where.is_running k s = true ->
                Where.suspended (Loop k) s = false).

(** How many sessions have started: how many times line 401 was
    executed. *)
Definition sessions_started (h : list hevent) : nat :=
  List.length (filter Hist.is_session h).

(** The number of requests whose answer has been dealt with: all of them,
    but for the one that line 365 is waiting for. *)
Definition answered (s : state) : Z :=
  match pc (sender s) with
  | D_post _ => (Sender.window_counter (globals s) - 1)%Z
  | _ => Sender.window_counter (globals s)
  end.

(** The request in flight is the last one made. *)
Definition in_flight_ok (s : state) : Prop :=
  match pc (sender s) with
  | D_post payload =>
      nth_error (Sender.posted (globals s))
                (Z.to_nat (Sender.window_counter (globals s)) - 1)
      = Some payload
  | _ => True
  end.

(** What the requests made so far look like. *)
Definition requests_ok (s : state) : Prop :=
  Props.numbered (globals s)
  /\ forallb Props.well_sized (Sender.posted (globals s)) = true
  /\ List.length (recent_transcriptions (sender s)) <= 10.

(** The sender waits for the answer to a request. *)
Definition is_post (p : sender_pc) : bool :=
  match p with D_post _ => true | _ => false end.

(** No handler and no writer exists. *)
Definition no_tasks (s : state) : Prop :=
  Where.handler_at mic s = H_none /\ Where.handler_at system s = H_none
  /\ Where.writer_at mic s = W_none /\ Where.writer_at system s = W_none.

End Progress.

(* ================================================================== *)
(** * Properties *)

(** ** Order of Python strings *)

Section StringOrder.

Lemma ascii_compare_refl (a : ascii) : Ascii.compare a a = Eq.
Proof. unfold Ascii.compare. apply N.compare_refl. Qed.

Lemma string_compare_refl (s : string) : String.compare s s = Eq.
Proof.
  induction s as [|a s IH]; simpl; [reflexivity|].
  now rewrite ascii_compare_refl.
Qed.

Lemma ascii_compare_lt_trans (a b c : ascii) :
  Ascii.compare a b = Lt -> Ascii.compare b c = Lt -> Ascii.compare a c = Lt.
Proof.
  unfold Ascii.compare. rewrite !N.compare_lt_iff. lia.
Qed.

Lemma string_compare_lt_trans (s1 s2 s3 : string) :
  String.compare s1 s2 = Lt -> String.compare s2 s3 = Lt ->
  String.compare s1 s3 = Lt.
Proof.
  revert s2 s3.
  induction s1 as [|a s1 IH]; intros [|b s2] [|c s3]; simpl;
    try discriminate; auto.
  destruct (Ascii.compare a b) eqn:Eab; try discriminate;
    destruct (Ascii.compare b c) eqn:Ebc; try discriminate; intros H1 H2.
  - apply Ascii.compare_eq_iff in Eab, Ebc. subst.
    rewrite ascii_compare_refl. eauto.
  - apply Ascii.compare_eq_iff in Eab. subst. now rewrite Ebc.
  - apply Ascii.compare_eq_iff in Ebc. subst. now rewrite Eab.
  - now rewrite (ascii_compare_lt_trans _ _ _ Eab Ebc).
Qed.

Lemma le_refl (s : string) : PyStr.le s s.
Proof. unfold PyStr.le, String.leb. now rewrite string_compare_refl. Qed.

Lemma le_total (a b : string) : PyStr.le a b \/ PyStr.le b a.
Proof. apply String.leb_total. Qed.

Lemma le_antisym (a b : string) : PyStr.le a b -> PyStr.le b a -> a = b.
Proof. apply String.leb_antisym. Qed.

Lemma le_trans (a b c : string) :
  PyStr.le a b -> PyStr.le b c -> PyStr.le a c.
Proof.
  unfold PyStr.le, String.leb.
  destruct (String.compare a b) eqn:Eab; try discriminate;
    destruct (String.compare b c) eqn:Ebc; try discriminate; intros _ _.
  - apply String.compare_eq_iff in Eab, Ebc. subst.
    now rewrite string_compare_refl.
  - apply String.compare_eq_iff in Eab. subst. now rewrite Ebc.
  - apply String.compare_eq_iff in Ebc. subst. now rewrite Eab.
  - now rewrite (string_compare_lt_trans _ _ _ Eab Ebc).
Qed.

(** [not (a <= b)] gives [b <= a] and [a <> b]. *)
Lemma not_le (a b : string) :
  String.leb a b = false -> PyStr.le b a /\ a <> b.
Proof.
  intros H. split.
  - destruct (le_total a b) as [H'|H']; [unfold PyStr.le in H'; congruence|].
    exact H'.
  - intros ->. pose proof (le_refl b) as H'. unfold PyStr.le in H'.
    congruence.
Qed.

End StringOrder.

(** ** White space *)

Section Strip.

Lemma chars_not_empty (s : string) :
  Forall (fun ch => PyStr.truthy ch = true) (PyStr.chars s).
Proof.
  induction s as [|c s IH]; cbn [PyStr.chars]; [constructor|].
  destruct (PyStr.chars s) as [|[|c' g] rest].
  - repeat constructor.
  - constructor; [reflexivity|exact IH].
  - inversion IH; subst.
    destruct (PyStr.continues c'); repeat constructor; assumption.
Qed.

Lemma drop_spaces_nil (l : list string) :
  PyStr.drop_spaces l = [] <-> forallb PyStr.isspace l = true.
Proof.
  induction l as [|ch l IH]; cbn; [tauto|].
  destruct (PyStr.isspace ch); cbn; [exact IH|].
  split; discriminate.
Qed.

Lemma drop_spaces_blank (l : list string) :
  forallb PyStr.isspace (PyStr.drop_spaces l) = forallb PyStr.isspace l.
Proof.
  induction l as [|ch l IH]; cbn; [reflexivity|].
  destruct (PyStr.isspace ch) eqn:E; cbn; [exact IH|].
  now rewrite E.
Qed.

Lemma forallb_rev (f : string -> bool) (l : list string) :
  forallb f (rev l) = forallb f l.
Proof.
  induction l as [|x l IH]; [reflexivity|].
  cbn [rev forallb]. rewrite forallb_app, IH. cbn.
  rewrite andb_true_r. apply andb_comm.
Qed.

Lemma drop_spaces_not_empty (l : list string) :
  Forall (fun ch => PyStr.truthy ch = true) l ->
  Forall (fun ch => PyStr.truthy ch = true) (PyStr.drop_spaces l).
Proof.
  induction 1 as [|ch l H F IH]; cbn; [constructor|].
  destruct (PyStr.isspace ch); [exact IH|now constructor].
Qed.

Lemma truthy_join (l : list string) :
  Forall (fun ch => PyStr.truthy ch = true) l ->
  PyStr.truthy (PyStr.join l) = negb (match l with [] => true | _ => false end).
Proof.
  intros F. destruct F as [|ch l H F]; [reflexivity|].
  unfold PyStr.join. cbn [String.concat negb].
  destruct ch as [|c ch]; [discriminate H|].
  destruct l; reflexivity.
Qed.

(** [s.strip()] is true exactly when [s] has a character that is not
    white space. *)
Lemma truthy_strip (s : string) :
  PyStr.truthy (PyStr.strip s) = negb (PyStr.blank s).
Proof.
  unfold PyStr.strip, PyStr.blank.
  pose proof (chars_not_empty s) as F.
  set (l := PyStr.chars s) in *. clearbody l.
  set (m := PyStr.drop_spaces l).
  assert (Fm : Forall (fun ch => PyStr.truthy ch = true) m)
    by now apply drop_spaces_not_empty.
  assert (Fr : Forall (fun ch => PyStr.truthy ch = true)
                      (rev (PyStr.drop_spaces (rev m)))).
  { apply Forall_rev, drop_spaces_not_empty, Forall_rev, Fm. }
  rewrite (truthy_join Fr). f_equal.
  rewrite <- (drop_spaces_blank l). fold m.
  rewrite <- (forallb_rev PyStr.isspace m).
  destruct (forallb PyStr.isspace (rev m)) eqn:E.
  - apply drop_spaces_nil in E. now rewrite E.
  - destruct (rev (PyStr.drop_spaces (rev m))) as [|x r] eqn:R;
      [|reflexivity].
    apply (f_equal (@rev string)) in R. rewrite rev_involutive in R.
    cbn in R. apply drop_spaces_nil in R. congruence.
Qed.

End Strip.

(** ** The sort of line 334 *)

Section SortFacts.

Import Window.

Lemma insert_perm (x : turn) (l : list turn) :
  Permutation (insert x l) (x :: l).
Proof.
  induction l as [|y l IH]; simpl; [reflexivity|].
  destruct (String.leb (t_timestamp x) (t_timestamp y)); [reflexivity|].
  rewrite IH. apply perm_swap.
Qed.

Lemma sort_perm (l : list turn) : Permutation (sort_by_timestamp l) l.
Proof.
  induction l as [|x l IH]; simpl; [reflexivity|].
  rewrite insert_perm. now constructor.
Qed.

Lemma sort_length (l : list turn) :
  List.length (sort_by_timestamp l) = List.length l.
Proof. apply Permutation_length, sort_perm. Qed.

Lemma insert_sorted (x : turn) (l : list turn) :
  StronglySorted ts_le l -> StronglySorted ts_le (insert x l).
Proof.
  induction 1 as [|y l Hl IH Hy]; simpl.
  - repeat constructor.
  - destruct (String.leb (t_timestamp x) (t_timestamp y)) eqn:E.
    + constructor; [now constructor|].
      constructor; [exact E|].
      eapply Forall_impl; [|exact Hy].
      intros z Hz. unfold ts_le in *. eapply le_trans; eauto.
    + apply not_le in E as [E _].
      constructor; [exact IH|].
      eapply Permutation_Forall; [symmetry; apply insert_perm|].
      constructor; assumption.
Qed.

Lemma sort_sorted (l : list turn) : StronglySorted ts_le (sort_by_timestamp l).
Proof.
  induction l as [|x l IH]; simpl; [constructor|].
  now apply insert_sorted.
Qed.

(** Insertion does not reorder entries that carry the same timestamp. *)
Lemma at_time_insert (t : string) (x : turn) (l : list turn) :
  at_time t (insert x l) = at_time t (x :: l).
Proof.
  induction l as [|y l IH]; simpl; [reflexivity|].
  destruct (String.leb (t_timestamp x) (t_timestamp y)) eqn:E;
    [reflexivity|].
  simpl. rewrite IH. simpl.
  apply not_le in E as [_ E].
  destruct (String.eqb_spec (t_timestamp x) t) as [Hx|Hx];
    destruct (String.eqb_spec (t_timestamp y) t) as [Hy|Hy];
    try reflexivity.
  congruence.
Qed.

(** The sort is stable. *)
Lemma sort_stable (t : string) (l : list turn) :
  at_time t (sort_by_timestamp l) = at_time t l.
Proof.
  induction l as [|x l IH]; simpl; [reflexivity|].
  rewrite at_time_insert. simpl. now rewrite IH.
Qed.

Lemma at_time_head (x : turn) (l : list turn) :
  at_time (t_timestamp x) (x :: l) = x :: at_time (t_timestamp x) l.
Proof. unfold at_time. simpl. now rewrite String.eqb_refl. Qed.

(** Two ascending lists that agree at every timestamp are equal. *)
Lemma sorted_at_time_eq (l1 l2 : list turn) :
  StronglySorted ts_le l1 -> StronglySorted ts_le l2 ->
  (forall t, at_time t l1 = at_time t l2) -> l1 = l2.
Proof.
  intros H1. revert l2.
  induction H1 as [|x l1 Hl1 IH Hx]; intros l2 H2 Heq.
  - destruct l2 as [|y l2]; [reflexivity|].
    specialize (Heq (t_timestamp y)). rewrite at_time_head in Heq.
    discriminate.
  - destruct H2 as [|y l2 Hl2 Hy].
    + specialize (Heq (t_timestamp x)). rewrite at_time_head in Heq.
      discriminate.
    + assert (Hxy : t_timestamp x = t_timestamp y).
      { apply le_antisym.
        - pose proof (Heq (t_timestamp y)) as E. rewrite (at_time_head y) in E.
          assert (Hin : In y (at_time (t_timestamp y) (x :: l1)))
            by (rewrite E; now left).
          apply filter_In in Hin as [[->|Hin] _]; [apply le_refl|].
          rewrite Forall_forall in Hx. now apply Hx.
        - pose proof (Heq (t_timestamp x)) as E. rewrite (at_time_head x) in E.
          assert (Hin : In x (at_time (t_timestamp x) (y :: l2)))
            by (rewrite <- E; now left).
          apply filter_In in Hin as [[->|Hin] _]; [apply le_refl|].
          rewrite Forall_forall in Hy. now apply Hy. }
      assert (x = y).
      { pose proof (Heq (t_timestamp x)) as E.
        rewrite at_time_head, Hxy, at_time_head in E. congruence. }
      subst y. f_equal. apply IH; [assumption|].
      intros t. specialize (Heq t). unfold at_time in *. simpl in Heq.
      destruct (String.eqb (t_timestamp x) t); congruence.
Qed.

(** Every stable sort by timestamp returns what [sort_by_timestamp]
    returns: the model of [list.sort] does not depend on the algorithm. *)
Lemma sort_by_timestamp_unique (l l' : list turn) :
  StronglySorted ts_le l' ->
  (forall t, at_time t l' = at_time t l) ->
  l' = sort_by_timestamp l.
Proof.
  intros Hs Hst. apply sorted_at_time_eq; [assumption|apply sort_sorted|].
  intros t. now rewrite sort_stable.
Qed.

(** [recent] keeps the end of the list. *)
Lemma recent_suffix (l : list turn) :
  l = firstn (List.length l - 10) l ++ recent l.
Proof.
  unfold recent, last_n.
  destruct (10 <? List.length l) eqn:E.
  - symmetry. apply firstn_skipn.
  - apply Nat.ltb_ge in E.
    replace (List.length l - 10) with 0 by lia. reflexivity.
Qed.

Lemma recent_length (l : list turn) :
  List.length (recent l) = Nat.min 10 (List.length l).
Proof.
  unfold recent, last_n.
  destruct (10 <? List.length l) eqn:E.
  - apply Nat.ltb_lt in E. rewrite length_skipn. lia.
  - apply Nat.ltb_ge in E. lia.
Qed.

Lemma recent_skipn (l : list turn) :
  recent l = skipn (List.length l - 10) l.
Proof.
  unfold recent, last_n.
  destruct (10 <? List.length l) eqn:E; [reflexivity|].
  apply Nat.ltb_ge in E.
  replace (List.length l - 10) with 0 by lia. reflexivity.
Qed.

Lemma sorted_app_le (l1 l2 : list turn) :
  StronglySorted ts_le (l1 ++ l2) ->
  forall x y, In x l1 -> In y l2 -> ts_le x y.
Proof.
  induction l1 as [|a l1 IH]; simpl; intros H x y Hx Hy; [contradiction|].
  inversion H as [|? ? Hs Ha]; subst.
  destruct Hx as [->|Hx].
  - rewrite Forall_forall in Ha. apply Ha, in_or_app. now right.
  - now apply IH.
Qed.

Lemma combine_length (b : buffer) :
  List.length (combine b)
  = List.length (buf_mic b) + List.length (buf_system b).
Proof. unfold combine. now rewrite length_app, !length_map. Qed.

(** The entries of [l ++ r] at one timestamp, past the first [k]. *)
Lemma at_time_skipn (t : string) (k : nat) (l : list turn) :
  exists j, at_time t (skipn k l) = skipn j (at_time t l).
Proof.
  revert l. induction k as [|k IH]; intros l.
  - exists 0. reflexivity.
  - destruct l as [|x l]; [exists 0; reflexivity|].
    destruct (IH l) as [j Hj]. simpl skipn. unfold at_time in *. simpl.
    destruct (String.eqb (t_timestamp x) t).
    + exists (S j). exact Hj.
    + exists j. exact Hj.
Qed.

Lemma at_time_map (t : string) (c : channel) (l : list entry) :
  at_time t (map (to_turn c) l)
  = map (to_turn c) (filter (fun e => String.eqb (e_timestamp e) t) l).
Proof.
  induction l as [|e l IH]; simpl; [reflexivity|].
  unfold at_time in *. simpl.
  destruct (String.eqb (e_timestamp e) t); simpl; now rewrite IH.
Qed.

End SortFacts.

(** ** The window of a tick *)

Section WindowFacts.

Import Window.

Lemma sorted_skipn (k : nat) (l : list turn) :
  StronglySorted ts_le l -> StronglySorted ts_le (skipn k l).
Proof.
  revert l. induction k as [|k IH]; intros l H; [exact H|].
  destruct l as [|x l]; [constructor|].
  simpl. apply IH. now inversion H.
Qed.

Lemma window_sorted (b : buffer) : StronglySorted ts_le (window b).
Proof.
  unfold window. rewrite recent_skipn. apply sorted_skipn, sort_sorted.
Qed.

Lemma all_customers_skipn (k : nat) (l : list turn) :
  forallb (fun y => match t_speaker y with
                    | customer => true
                    | agent => false
                    end) l = true ->
  Props.agents_first (skipn k l) = true.
Proof.
  revert l. induction k as [|k IH]; intros l H.
  - simpl. destruct l as [|x l]; [reflexivity|].
    simpl in *. destruct (t_speaker x); [discriminate|exact H].
  - destruct l as [|x l]; [reflexivity|].
    simpl in *. apply andb_true_iff in H as [_ H]. now apply IH.
Qed.

Lemma agents_first_skipn (k : nat) (l : list turn) :
  Props.agents_first l = true -> Props.agents_first (skipn k l) = true.
Proof.
  revert l. induction k as [|k IH]; intros l H; [exact H|].
  destruct l as [|x l]; [reflexivity|].
  simpl in *. destruct (t_speaker x); [now apply IH|].
  now apply all_customers_skipn.
Qed.

Lemma agents_first_tied (t : string) (b : buffer) :
  Props.agents_first (Props.tied t b) = true.
Proof.
  unfold Props.tied.
  induction (Props.entries_at t (buf_mic b)) as [|e l IH]; simpl.
  - induction (Props.entries_at t (buf_system b)) as [|e l IH];
      [reflexivity|].
    simpl. clear IH. induction l as [|e' l IH]; [reflexivity|exact IH].
  - exact IH.
Qed.

Lemma at_time_combine (t : string) (b : buffer) :
  at_time t (combine b) = Props.tied t b.
Proof.
  unfold combine, Props.tied, Props.entries_at.
  rewrite <- !at_time_map. apply filter_app.
Qed.

End WindowFacts.

(** X17.  The window in the order of the timestamp strings.  It is the
    merge of the two buffer lists, mic entries as agent and system entries
    as customer, sorted by a stable sort in ascending order of the
    timestamp strings and cut down to its last 10 entries: the sorted list
    is the dropped entries followed by the window, the window has
    [min 10 n] entries for [n] merged ones, its timestamp strings ascend,
    and no dropped entry has a greater timestamp string than an entry that
    is kept.  With 13 fragments, 3 are dropped and 10 kept.  How the order
    of the strings relates to the order of time is a separate matter,
    settled with the timestamps below. *)
Theorem window_is_recent_of_sorted_merge (b : buffer) :
  let merged := Window.combine b in
  let sorted := Window.sort_by_timestamp merged in
  let dropped := firstn (List.length sorted - 10) sorted in
  merged = map (fun e => Turn agent (e_text e) (e_timestamp e)) (buf_mic b)
           ++ map (fun e => Turn customer (e_text e) (e_timestamp e))
                  (buf_system b)
  /\ Permutation sorted merged
  /\ StronglySorted Window.ts_le sorted
  /\ (forall t, Window.at_time t sorted = Window.at_time t merged)
  /\ sorted = dropped ++ Window.window b
  /\ List.length (Window.window b) = Nat.min 10 (List.length merged)
  /\ StronglySorted Window.ts_le (Window.window b)
  /\ Forall (fun x => Forall (fun y => Window.ts_le x y) (Window.window b))
            dropped
  /\ (List.length merged = 13 ->
      List.length dropped = 3 /\ List.length (Window.window b) = 10).
Proof.
  intros merged sorted dropped.
  assert (Hsplit : sorted = dropped ++ Window.window b)
    by apply recent_suffix.
  assert (Hlen : List.length (Window.window b)
                 = Nat.min 10 (List.length merged)).
  { unfold Window.window. rewrite recent_length. fold merged.
    now rewrite sort_length. }
  repeat split.
  - apply sort_perm.
  - apply sort_sorted.
  - intros t. apply sort_stable.
  - exact Hsplit.
  - exact Hlen.
  - apply window_sorted.
  - apply Forall_forall. intros x Hx. apply Forall_forall. intros y Hy.
    eapply sorted_app_le; eauto.
    rewrite <- Hsplit. apply sort_sorted.
  - subst dropped. rewrite length_firstn. unfold sorted.
    rewrite sort_length. lia.
  - lia.
Qed.

(** C2.  Eleven final results are received one microsecond after the
    other, the first one on a whole second, so that [isoformat] writes its
    timestamp without a fraction.  The sort of line 334 compares the
    timestamp strings and puts that fragment, the oldest, after all the
    others; the window of line 337 then keeps it, as its last entry, and
    drops f1, which is more recent.  The window is neither the ten most
    recent fragments nor in the order of time. *)
Theorem window_keeps_the_oldest_fragment_and_drops_a_newer_one :
  map (fun e => (e_text e, e_timestamp e))
      (buf_mic
         (Handler.transcription_buffer
            (Stream.handle_all Examples.noon_clock mic Examples.eleven
                               Examples.quiet)))
  = [("f0", "2024-01-01T12:00:00Z");
     ("f1", "2024-01-01T12:00:00.000001Z");
     ("f2", "2024-01-01T12:00:00.000002Z");
     ("f3", "2024-01-01T12:00:00.000003Z");
     ("f4", "2024-01-01T12:00:00.000004Z");
     ("f5", "2024-01-01T12:00:00.000005Z");
     ("f6", "2024-01-01T12:00:00.000006Z");
     ("f7", "2024-01-01T12:00:00.000007Z");
     ("f8", "2024-01-01T12:00:00.000008Z");
     ("f9", "2024-01-01T12:00:00.000009Z");
     ("f10", "2024-01-01T12:00:00.000010Z")]
  /\ map t_transcript
       (Window.window
          (Handler.transcription_buffer
             (Stream.handle_all Examples.noon_clock mic Examples.eleven
                                Examples.quiet)))
     = ["f2"; "f3"; "f4"; "f5"; "f6"; "f7"; "f8"; "f9"; "f10"; "f0"].
Proof. split; vm_compute; reflexivity. Qed.

(** The example of the specification: timestamps [10, 30, 20] on one
    channel and [15, 25] on the other come out as [10, 15, 20, 25, 30]. *)
Example window_interleaved :
  Props.timestamps (Window.window Examples.interleaved)
  = ["10"; "15"; "20"; "25"; "30"].
Proof. reflexivity. Qed.

(** Thirteen fragments, eleven of them on the mic channel: the window holds
    the ten latest of both channels together, so the three oldest mic
    entries go and both system entries stay. *)
Example window_thirteen :
  Props.timestamps (Window.window Examples.thirteen)
  = ["04"; "05"; "06"; "07"; "08"; "09"; "10"; "11"; "12"; "13"]
  /\ map t_speaker (Window.window Examples.thirteen)
     = [agent; agent; agent; agent; agent; agent; agent; agent;
        customer; customer].
Proof. split; reflexivity. Qed.

(** C9.  The entries of the window that carry one timestamp are an end piece
    of: the mic entries with that timestamp in insertion order, as agent,
    followed by the system entries with that timestamp in insertion order,
    as customer.  So among equal timestamps every agent entry comes before
    every customer entry, and each channel keeps its insertion order. *)
Theorem equal_timestamps_keep_merge_order (b : buffer) (t : string) :
  (exists k,
      Window.at_time t (Window.window b) = skipn k (Props.tied t b))
  /\ Props.agents_first (Window.at_time t (Window.window b)) = true.
Proof.
  assert (H : exists k,
             Window.at_time t (Window.window b) = skipn k (Props.tied t b)).
  { unfold Window.window. rewrite recent_skipn.
    destruct (at_time_skipn t
                (List.length (Window.sort_by_timestamp (Window.combine b)) - 10)
                (Window.sort_by_timestamp (Window.combine b))) as [j Hj].
    exists j. now rewrite Hj, sort_stable, at_time_combine. }
  split; [exact H|].
  destruct H as [k ->]. apply agents_first_skipn, agents_first_tied.
Qed.

(** Equal timestamps on both channels: the agent entries come first, in the
    order they were appended, then the customer entry. *)
Example window_tie :
  Window.window Examples.tie
  = [Turn agent "agent says" "10"; Turn agent "agent again" "10";
     Turn customer "customer says" "10"].
Proof. reflexivity. Qed.

(** ** The handler *)

Section HandlerFacts.

Import Handler.

Variable now : nat -> string.

Lemma stamped_app (k : nat) (l1 l2 : list string) :
  stamped now k (l1 ++ l2)
  = stamped now k l1 ++ stamped now (k + List.length l1) l2.
Proof.
  revert k. induction l1 as [|t l1 IH]; intros k; simpl.
  - now rewrite Nat.add_0_r.
  - rewrite IH. do 3 f_equal. lia.
Qed.

Lemma stamped_length (k : nat) (l : list string) :
  List.length (stamped now k l) = List.length l.
Proof. revert k. induction l; intros; simpl; auto. Qed.

Lemma buf_get_append_same (c : channel) (e : entry) (b : buffer) :
  buf_get c (buf_append c e b) = buf_get c b ++ [e].
Proof. now destruct c. Qed.

Lemma buf_get_append_other (c : channel) (e : entry) (b : buffer) :
  buf_get (Props.other c) (buf_append c e b) = buf_get (Props.other c) b.
Proof. now destruct c. Qed.

(** What one alternative does to the buffer and to the clock. *)
Lemma handle_alternative_effect (c : channel) (partial : bool)
      (alt : alternative) (w : world) :
  let w' := handle_alternative now c partial alt w in
  let ts := filter (is_final_with_text partial) [alt_transcript alt] in
  buf_get c (transcription_buffer w')
  = buf_get c (transcription_buffer w) ++ stamped now (clock_reads w) ts
  /\ buf_get (Props.other c) (transcription_buffer w')
     = buf_get (Props.other c) (transcription_buffer w)
  /\ clock_reads w' = clock_reads w + List.length ts
  /\ events_received w' = events_received w.
Proof.
  unfold handle_alternative. simpl.
  destruct (is_final_with_text partial (alt_transcript alt)); simpl.
  - rewrite buf_get_append_same, buf_get_append_other.
    repeat split; lia.
  - destruct (is_partial_with_text partial (alt_transcript alt)); simpl;
      rewrite app_nil_r; repeat split; lia.
Qed.

Lemma handle_alternatives_effect (c : channel) (partial : bool)
      (alts : list alternative) (w : world) :
  let w' := fold_left (fun w alt => handle_alternative now c partial alt w)
                      alts w in
  let ts := filter (is_final_with_text partial) (map alt_transcript alts) in
  buf_get c (transcription_buffer w')
  = buf_get c (transcription_buffer w) ++ stamped now (clock_reads w) ts
  /\ buf_get (Props.other c) (transcription_buffer w')
     = buf_get (Props.other c) (transcription_buffer w)
  /\ clock_reads w' = clock_reads w + List.length ts
  /\ events_received w' = events_received w.
Proof.
  revert w. induction alts as [|alt alts IH]; intros w; simpl.
  - rewrite app_nil_r. repeat split; lia.
  - destruct (handle_alternative_effect c partial alt w)
      as (H1 & H2 & H3 & H4).
    destruct (IH (handle_alternative now c partial alt w))
      as (I1 & I2 & I3 & I4).
    cbv zeta in *. rewrite I1, I2, I3, I4, H1, H2, H3, H4. clear.
    simpl. destruct (is_final_with_text partial (alt_transcript alt)); simpl.
    + rewrite <- app_assoc. simpl.
      replace (clock_reads w + 1) with (S (clock_reads w)) by lia.
      repeat split; lia.
    + rewrite Nat.add_0_r, app_nil_r. repeat split; lia.
Qed.

Lemma handle_results_effect (c : channel) (ev : transcript_event) (w : world) :
  let w' := fold_left (fun w r => handle_result now c r w) ev w in
  buf_get c (transcription_buffer w')
  = buf_get c (transcription_buffer w)
    ++ stamped now (clock_reads w) (accepted ev)
  /\ buf_get (Props.other c) (transcription_buffer w')
     = buf_get (Props.other c) (transcription_buffer w)
  /\ clock_reads w' = clock_reads w + List.length (accepted ev)
  /\ events_received w' = events_received w.
Proof.
  revert w. induction ev as [|r ev IH]; intros w; simpl.
  - rewrite app_nil_r. repeat split; lia.
  - destruct (handle_alternatives_effect c (is_partial r) (alternatives r) w)
      as (H1 & H2 & H3 & H4).
    destruct (IH (handle_result now c r w)) as (I1 & I2 & I3 & I4).
    cbv zeta in *. unfold handle_result in *.
    rewrite I1, I2, I3, I4, H1, H2, H3, H4. clear.
    fold (accepted_of_result r). rewrite stamped_app, length_app, app_assoc.
    repeat split; lia.
Qed.

End HandlerFacts.

Lemma accepted_final_texts (ev : transcript_event) :
  Handler.accepted ev = Props.final_texts ev.
Proof.
  unfold Handler.accepted, Props.final_texts.
  induction ev as [|r ev IH]; simpl; [reflexivity|].
  rewrite IH. f_equal. unfold Handler.accepted_of_result.
  unfold Handler.is_final_with_text.
  destruct (is_partial r); simpl.
  - induction (map alt_transcript (alternatives r)); simpl; auto.
  - apply filter_ext. intros t. apply truthy_strip.
Qed.

(** C5, as amended.  Handling one recognition event appends to the list of
    the handler's channel one entry per alternative that belongs to a result
    that is not partial and whose transcript is not blank, in the order of
    the loops, each with the time at which it is handled followed by "Z";
    nothing else is appended, and the list of the other channel is left as
    it is.  An alternative of a partial result and an alternative with a
    blank transcript append nothing. *)
Theorem handler_appends_one_entry_per_final_text
        (now : nat -> string) (c : channel) (ev : transcript_event)
        (w : Handler.world) :
  let w' := Handler.handle_transcript_event now c ev w in
  buf_get c (Handler.transcription_buffer w')
  = buf_get c (Handler.transcription_buffer w)
    ++ Handler.stamped now (Handler.clock_reads w) (Props.final_texts ev)
  /\ buf_get (Props.other c) (Handler.transcription_buffer w')
     = buf_get (Props.other c) (Handler.transcription_buffer w)
  /\ Handler.events_received w' = (Handler.events_received w + 1)%Z.
Proof.
  rewrite <- accepted_final_texts.
  unfold Handler.handle_transcript_event.
  destruct ev as [|r ev].
  - simpl. rewrite app_nil_r.
    destruct ((Handler.events_received w + 1) mod 50 =? 0)%Z; simpl; auto.
  - set (w0 := Handler.World _ _ _ _).
    destruct (handle_results_effect now c (r :: ev) w0) as (H1 & H2 & _ & H4).
    cbv zeta in *. rewrite H1, H2, H4. subst w0. simpl. auto.
Qed.

(** One final result with one alternative that has text gives one entry,
    stamped with the time of handling; the partial result and the blank
    one give none. *)
Example handler_mixed_event :
  Handler.transcription_buffer
    (Handler.handle_transcript_event Examples.clock mic Examples.mixed_event
                                     Examples.quiet)
  = Buffer [Entry "2024-01-01T12:00:00.000001Z" "hello"] [].
Proof. reflexivity. Qed.

(** A final result whose transcript is white space that is not ASCII, a
    no-break space, a next-line character or an ideographic space, is
    discarded like a blank one. *)
Example handler_discards_unicode_white_space :
  Handler.transcription_buffer
    (Handler.handle_transcript_event
       Examples.clock mic
       [Result false [Alternative Examples.no_break_space;
                      Alternative Examples.next_line;
                      Alternative Examples.ideographic_space]]
       Examples.quiet)
  = empty_buffer.
Proof. reflexivity. Qed.

(** C5, counterexample.  One final result that has two alternatives with
    text: the handler appends two entries, not one. *)
Lemma handler_two_alternatives_two_entries :
  List.length Examples.two_alternatives = 1
  /\ map is_partial Examples.two_alternatives = [false]
  /\ buf_mic (Handler.transcription_buffer
                (Handler.handle_transcript_event
                   Examples.clock mic Examples.two_alternatives
                   Examples.quiet))
     = [Entry "2024-01-01T12:00:00.000001Z" "hello there";
        Entry "2024-01-01T12:00:01.000001Z" "hello their"]
  /\ List.length
       (buf_mic (Handler.transcription_buffer
                   (Handler.handle_transcript_event
                      Examples.clock mic Examples.two_alternatives
                      Examples.quiet))) <> 1.
Proof. repeat split. vm_compute. discriminate. Qed.

(** ** The sender loop *)

Section SenderFacts.

Import Sender.

Variable cfg : config.

Lemma log_turns_fields (l : list turn) (i : nat) (w : world) :
  transcription_buffer (log_turns i l w) = transcription_buffer w
  /\ window_counter (log_turns i l w) = window_counter w
  /\ posted (log_turns i l w) = posted w
  /\ exists m, activity_log (log_turns i l w) = activity_log w ++ m.
Proof.
  revert i w. induction l as [|t l IH]; intros i w; cbn [log_turns].
  - repeat split. exists []. now rewrite app_nil_r.
  - destruct (IH (S i)
                 (log_activity
                    (Log_turn (S i) (t_speaker t)
                              (PyStr.prefix_n 50 (t_transcript t))) w))
      as (H1 & H2 & H3 & m & H4).
    rewrite H1, H2, H3, H4. simpl. repeat split.
    eexists. now rewrite <- app_assoc.
Qed.

(** The locked block: what it returns and what it leaves behind. *)
Lemma drain_spec (w : world) :
  fst (drain w) = Window.window (transcription_buffer w)
  /\ transcription_buffer (snd (drain w)) = empty_buffer
  /\ window_counter (snd (drain w)) = window_counter w
  /\ posted (snd (drain w)) = posted w
  /\ exists m, activity_log (snd (drain w)) = activity_log w ++ m.
Proof.
  split; [reflexivity|].
  unfold drain, log_window. simpl.
  destruct (Window.recent _) as [|t l]; simpl.
  - repeat split. eexists. now rewrite <- app_assoc.
  - match goal with
    | |- context [log_turns ?i ?l ?w] =>
        destruct (log_turns_fields l i w) as (H1 & H2 & H3 & m & H4)
    end.
    rewrite H1, H2, H3, H4. simpl. repeat split.
    eexists. now rewrite <- !app_assoc.
Qed.

Lemma response_fields (o : post_outcome) (sv : save_outcome) (ts : string)
      (p : list (string * json)) (w : world) :
  transcription_buffer (response cfg o sv ts p w) = transcription_buffer w
  /\ window_counter (response cfg o sv ts p w) = window_counter w
  /\ posted (response cfg o sv ts p w) = posted w
  /\ exists m, activity_log (response cfg o sv ts p w) = activity_log w ++ m
               /\ (delivery_failed o = true -> existsb is_failure_msg m = true).
Proof.
  unfold response.
  destruct o as [status text|e]; simpl.
  - destruct sv as [|e]; simpl.
    + destruct (status =? 200)%Z eqn:E; simpl; repeat split.
      * eexists. rewrite <- app_assoc. split; [reflexivity|].
        apply Z.eqb_eq in E. subst. discriminate.
      * eexists. rewrite <- !app_assoc. split; [reflexivity|]. reflexivity.
    + repeat split. eexists. rewrite <- app_assoc. split; reflexivity.
  - repeat split. eexists. split; reflexivity.
Qed.

(** One pass of the loop, by cases on the window. *)
Lemma tick_spec (e : tick_env) (w : world) :
  transcription_buffer (tick cfg e w) = empty_buffer
  /\ (exists m, activity_log (tick cfg e w) = activity_log w ++ m
                /\ (window_of_tick e w <> [] ->
                    delivery_failed (outcome e) = true ->
                    existsb is_failure_msg m = true))
  /\ match window_of_tick e w with
     | [] =>
         window_counter (tick cfg e w) = window_counter w
         /\ posted (tick cfg e w) = posted w
     | _ :: _ =>
         window_counter (tick cfg e w) = (window_counter w + 1)%Z
         /\ posted (tick cfg e w)
            = posted w ++ [make_payload cfg (window_counter w + 1)
                                        (window_of_tick e w)]
     end.
Proof.
  unfold tick, window_of_tick.
  set (w1 := log_activity Log_timer_triggered (arrive (arrived e) w)).
  change (transcription_buffer (arrive (arrived e) w))
    with (transcription_buffer w1).
  assert (Hl : activity_log w1 = activity_log w ++ [Log_timer_triggered])
    by reflexivity.
  assert (Hc : window_counter w1 = window_counter w) by reflexivity.
  assert (Hp : posted w1 = posted w) by reflexivity.
  destruct (drain_spec w1) as (D1 & D2 & D3 & D4 & m & D5).
  rewrite Hl in D5. rewrite Hc in D3. rewrite Hp in D4. clear Hl Hc Hp.
  destruct (drain w1) as [recent w2]. cbn [fst snd] in *. subst recent.
  set (win := Window.window (transcription_buffer w1)) in *.
  clearbody win w1. unfold dispatch.
  destruct win as [|t l].
  - rewrite D2, D3, D4, D5. repeat split.
    exists (Log_timer_triggered :: m). split.
    + now rewrite <- app_assoc.
    + intros H; now contradiction H.
  - unfold deliver.
    match goal with
    | |- context [response cfg ?o ?sv ?ts ?p ?w] =>
        destruct (response_fields o sv ts p w) as (R1 & R2 & R3 & m' & R4 & R5)
    end.
    rewrite R1, R2, R3, R4. simpl. rewrite D2, D3, D4, D5.
    repeat split.
    exists (Log_timer_triggered :: m
            ++ Log_sending_request (window_counter w + 1) :: m'). split.
    + rewrite <- !app_assoc. reflexivity.
    + intros _ Hf. simpl. rewrite existsb_app. simpl.
      rewrite (R5 Hf). now rewrite orb_true_r.
Qed.

Lemma numbered_tick (e : tick_env) (w : world) :
  Props.numbered w -> Props.numbered (tick cfg e w).
Proof.
  intros [Hc Hn]. destruct (tick_spec e w) as (_ & _ & H).
  destruct (window_of_tick e w) as [|t l]; destruct H as [H1 H2];
    unfold Props.numbered; rewrite H1, H2.
  - now split.
  - rewrite length_app, map_app, Hn. cbn [List.length map].
    split; [lia|].
    unfold Props.numbers_from_one.
    rewrite Nat.add_1_r, seq_S, map_app. cbn [map]. f_equal.
    unfold window_num_of, make_payload. cbn. do 3 f_equal. lia.
Qed.

Lemma numbered_run (envs : list tick_env) (w : world) :
  Props.numbered w -> Props.numbered (run cfg envs w).
Proof.
  revert w. induction envs as [|e envs IH]; intros w H; [exact H|].
  simpl. apply IH, numbered_tick, H.
Qed.

Lemma counter_tick_le (e : tick_env) (w : world) :
  (window_counter w <= window_counter (tick cfg e w))%Z.
Proof.
  destruct (tick_spec e w) as (_ & _ & H).
  destruct (window_of_tick e w); destruct H as [H _]; lia.
Qed.

Lemma counter_run_le (envs : list tick_env) (w : world) :
  (window_counter w <= window_counter (run cfg envs w))%Z.
Proof.
  revert w. induction envs as [|e envs IH]; intros w; simpl; [lia|].
  pose proof (counter_tick_le e w). specialize (IH (tick cfg e w)). lia.
Qed.

End SenderFacts.

Lemma skipn_length_app {A : Type} (a m : list A) :
  skipn (List.length a) (a ++ m) = m.
Proof. induction a; simpl; auto. Qed.

(** C4.  The counter starts at 0 and each pass of the sender loop adds 1 to
    it exactly when the window of that pass is not empty, which is also
    exactly when a request is made; so the requests carry the numbers
    1, 2, 3, ... in order, the first one the number 1, and the counter never
    goes down.  A pass with an empty window makes no request and leaves the
    counter as it is. *)
Theorem window_counter_numbers_the_windows
        (cfg : config) (envs more : list Sender.tick_env)
        (e : Sender.tick_env) (w0 : Sender.world) :
  let w := Sender.send_api_requests_periodically cfg envs in
  Sender.window_counter Sender.initial = 0%Z
  /\ map Sender.window_num_of (Sender.posted w)
     = Props.numbers_from_one (List.length (Sender.posted w))
  /\ Sender.window_counter w = Z.of_nat (List.length (Sender.posted w))
  /\ (Sender.window_counter w
      <= Sender.window_counter (Sender.run cfg more w))%Z
  /\ match Sender.window_of_tick e w0 with
     | [] =>
         Sender.window_counter (Sender.tick cfg e w0)
         = Sender.window_counter w0
         /\ Sender.posted (Sender.tick cfg e w0) = Sender.posted w0
     | _ :: _ =>
         Sender.window_counter (Sender.tick cfg e w0)
         = (Sender.window_counter w0 + 1)%Z
         /\ Sender.posted (Sender.tick cfg e w0)
            = Sender.posted w0
              ++ [Sender.make_payload cfg (Sender.window_counter w0 + 1)
                                      (Sender.window_of_tick e w0)]
     end.
Proof.
  intros w.
  assert (H : Props.numbered w).
  { unfold w, Sender.send_api_requests_periodically.
    apply (numbered_run cfg envs). split; reflexivity. }
  destruct H as [Hc Hn].
  repeat split; try assumption.
  - apply counter_run_le.
  - apply tick_spec.
Qed.

(** Four passes: nothing arrives, five entries arrive, nothing arrives,
    five entries arrive and the request fails.  Two requests are made,
    numbered 1 and 2, and the counter ends at 2. *)
Example window_counter_four_passes :
  let w := Sender.send_api_requests_periodically
             Examples.cfg
             [Examples.idle_tick; Examples.good_tick; Examples.idle_tick;
              Examples.failing_tick] in
  map Sender.window_num_of (Sender.posted w)
  = [Some (JInt 1); Some (JInt 2)]
  /\ Sender.window_counter w = 2%Z.
Proof. split; reflexivity. Qed.

(** C6.  When the window of a pass is not empty and the request raises or
    is answered with a status outside 200-299, the pass logs a failure,
    has made the one request and no other, leaves the buffer empty, so the
    entries of the window are not kept for a later pass, and leaves the
    counter one higher than before; later passes never lower it, the next
    non-empty window gets the next number, and the loop goes on with the
    next pass.  In the running system the sender thread that receives such
    an outcome at line 365 goes back to the sleep of line 302 without
    touching the buffer. *)
Theorem failed_delivery_is_logged_and_dropped
        (cfg : config) (e : Sender.tick_env) (w0 : Sender.world)
        (more : list Sender.tick_env) :
  Sender.window_of_tick e w0 <> [] ->
  Sender.delivery_failed (Sender.outcome e) = true ->
  let w1 := Sender.tick cfg e w0 in
  existsb is_failure_msg (Props.logged_by cfg e w0) = true
  /\ Sender.posted w1
     = Sender.posted w0
       ++ [Sender.make_payload cfg (Sender.window_counter w0 + 1)
                               (Sender.window_of_tick e w0)]
  /\ Sender.transcription_buffer w1 = empty_buffer
  /\ Sender.window_counter w1 = (Sender.window_counter w0 + 1)%Z
  /\ (Sender.window_counter w1
      <= Sender.window_counter (Sender.run cfg more w1))%Z
  /\ (forall e2,
         match Sender.window_of_tick e2 w1 with
         | [] => Sender.window_counter (Sender.tick cfg e2 w1)
                 = (Sender.window_counter w0 + 1)%Z
         | _ :: _ => Sender.window_counter (Sender.tick cfg e2 w1)
                     = (Sender.window_counter w0 + 2)%Z
         end)
  /\ Sender.run cfg (e :: more) w0 = Sender.run cfg more w1
  /\ (forall s p sv now,
         System.pc (System.sender s) = System.D_post p ->
         exists s',
           System.sender_step cfg (Sender.outcome e) sv now s = Some s'
           /\ System.pc (System.sender s') = System.D_sleep
           /\ System.buffer_of s' = System.buffer_of s
           /\ Sender.window_counter (System.globals s')
              = Sender.window_counter (System.globals s)
           /\ Sender.posted (System.globals s')
              = Sender.posted (System.globals s)).
Proof.
  intros Hw Hf w1.
  destruct (tick_spec cfg e w0) as (Hb & (m & Hl & Hm) & H).
  assert (Hc : Sender.window_counter w1 = (Sender.window_counter w0 + 1)%Z
               /\ Sender.posted w1
                  = Sender.posted w0
                    ++ [Sender.make_payload cfg (Sender.window_counter w0 + 1)
                                            (Sender.window_of_tick e w0)]).
  { destruct (Sender.window_of_tick e w0); [now contradiction Hw|].
    destruct H; now split. }
  destruct Hc as [Hc Hp].
  repeat split; try assumption.
  - unfold Props.logged_by. rewrite Hl, skipn_length_app. now apply Hm.
  - apply counter_run_le.
  - intros e2. destruct (tick_spec cfg e2 w1) as (_ & _ & H2).
    destruct (Sender.window_of_tick e2 w1); destruct H2 as [H2 _];
      rewrite H2; fold w1; lia.
  - intros s p sv now Hpc. unfold System.sender_step. rewrite Hpc.
    eexists. split; [reflexivity|].
    destruct (response_fields cfg (Sender.outcome e) sv now p
                              (System.globals s)) as (R1 & R2 & R3 & _).
    repeat split; assumption.
Qed.

(** A status 503 and a raising request, each on the five entries of the
    example: the failure is logged, one request is made, the buffer is
    empty and the counter is 1. *)
Lemma failed_delivery_witness :
  (existsb is_failure_msg
     (Props.logged_by Examples.cfg Examples.failing_tick Sender.initial)
   = true
   /\ Sender.transcription_buffer
        (Sender.tick Examples.cfg Examples.failing_tick Sender.initial)
      = empty_buffer
   /\ Sender.window_counter
        (Sender.tick Examples.cfg Examples.failing_tick Sender.initial)
      = 1%Z)
  /\ (existsb is_failure_msg
        (Props.logged_by Examples.cfg Examples.raising_tick Sender.initial)
      = true).
Proof.
  split.
  - destruct (failed_delivery_is_logged_and_dropped
                Examples.cfg Examples.failing_tick Sender.initial [])
      as (H1 & _ & H3 & H4 & _).
    + vm_compute. discriminate.
    + reflexivity.
    + repeat split; assumption.
  - destruct (failed_delivery_is_logged_and_dropped
                Examples.cfg Examples.raising_tick Sender.initial [])
      as (H1 & _).
    + vm_compute. discriminate.
    + reflexivity.
    + exact H1.
Defined.




(** ** Tactics for the case analyses on the moves of the system *)

(** Case analysis on every [match] of a hypothesis. *)
Ltac break_match_in H :=
  repeat match type of H with
         | context [match ?x with _ => _ end] =>
             destruct x eqn:?; try discriminate H
         end.

(** The definition of one move of the system. *)
Ltac open_step H :=
  unfold System.sender_step, System.handler_step, System.writer_step,
    System.supervisor_step, System.resume_writer, System.resume_supervisor,
    System.log_progress, System.log_outcome in H;
  cbn in H.

(** Case analysis on every channel of the context. *)
Ltac split_channels :=
  repeat match goal with c : channel |- _ => destruct c end.

(** Case analysis on a list of gate events along the shapes of a
    session. *)
Ltac shape_cases g H :=
  destruct g as [|[] [|[] [|[] [|? ?]]]]; cbn in H; try discriminate H.

(** ** The running system: reachable states *)

Section Reachability.

Import System Where.

Variable cfg : config.

Lemma exec_app (l1 l2 : list label) (s : state) :
  exec cfg (l1 ++ l2) s
  = match exec cfg l1 s with
    | Some s' => exec cfg l2 s'
    | None => None
    end.
Proof.
  revert s. induction l1 as [|l l1 IH]; intros s; cbn [exec app];
    [reflexivity|].
  destruct (step cfg l s); [apply IH|reflexivity].
Qed.

Lemma reachable_initial : reachable cfg initial.
Proof. now exists []. Qed.

Lemma reachable_step (l : label) (s s' : state) :
  reachable cfg s -> step cfg l s = Some s' -> reachable cfg s'.
Proof.
  intros [sched H] Hs. exists (sched ++ [l]).
  rewrite exec_app, H. cbn [exec]. now rewrite Hs.
Qed.

Lemma reachable_exec (sched : list label) (s s' : state) :
  reachable cfg s -> exec cfg sched s = Some s' -> reachable cfg s'.
Proof.
  intros [sched0 H] Hs. exists (sched0 ++ sched).
  now rewrite exec_app, H.
Qed.

(** A property that holds initially and that every move preserves holds in
    every reachable state. *)
Lemma reachable_ind (P : state -> Prop) :
  P initial ->
  (forall l s s', reachable cfg s -> P s -> step cfg l s = Some s' -> P s') ->
  forall s, reachable cfg s -> P s.
Proof.
  intros H0 Hstep s [sched H].
  assert (G : forall sched s0 s,
             reachable cfg s0 -> P s0 -> exec cfg sched s0 = Some s -> P s).
  { clear sched s H. induction sched as [|l sched IH]; intros s0 s Hr Hp He.
    - cbn [exec] in He. now inversion He; subst.
    - cbn [exec] in He.
      destruct (step cfg l s0) as [s1|] eqn:E; [|discriminate].
      apply (IH s1 s); [eapply reachable_step; eauto|eauto|exact He]. }
  apply (G sched initial s); auto using reachable_initial.
Qed.

End Reachability.

(** ** The lock and the event loop *)

Section LockAndLoop.

Import System Where.

Variable cfg : config.

Lemma lock_loop_initial : lock_ok initial /\ loop_ok initial.
Proof. repeat split. Qed.

Lemma lock_loop_step (l : label) (s s' : state) :
  lock_ok s /\ loop_ok s -> step cfg l s = Some s' ->
  lock_ok s' /\ loop_ok s'.
Proof.
  intros [(A1 & A2 & A3 & A4 & A5 & A6) (B1 & B2 & B3 & B4 & B5)] H.
  destruct s as [g lk rr sr [dpc al rc cm cs] [[hm em] [hs es]]
                   [[wm fm nm] [ws fs ns]] sp run hist].
  unfold lock_ok, loop_ok, in_locked_block, suspended, holds_lock, is_running,
    handler_at, writer_at in *.
  cbn in A1, A2, A3, A4, A5, A6, B1, B2, B3, B4, B5.
  destruct l; cbn in H; split_channels.
  all: open_step H.
  all: break_match_in H; split_channels.
  all: inversion H; subst; clear H.
  all: cbn in *; subst; cbn in *.
  all: repeat split; try assumption; try reflexivity; try congruence.
  all: try (destruct lk as [[|[[|]|[|]|]]|]; cbn in *;
            solve [discriminate | assumption | reflexivity | congruence]).
  all: try (destruct run as [[[|]|[|]|]|]; cbn in *;
            solve [discriminate | assumption | reflexivity | congruence]).
  all: destruct hm; try discriminate; destruct hs; try discriminate;
    cbn in *; congruence.
Qed.

Lemma lock_loop_reachable (s : state) :
  reachable cfg s -> lock_ok s /\ loop_ok s.
Proof.
  revert s.
  apply (reachable_ind (cfg := cfg) (fun s => lock_ok s /\ loop_ok s)).
  - apply lock_loop_initial.
  - intros l s0 s1 _. apply lock_loop_step.
Qed.

Lemma past_gate_step (l : label) (s s' : state) :
  past_gate s = true -> step cfg l s = Some s' -> past_gate s' = true.
Proof.
  intros P H.
  destruct s as [g lk rr sr [dpc al rc cm cs] [[hm em] [hs es]]
                   [[wm fm nm] [ws fs ns]] sp run hist].
  unfold past_gate in *. cbn in P.
  destruct l; cbn in H; split_channels.
  all: open_step H.
  all: break_match_in H; split_channels.
  all: inversion H; subst; clear H.
  all: cbn in *; subst; try discriminate; try assumption; reflexivity.
Qed.

Lemma past_gate_exec (sched : list label) (s s' : state) :
  past_gate s = true -> exec cfg sched s = Some s' -> past_gate s' = true.
Proof.
  revert s. induction sched as [|l sched IH]; intros s P H; cbn [exec] in H.
  - now inversion H; subst.
  - destruct (step cfg l s) as [s1|] eqn:E; [|discriminate].
    eapply IH; [eapply past_gate_step; eauto|exact H].
Qed.

End LockAndLoop.

Lemma activity_eqb_eq (a a' : System.activity) :
  Where.activity_eqb a a' = true -> a = a'.
Proof.
  destruct a as [|[[|]|[|]|]], a' as [|[[|]|[|]|]];
    cbn; intros H; try discriminate; reflexivity.
Qed.

Lemma coroutine_eqb_eq (k k' : System.coroutine) :
  Where.coroutine_eqb k k' = true -> k = k'.
Proof.
  destruct k as [[|]|[|]|], k' as [[|]|[|]|];
    cbn; intros H; try discriminate; reflexivity.
Qed.

Lemma holds_lock_eq (a : System.activity) (s : System.state) :
  Where.holds_lock a s = true -> System.transcription_lock s = Some a.
Proof.
  unfold Where.holds_lock. destruct (System.transcription_lock s) as [a'|];
    [|discriminate].
  intros H. apply activity_eqb_eq in H. now subst.
Qed.

Lemma is_running_eq (k : System.coroutine) (s : System.state) :
  Where.is_running k s = true -> System.running s = Some k.
Proof.
  unfold Where.is_running. destruct (System.running s) as [k'|];
    [|discriminate].
  intros H. apply coroutine_eqb_eq in H. now subst.
Qed.




(** C10.  The sender starts at the wait of line 298, where it proceeds only
    if the event is set.  Once it has left the wait it never comes back to
    it, whatever the system does afterwards, a new session and its reset of
    the event and of the flags included.  From then on none of its moves
    reads the event or the flags: it makes the same move whatever their
    values, and the only place where it can be held up is the lock of line
    308. *)
Theorem sender_waits_for_the_event_only_once
        (cfg : config) (sched more : list System.label)
        (s s' : System.state) :
  System.exec cfg sched System.initial = Some s ->
  System.exec cfg more s = Some s' ->
  Where.past_gate System.initial = false
  /\ (forall o sv now,
         System.pc (System.sender s) = System.D_wait ->
         System.sender_step cfg o sv now s
         = if System.recording_ready s
           then Some (System.goto System.D_sleep
                        (System.log Log_recording_ready s))
           else None)
  /\ (Where.past_gate s = true -> Where.past_gate s' = true)
  /\ (Where.past_gate s = true ->
      forall o sv now b r,
        System.sender_step cfg o sv now
          (System.with_streams_ready r (System.with_recording_ready b s))
        = option_map
            (fun t => System.with_streams_ready r
                        (System.with_recording_ready b t))
            (System.sender_step cfg o sv now s))
  /\ (Where.past_gate s = true ->
      forall o sv now,
        System.sender_step cfg o sv now s = None ->
        System.pc (System.sender s) = System.D_lock
        /\ System.transcription_lock s <> None).
Proof.
  intros H H'. split; [reflexivity|]. split; [|split; [|split]].
  - intros o sv now Hpc. unfold System.sender_step. now rewrite Hpc.
  - intros P. eapply past_gate_exec; eauto.
  - intros P o sv now b r. clear H H'.
    destruct s as [g lk rr sr [dpc al rc cm cs] hh ww sp run hist].
    unfold Where.past_gate in P. cbn in P.
    destruct dpc; try discriminate; cbn; try reflexivity.
    + destruct lk; reflexivity.
    + destruct rc; reflexivity.
  - intros P o sv now Hn. clear H H'.
    destruct s as [g lk rr sr [dpc al rc cm cs] hh ww sp run hist].
    unfold Where.past_gate in P. cbn in P.
    destruct dpc; try discriminate; cbn in Hn; try discriminate.
    + destruct lk; [|discriminate]. split; [reflexivity|discriminate].
    + destruct rc; discriminate.
Qed.

(** The event is set and the sender passes the wait; a new session then
    clears the event, and the sender still makes its pass: it is back at
    the sleep of line 302 while the event is not set. *)
Lemma sender_passes_after_reset_witness :
  exists s s',
    System.exec Examples.cfg Examples.gate_opens System.initial = Some s
    /\ System.exec Examples.cfg Examples.new_session_and_pass s = Some s'
    /\ System.recording_ready s = true
    /\ System.recording_ready s' = false
    /\ System.pc (System.sender s') = System.D_sleep
    /\ Where.past_gate s' = true.
Proof.
  eexists. eexists.
  split; [vm_compute; reflexivity|].
  split; [vm_compute; reflexivity|].
  split; [reflexivity|]. split; [reflexivity|]. split; [reflexivity|].
  eapply (sender_waits_for_the_event_only_once
            Examples.cfg Examples.gate_opens Examples.new_session_and_pass);
    [vm_compute; reflexivity|vm_compute; reflexivity|reflexivity].
Defined.

(** ** The history and the buffer *)

Section HistoryFacts.

Import System Hist.

Lemma cut_snoc (stop : hevent -> bool) (h : list hevent) (e : hevent) :
  cut stop (h ++ [e]) = cut_step stop (cut stop h) e.
Proof. unfold cut. now rewrite fold_left_app. Qed.

Lemma appended_snoc (c : channel) (l : list hevent) (e : hevent) :
  appended c (l ++ [e]) = appended c l ++ appended c [e].
Proof. unfold appended. now rewrite flat_map_app. Qed.

Lemma pending_drain (h : list hevent) :
  pending (h ++ [Ev_drain]) = empty_buffer.
Proof. unfold pending. now rewrite cut_snoc. Qed.

Lemma taken_drain (h : list hevent) : taken (h ++ [Ev_drain]) = pending h.
Proof.
  unfold taken, pending. rewrite cut_snoc. cbn.
  now rewrite last_last.
Qed.

Lemma pending_append (h : list hevent) (c : channel) (x : entry) :
  pending (h ++ [Ev_append c x]) = buf_append c x (pending h).
Proof.
  unfold pending. rewrite cut_snoc. cbn. unfold appended_buffer.
  rewrite !appended_snoc. destruct c; cbn; now rewrite app_nil_r.
Qed.

Lemma pending_other (h : list hevent) (e : hevent) :
  is_drain e = false -> appended mic [e] = [] -> appended system [e] = [] ->
  pending (h ++ [e]) = pending h.
Proof.
  intros Hd Hm Hs. unfold pending. rewrite cut_snoc. unfold cut_step.
  rewrite Hd. cbn [snd]. unfold appended_buffer.
  now rewrite !appended_snoc, Hm, Hs, !app_nil_r.
Qed.

Lemma taken_other (h : list hevent) (e : hevent) :
  is_drain e = false -> taken (h ++ [e]) = taken h.
Proof.
  intros Hd. unfold taken. rewrite cut_snoc. unfold cut_step.
  now rewrite Hd.
Qed.

Lemma pending_session (h : list hevent) :
  pending (h ++ [Ev_session]) = pending h.
Proof. now apply pending_other. Qed.

Lemma pending_first_chunk (h : list hevent) (c : channel) :
  pending (h ++ [Ev_first_chunk c]) = pending h.
Proof. now apply pending_other. Qed.

Lemma pending_fire (h : list hevent) : pending (h ++ [Ev_fire]) = pending h.
Proof. now apply pending_other. Qed.

Lemma taken_append (h : list hevent) (c : channel) (x : entry) :
  taken (h ++ [Ev_append c x]) = taken h.
Proof. now apply taken_other. Qed.

Lemma taken_session (h : list hevent) :
  taken (h ++ [Ev_session]) = taken h.
Proof. now apply taken_other. Qed.

Lemma taken_first_chunk (h : list hevent) (c : channel) :
  taken (h ++ [Ev_first_chunk c]) = taken h.
Proof. now apply taken_other. Qed.

Lemma taken_fire (h : list hevent) : taken (h ++ [Ev_fire]) = taken h.
Proof. now apply taken_other. Qed.

End HistoryFacts.

Ltac hist_simpl :=
  rewrite ?pending_drain, ?taken_drain, ?pending_append, ?pending_session,
    ?pending_first_chunk, ?pending_fire, ?taken_append, ?taken_session,
    ?taken_first_chunk, ?taken_fire.

Section BufferInvariant.

Import System Where.

Variable cfg : config.

Lemma expected_unlocked (p : sender_pc) (t q : buffer) :
  d_locked p = false -> expected_buffer p t q = q.
Proof. destruct p; cbn; intros H; try discriminate; reflexivity. Qed.

Lemma log_window_buffer (r : list turn) (a b : nat) (w : Sender.world) :
  Sender.transcription_buffer (Sender.log_window r a b w)
  = Sender.transcription_buffer w.
Proof.
  unfold Sender.log_window. destruct r as [|t r]; [reflexivity|].
  match goal with
  | |- context [Sender.log_turns ?i ?l ?w] =>
      destruct (log_turns_fields l i w) as (H & _)
  end.
  now rewrite H.
Qed.

Lemma response_buffer (o : Sender.post_outcome) (sv : Sender.save_outcome)
      (ts : string) (p : list (string * json)) (w : Sender.world) :
  Sender.transcription_buffer (Sender.response cfg o sv ts p w)
  = Sender.transcription_buffer w.
Proof. apply response_fields. Qed.

Lemma buffer_ok_initial : buffer_ok initial.
Proof. repeat split. Qed.

#[local] Arguments Hist.pending : simpl never.
#[local] Arguments Hist.taken : simpl never.
#[local] Arguments Window.sort_by_timestamp : simpl never.
#[local] Arguments Window.window : simpl never.
#[local] Arguments Window.recent : simpl never.
#[local] Arguments Window.combine : simpl never.

Lemma buffer_ok_step (l : label) (s s' : state) :
  lock_ok s -> buffer_ok s -> step cfg l s = Some s' -> buffer_ok s'.
Proof.
  intros (A1 & A2 & A3 & _) (I1 & I2 & I3 & I4) H.
  destruct s as [[b wc lg po sa pr] lk rr sr [dpc al rc cm cs]
                   [[hm em] [hs es]] [[wm fm nm] [ws fs ns]] sp run hist].
  unfold buffer_ok, buffer_of, in_locked_block, holds_lock, handler_at in *.
  cbn in A1, A2, A3, I1, I2, I3, I4.
  destruct l; cbn in H; split_channels.
  all: open_step H.
  all: break_match_in H; split_channels.
  all: inversion H; subst; clear H.
  all: cbn in *; subst; cbn in *.
  all: hist_simpl.
  all: try solve [repeat split; assumption].
  - rewrite log_window_buffer. repeat split; assumption.
  - rewrite I2 by reflexivity.
    repeat split; try assumption; try discriminate; congruence.
  - rewrite response_buffer. repeat split; assumption.
  - assert (Hd : d_locked dpc = false)
      by (destruct lk as [[|[[|]|[|]|]]|]; cbn in *; congruence).
    rewrite !expected_unlocked in * by assumption.
    repeat split; try assumption; try reflexivity; congruence.
  - assert (Hd : d_locked dpc = false)
      by (destruct lk as [[|[[|]|[|]|]]|]; cbn in *; congruence).
    rewrite !expected_unlocked in * by assumption.
    repeat split; try assumption; try reflexivity; congruence.
Qed.

Lemma buffer_ok_reachable (s : state) : reachable cfg s -> buffer_ok s.
Proof.
  intros R. revert s R.
  apply (reachable_ind (cfg := cfg) buffer_ok).
  - apply buffer_ok_initial.
  - intros l s0 s1 R. apply buffer_ok_step.
    now apply lock_loop_reachable in R.
Qed.

End BufferInvariant.


Section Conservation.

Import System Hist.

Lemma cut_concat (stop : hevent -> bool) (h : list hevent) :
  List.concat (fst (cut stop h)) ++ snd (cut stop h)
  = filter (fun e => negb (stop e)) h.
Proof.
  induction h as [|e h IH] using rev_ind; [reflexivity|].
  rewrite cut_snoc, filter_app. unfold cut_step. cbn [filter].
  destruct (stop e); cbn [negb fst snd].
  - rewrite concat_app. cbn. rewrite !app_nil_r. exact IH.
  - rewrite app_assoc. now rewrite IH.
Qed.

Lemma appended_not_drain (c : channel) (h : list hevent) :
  appended c (filter (fun e => negb (is_drain e)) h) = appended c h.
Proof.
  induction h as [|e h IH]; [reflexivity|].
  unfold appended in *. destruct e; cbn; rewrite ?IH; reflexivity.
Qed.

Lemma appended_concat (c : channel) (l : list (list hevent)) :
  appended c (List.concat l) = flat_map (appended c) l.
Proof.
  induction l as [|x l IH]; [reflexivity|].
  cbn. unfold appended in *. now rewrite flat_map_app, IH.
Qed.

(** Every appended entry lies in exactly one piece of the history cut at
    the moments the sender took the lock. *)
Lemma appended_pieces (c : channel) (h : list hevent) :
  appended c h
  = flat_map (appended c) (fst (cut is_drain h))
    ++ appended c (snd (cut is_drain h)).
Proof.
  rewrite <- appended_not_drain, <- cut_concat, <- appended_concat.
  unfold appended. now rewrite flat_map_app.
Qed.

End Conservation.

(** C1.  In every reachable state, whatever the interleaving of the two
    handlers and the sender: outside the locked block of the sender the
    buffer holds exactly the entries appended since the sender last took the
    lock, each once and in the order of the appends; while the sender is in
    its locked block no handler is in its own and nothing is appended; after
    the two loops of the block, [all_transcriptions] is the mic entries
    appended before the sender took the lock (and after it took it the time
    before), in order, followed by the system entries, in order; at the end
    of the block both lists of the buffer are empty and
    [all_transcriptions] is the sorted merge of exactly those entries.
    Every entry ever appended belongs to exactly one pass or is still
    pending. *)
Theorem drain_takes_what_was_appended_before_it
        (cfg : config) (sched : list System.label) (s : System.state) :
  System.exec cfg sched System.initial = Some s ->
  let h := System.history s in
  let d := System.sender s in
  (Where.in_locked_block System.Sender_thread s = false ->
   System.buffer_of s = Hist.pending h)
  /\ (Where.in_locked_block System.Sender_thread s = true ->
      Hist.pending h = empty_buffer
      /\ forall c,
          Where.in_locked_block (System.Loop (System.Handler c)) s = false)
  /\ (System.pc d = System.D_sort ->
      System.all_transcriptions d
      = map (Window.to_turn mic) (buf_mic (Hist.taken h))
        ++ map (Window.to_turn system) (buf_system (Hist.taken h)))
  /\ (System.pc d = System.D_unlock ->
      System.buffer_of s = empty_buffer
      /\ System.all_transcriptions d
         = Window.sort_by_timestamp (Window.combine (Hist.taken h))
      /\ System.recent_transcriptions d = Window.window (Hist.taken h))
  /\ (forall c,
         Hist.appended c h
         = flat_map (Hist.appended c) (fst (Hist.cut Hist.is_drain h))
           ++ Hist.appended c (snd (Hist.cut Hist.is_drain h))).
Proof.
  intros H h d.
  assert (R : Where.reachable cfg s) by now exists sched.
  destruct (lock_loop_reachable R) as [(A1 & A2 & A3 & _) _].
  destruct (buffer_ok_reachable R) as (I1 & I2 & I3 & I4).
  fold h d in I1, I2, I3, I4.
  unfold Where.in_locked_block in *.
  split; [|split; [|split; [|split]]].
  - intros L. rewrite I1. now apply expected_unlocked.
  - intros L. split; [now apply I2|].
    intros [|]; [rewrite A2|rewrite A3];
      rewrite L in A1; unfold Where.holds_lock in *;
      destruct (System.transcription_lock s) as [[|[[|]|[|]|]]|];
      cbn in *; congruence.
  - intros P. rewrite P in I3. exact I3.
  - intros P. rewrite P in I1, I3, I4. now repeat split.
  - intros c. apply appended_pieces.
Qed.

(** An entry appended before the sender takes the lock is in the window of
    that pass; an entry whose handler asks for the lock while the sender
    holds it is appended after the release and stays in the buffer. *)
Lemma drain_witness :
  exists s,
    System.exec Examples.cfg Examples.append_drain_append System.initial
    = Some s
    /\ System.buffer_of s = Hist.pending (System.history s)
    /\ System.buffer_of s
       = Buffer [] [Entry "2024-01-01T12:00:00.000001Z" "hello"]
    /\ System.recent_transcriptions (System.sender s)
       = [Turn agent "hello" "2024-01-01T12:00:00.000001Z"].
Proof.
  eexists. split; [vm_compute; reflexivity|].
  split; [|split; reflexivity].
  eapply (drain_takes_what_was_appended_before_it
            Examples.cfg Examples.append_drain_append);
    [vm_compute; reflexivity|reflexivity].
Defined.

(** ** The history and the readiness state *)

Section GateHistory.

Import System Hist.

Lemma gate_events_snoc (l : list hevent) (e : hevent) :
  gate_events (l ++ [e]) = gate_events l ++ (if is_gate e then [e] else []).
Proof. unfold gate_events. rewrite filter_app. cbn. now destruct (is_gate e). Qed.

Lemma current_session_snoc (h : list hevent) (e : hevent) :
  current_session (h ++ [e])
  = if is_session e then [] else current_session h ++ [e].
Proof.
  unfold current_session. rewrite cut_snoc. unfold cut_step.
  now destruct (is_session e).
Qed.

Lemma past_sessions_snoc (h : list hevent) (e : hevent) :
  past_sessions (h ++ [e])
  = if is_session e then past_sessions h ++ [current_session h]
    else past_sessions h.
Proof.
  unfold past_sessions, current_session. rewrite cut_snoc. unfold cut_step.
  now destruct (is_session e).
Qed.

Lemma gev_append (h : list hevent) (c : channel) (x : entry) :
  gate_events (current_session (h ++ [Ev_append c x]))
  = gate_events (current_session h).
Proof.
  rewrite current_session_snoc. cbn [is_session].
  rewrite gate_events_snoc. cbn. apply app_nil_r.
Qed.

Lemma gev_drain (h : list hevent) :
  gate_events (current_session (h ++ [Ev_drain]))
  = gate_events (current_session h).
Proof.
  rewrite current_session_snoc. cbn [is_session].
  rewrite gate_events_snoc. cbn. apply app_nil_r.
Qed.

Lemma gev_session (h : list hevent) :
  gate_events (current_session (h ++ [Ev_session])) = [].
Proof. now rewrite current_session_snoc. Qed.

Lemma gev_first_chunk (h : list hevent) (c : channel) :
  gate_events (current_session (h ++ [Ev_first_chunk c]))
  = gate_events (current_session h) ++ [Ev_first_chunk c].
Proof.
  rewrite current_session_snoc. cbn [is_session].
  now rewrite gate_events_snoc.
Qed.

Lemma gev_fire (h : list hevent) :
  gate_events (current_session (h ++ [Ev_fire]))
  = gate_events (current_session h) ++ [Ev_fire].
Proof.
  rewrite current_session_snoc. cbn [is_session].
  now rewrite gate_events_snoc.
Qed.

Lemma past_append (h : list hevent) (c : channel) (x : entry) :
  past_sessions (h ++ [Ev_append c x]) = past_sessions h.
Proof. now rewrite past_sessions_snoc. Qed.

Lemma past_drain (h : list hevent) :
  past_sessions (h ++ [Ev_drain]) = past_sessions h.
Proof. now rewrite past_sessions_snoc. Qed.

Lemma past_first_chunk (h : list hevent) (c : channel) :
  past_sessions (h ++ [Ev_first_chunk c]) = past_sessions h.
Proof. now rewrite past_sessions_snoc. Qed.

Lemma past_fire (h : list hevent) :
  past_sessions (h ++ [Ev_fire]) = past_sessions h.
Proof. now rewrite past_sessions_snoc. Qed.

Lemma past_session (h : list hevent) :
  past_sessions (h ++ [Ev_session]) = past_sessions h ++ [current_session h].
Proof. now rewrite past_sessions_snoc. Qed.

Lemma observed_snoc (c : channel) (g : list hevent) (e : hevent) :
  observed c (g ++ [e]) = observed c g || is_first_chunk c e.
Proof. unfold observed. rewrite existsb_app. cbn. now rewrite orb_false_r. Qed.

Lemma fired_snoc (g : list hevent) (e : hevent) :
  fired (g ++ [e]) = fired g || is_fire e.
Proof. unfold fired. rewrite existsb_app. cbn. now rewrite orb_false_r. Qed.

Lemma shape_first_chunk (c : channel) (g : list hevent) :
  session_shape g = true -> observed c g = false ->
  session_shape (g ++ [Ev_first_chunk c]) = true.
Proof.
  intros H O. shape_cases g H;
    repeat match goal with c : channel |- _ => destruct c end;
    cbn in *; congruence.
Qed.

Lemma shape_fire (g : list hevent) :
  session_shape g = true -> observed mic g = true ->
  observed system g = true -> fired g = false ->
  session_shape (g ++ [Ev_fire]) = true.
Proof.
  intros H M S F. shape_cases g H;
    repeat match goal with c : channel |- _ => destruct c end;
    cbn in *; congruence.
Qed.

End GateHistory.

Ltac gate_simpl :=
  rewrite ?gev_append, ?gev_drain, ?gev_session, ?gev_first_chunk, ?gev_fire,
    ?past_append, ?past_drain, ?past_first_chunk, ?past_fire, ?past_session.

Section GateInvariant.

Import System Where.

Variable cfg : config.

Ltac prep :=
  repeat match goal with
         | H : true = true -> _ |- _ => specialize (H eq_refl)
         | H : ?a <> ?b -> _ |- _ =>
             first [ let N := fresh in
                     assert (N : a <> b) by discriminate;
                     specialize (H N); clear N
                   | clear H ]
         | H : _ /\ _ |- _ => destruct H
         | H : false = true |- _ => discriminate H
         | H : true = false |- _ => discriminate H
         end.

Ltac close :=
  repeat (first [ assumption | reflexivity | discriminate | split | intro
                | congruence
                | (apply shape_first_chunk; assumption)
                | (apply shape_fire; assumption) ]).

Lemma gate_ok_initial : gate_ok initial.
Proof.
  unfold gate_ok, flags_ok, writer_ok, writers_in_session. cbn.
  repeat split; auto; try discriminate.
Qed.

#[local] Arguments Hist.gate_events : simpl never.
#[local] Arguments Hist.current_session : simpl never.
#[local] Arguments Hist.past_sessions : simpl never.
#[local] Arguments Hist.session_shape : simpl never.
#[local] Arguments Hist.about_to_fire : simpl never.
#[local] Arguments Hist.observed : simpl never.
#[local] Arguments Hist.fired : simpl never.

Lemma gate_ok_step (l : label) (s s' : state) :
  loop_ok s -> gate_ok s -> step cfg l s = Some s' -> gate_ok s'.
Proof.
  intros (B1 & B2 & B3 & B4 & B5)
         (G1 & G2 & G3 & G4 & G5 & G6 & G7 & G8) H.
  destruct s as [gl lk rr [srm srs] [dpc al rc cm cs]
                   [[hm em] [hs es]] [[wm fm nm] [ws fs ns]] sp run hist].
  unfold gate_ok, flags_ok, writer_ok, writers_in_session, mid_block, gate,
    suspended, is_running, handler_at, writer_at in *.
  cbn in B1, B2, B3, B4, B5, G1, G2, G3, G4, G5, G6, G7, G8.
  destruct l; cbn in H; split_channels.
  all: open_step H.
  all: break_match_in H; split_channels.
  all: inversion H; subst; clear H.
  all: cbn in *; subst; cbn in *.
  all: gate_simpl.
  all: try solve [repeat (first [assumption | reflexivity | split])].
  all: remember (Hist.gate_events (Hist.current_session hist)) as g eqn:Eg.
  all: unfold Hist.about_to_fire in *;
    rewrite ?observed_snoc, ?fired_snoc in *; cbn in *.
  all: try (destruct sp; try discriminate; cbn in *).
  all: prep.
  all: try solve [close].
  all: rewrite ?orb_false_r, ?orb_true_r in *.
  all: repeat match goal with
              | w : writer_pc |- _ => destruct w; try discriminate
              end; cbn in *; prep; try solve [close].
  all: destruct (Hist.observed mic g) eqn:?;
    destruct (Hist.observed system g) eqn:?;
    destruct (Hist.fired g) eqn:?; cbn in *; prep;
    revert Eg; subst; cbn in *; prep; intro Eg; try solve [close].
  all: repeat (split; [solve [close]|]).
  all: apply Forall_app; split; [assumption|].
  all: constructor; [|constructor].
  all: rewrite <- Eg; unfold complete, Hist.about_to_fire.
  all: repeat match goal with
              | H : Hist.session_shape _ = _ |- _ => rewrite H
              | H : Hist.observed _ _ = _ |- _ => rewrite H
              | H : Hist.fired _ = _ |- _ => rewrite H
              end; reflexivity.
Qed.

Lemma gate_ok_reachable (s : state) : reachable cfg s -> gate_ok s.
Proof.
  intros R. revert s R.
  apply (reachable_ind (cfg := cfg) gate_ok).
  - apply gate_ok_initial.
  - intros l s0 s1 R. apply gate_ok_step.
    now apply lock_loop_reachable in R.
Qed.

End GateInvariant.

Section SessionFacts.

Import System Hist.

Lemma fire_count_gate (l : list hevent) :
  fire_count (gate_events l) = fire_count l.
Proof.
  unfold fire_count, gate_events.
  induction l as [|e l IH]; [reflexivity|].
  destruct e; cbn; rewrite ?IH; reflexivity.
Qed.

Lemma observed_gate (c : channel) (l : list hevent) :
  observed c (gate_events l) = observed c l.
Proof.
  unfold observed, gate_events.
  induction l as [|e l IH]; [reflexivity|].
  destruct e; cbn; rewrite ?IH; reflexivity.
Qed.

Lemma fired_gate (l : list hevent) : fired (gate_events l) = fired l.
Proof.
  unfold fired, gate_events.
  induction l as [|e l IH]; [reflexivity|].
  destruct e; cbn; rewrite ?IH; reflexivity.
Qed.

Lemma fires_after_both_gate (m y : bool) (l : list hevent) :
  fires_after_both m y (gate_events l) = fires_after_both m y l.
Proof.
  unfold gate_events. revert m y.
  induction l as [|e l IH]; intros m y; [reflexivity|].
  destruct e as [c x| | |[|]|]; cbn; rewrite ?IH; reflexivity.
Qed.

(** What the shapes say. *)
Lemma shape_facts (g : list hevent) :
  session_shape g = true ->
  fire_count g <= 1
  /\ fires_after_both false false g = true
  /\ (about_to_fire g = false ->
      observed mic g && observed system g = true -> fire_count g = 1).
Proof.
  intros H. shape_cases g H;
    repeat match goal with c : channel |- _ => destruct c end;
    cbn in *; repeat split; intros; try discriminate; auto.
Qed.

End SessionFacts.

(** C3.  In every session, past or in progress, the gate fires at most
    once, and every firing comes after the first chunk of both channels.
    In a session that is over the gate has fired exactly once if both
    channels had their first chunk; in the session in progress it has
    fired exactly once as soon as both channels have had their first chunk
    and the writer that had the second one has left lines 242-244.  The
    event is set exactly when the gate has fired in the session in
    progress, and outside lines 401-403 each flag tells whether its
    channel has had its first chunk in that session.  When the supervisor
    has executed lines 401-403 the flags are both false, the event is not
    set, and the new session has no first chunk and no firing yet. *)
Theorem readiness_gate_fires_once_per_session
        (cfg : config) (sched : list System.label) (s : System.state) :
  System.exec cfg sched System.initial = Some s ->
  let cur := Hist.current_session (System.history s) in
  let past := Hist.past_sessions (System.history s) in
  Forall (fun l => Hist.fire_count l <= 1
                   /\ Hist.fires_after_both false false l = true)
         (past ++ [cur])
  /\ Forall (fun l => Hist.observed mic l && Hist.observed system l = true ->
                      Hist.fire_count l = 1) past
  /\ (Hist.observed mic cur && Hist.observed system cur = true ->
      Where.mid_block s = false -> Hist.fire_count cur = 1)
  /\ System.recording_ready s = Hist.fired cur
  /\ (Where.s_touches_readiness (System.supervisor s) = false ->
      System.streams_ready s
      = System.PerChannel (Hist.observed mic cur) (Hist.observed system cur))
  /\ (System.supervisor s = System.S_reset_system ->
      forall now s',
        System.step cfg (System.L_run now) s = Some s' ->
        System.supervisor s' = System.S_gather
        /\ System.streams_ready s' = System.PerChannel false false
        /\ System.recording_ready s' = false
        /\ Where.gate s' = []).
Proof.
  intros H cur past.
  assert (R : Where.reachable cfg s) by now exists sched.
  destruct (lock_loop_reachable R) as [_ (_ & _ & _ & _ & B5)].
  destruct (gate_ok_reachable R) as (G1 & G2 & G3 & _ & _ & G6 & _ & G8).
  unfold Where.flags_ok, Where.gate in *.
  fold cur in G1, G2, G3, G6. fold past in G8.
  destruct (shape_facts _ G1) as (F1 & F2 & F3).
  rewrite fire_count_gate in F1, F3. rewrite fires_after_both_gate in F2.
  unfold Hist.about_to_fire in *.
  rewrite !observed_gate, ?fired_gate in *.
  split; [|split; [|split; [|split; [|split]]]].
  - apply Forall_app. split.
    + eapply Forall_impl; [|exact G8]. intros l Hl. cbv beta in Hl.
      unfold Where.complete in Hl. apply andb_true_iff in Hl as [Hl _].
      destruct (shape_facts _ Hl) as (K1 & K2 & _).
      now rewrite fire_count_gate in K1; rewrite fires_after_both_gate in K2.
    + constructor; [split; assumption|constructor].
  - eapply Forall_impl; [|exact G8]. intros l Hl Hb. cbv beta in Hl.
    unfold Where.complete in Hl. apply andb_true_iff in Hl as [Hl Ha].
    destruct (shape_facts _ Hl) as (_ & _ & K3).
    rewrite fire_count_gate in K3. apply K3.
    + now apply negb_true_iff in Ha.
    + now rewrite !observed_gate.
  - intros Hb Hm. apply F3; [|exact Hb].
    destruct (Hist.observed mic cur && Hist.observed system cur
              && negb (Hist.fired cur)) eqn:E; [|reflexivity].
    rewrite (G6 eq_refl) in Hm. discriminate.
  - exact G2.
  - intros Hs.
    destruct (System.streams_ready s) as [m y]. cbn in G3.
    destruct (System.supervisor s); try discriminate;
      destruct G3 as [-> ->]; reflexivity.
  - intros Hs now s' Hstep.
    rewrite Hs in G3. destruct G3 as [Hg Hm].
    unfold Where.suspended, Where.is_running in B5. rewrite Hs in B5.
    cbn in B5. rewrite orb_false_r in B5.
    destruct (System.running s) as [[|[]|]|] eqn:Er; try discriminate.
    cbn in Hstep. rewrite Er in Hstep. unfold System.supervisor_step in Hstep.
    rewrite Hs in Hstep. inversion Hstep; subst s'; clear Hstep.
    assert (Hrr : System.recording_ready s = false).
    { rewrite G2, <- fired_gate. unfold cur in Hg. fold cur in Hg.
      now rewrite Hg. }
    clear - Hg Hm Hrr. subst cur.
    destruct s as [gl lk rr [srm srs] d hh ww sp run hist].
    cbn in *. subst. repeat split. exact Hg.
Qed.

(** Both channels get their first chunk and the gate fires, once. *)
Lemma gate_fires_once_witness :
  exists s,
    System.exec Examples.cfg Examples.gate_opens System.initial = Some s
    /\ System.recording_ready s
       = Hist.fired (Hist.current_session (System.history s))
    /\ Hist.fire_count (Hist.current_session (System.history s)) = 1.
Proof.
  eexists. split; [vm_compute; reflexivity|]. split; [|reflexivity].
  eapply (readiness_gate_fires_once_per_session
            Examples.cfg Examples.gate_opens);
    vm_compute; reflexivity.
Defined.

(** ** The counter in the running system *)

Section CounterInvariant.

Import System Where.

Variable cfg : config.

Lemma log_window_counter (r : list turn) (a b : nat) (w : Sender.world) :
  Sender.window_counter (Sender.log_window r a b w) = Sender.window_counter w
  /\ Sender.posted (Sender.log_window r a b w) = Sender.posted w.
Proof.
  unfold Sender.log_window. destruct r as [|t r]; [now split|].
  match goal with
  | |- context [Sender.log_turns ?i ?l ?w] =>
      destruct (log_turns_fields l i w) as (_ & H1 & H2 & _)
  end.
  now rewrite H1, H2.
Qed.

Lemma numbered_step (l : label) (s s' : state) :
  Props.numbered (globals s) -> step cfg l s = Some s' ->
  Props.numbered (globals s').
Proof.
  intros N H.
  destruct s as [[b wc lg po sa pr] lk rr sr [dpc al rc cm cs]
                   [[hm em] [hs es]] [[wm fm nm] [ws fs ns]] sp run hist].
  unfold Props.numbered in *. cbn in N.
  destruct l; cbn in H; split_channels.
  all: open_step H.
  all: break_match_in H; split_channels.
  all: inversion H; subst; clear H.
  all: cbn -[Z.add Z.of_nat]; try exact N.
  - destruct (log_window_counter rc cm cs
                (Sender.World b wc lg po sa pr)) as [H1 H2].
    rewrite H1, H2. exact N.
  - destruct N as [Nc Nn]. rewrite length_app, map_app, Nn.
    cbn [List.length map]. split; [lia|].
    unfold Props.numbers_from_one.
    rewrite Nat.add_1_r, seq_S, map_app. cbn [map]. f_equal.
    unfold Sender.window_num_of. cbn. do 3 f_equal. lia.
  - match goal with
    | |- context [Sender.response cfg ?o ?sv ?ts ?p ?w] =>
        destruct (response_fields cfg o sv ts p w) as (_ & R2 & R3 & _)
    end.
    rewrite R2, R3. exact N.
Qed.

Lemma numbered_reachable (s : state) :
  reachable cfg s -> Props.numbered (globals s).
Proof.
  intros R. revert s R.
  apply (reachable_ind (cfg := cfg) (fun s => Props.numbered (globals s))).
  - split; reflexivity.
  - intros l s0 s1 _. apply numbered_step.
Qed.

End CounterInvariant.

(** ** Tasks and sessions *)

Section TasksInvariant.

Import System Where Progress.

Variable cfg : config.

Lemma tasks_ok_initial : tasks_ok initial.
Proof.
  split.
  - intros _. repeat split.
  - intros [[|]|[|]|] H; cbn in H; discriminate.
Qed.

Lemma tasks_ok_step (l : label) (s s' : state) :
  tasks_ok s -> step cfg l s = Some s' -> tasks_ok s'.
Proof.
  intros [T A] H.
  pose proof (A (Handler mic)) as A1. pose proof (A (Handler system)) as A2.
  pose proof (A (Writer mic)) as A3. pose proof (A (Writer system)) as A4.
  pose proof (A Supervisor) as A5. clear A.
  destruct s as [g lk rr sr [dpc al rc cm cs] [[hm em] [hs es]]
                   [[wm fm nm] [ws fs ns]] sp run hist].
  unfold tasks_ok, suspended, is_running, handler_at, writer_at in *.
  cbn in T, A1, A2, A3, A4, A5.
  destruct l; cbn in H; split_channels.
  all: open_step H.
  all: break_match_in H; split_channels.
  all: inversion H; subst; clear H.
  all: cbn in *; subst; cbn in *.
  all: split;
    [ intros N; try (specialize (T N)); try tauto;
      try (destruct T as (? & ? & ? & ?)); subst;
      try discriminate; try (now repeat split);
      try (exfalso; apply N; reflexivity)
    | intros [[|]|[|]|] R; cbn in R |- *; try discriminate R;
      try reflexivity; auto ].
Qed.

Lemma tasks_ok_reachable (s : state) : reachable cfg s -> tasks_ok s.
Proof.
  intros R. revert s R.
  apply (reachable_ind (cfg := cfg) tasks_ok).
  - apply tasks_ok_initial.
  - intros l s0 s1 _. apply tasks_ok_step.
Qed.

(** One statement of the sender inside its locked block. *)
Lemma sender_locked_step (o : Sender.post_outcome) (sv : Sender.save_outcome)
      (now : string) (s : state) :
  d_locked (pc (sender s)) = true ->
  exists s',
    sender_step cfg o sv now s = Some s'
    /\ d_to_release (pc (sender s')) + 1 = d_to_release (pc (sender s))
    /\ d_locked (pc (sender s'))
       = negb (d_to_release (pc (sender s')) =? 0)
    /\ (d_to_release (pc (sender s')) = 0 -> transcription_lock s' = None)
    /\ (d_to_release (pc (sender s')) <> 0 ->
        transcription_lock s' = transcription_lock s)
    /\ handlers s' = handlers s
    /\ running s' = running s.
Proof.
  destruct s as [g lk rr sr [dpc al rc cm cs] hh ww sp run hist].
  cbn. intros L.
  destruct dpc; try discriminate L; cbn; eexists;
    (split; [reflexivity|]); cbn; repeat split; intros; try reflexivity;
    try discriminate; try congruence; try lia.
Qed.


End TasksInvariant.

Lemma holds_lock_intro (a : System.activity) (s : System.state) :
  System.transcription_lock s = Some a -> Where.holds_lock a s = true.
Proof.
  unfold Where.holds_lock. intros ->.
  destruct a as [|[[|]|[|]|]]; reflexivity.
Qed.

Lemma running_of_active (cfg : config) (k : System.coroutine)
      (s : System.state) :
  Where.reachable cfg s -> Where.suspended (System.Loop k) s = false ->
  System.running s = Some k.
Proof.
  intros R H. destruct (lock_loop_reachable R) as [_ (B1 & B2 & B3 & B4 & B5)].
  apply is_running_eq.
  destruct k as [[|]|[|]|];
    [rewrite H in B1|rewrite H in B2|rewrite H in B3|rewrite H in B4
     |rewrite H in B5];
    now rewrite orb_false_r in *.
Qed.



(** The sender finishes its locked block from wherever it is inside it;
    the event loop is left as it was. *)
Lemma sender_finishes_block (cfg : config) (o : Sender.post_outcome)
      (sv : Sender.save_outcome) (now : string) (s : System.state) :
  Where.d_locked (System.pc (System.sender s)) = true ->
  exists s',
    System.exec cfg
      (repeat (System.L_sender o sv now)
              (Progress.d_to_release (System.pc (System.sender s)))) s
    = Some s'
    /\ System.transcription_lock s' = None
    /\ System.handlers s' = System.handlers s
    /\ System.running s' = System.running s.
Proof.
  remember (Progress.d_to_release (System.pc (System.sender s))) as n eqn:En.
  revert s En. induction n as [|n IH]; intros s En A1.
  { destruct (System.pc (System.sender s)); discriminate. }
  destruct (sender_locked_step cfg o sv now s A1)
    as (s1 & S1 & S2 & S3 & S4 & _ & S5 & S6).
  cbn [repeat System.exec System.step]. rewrite S1.
  assert (En' : n = Progress.d_to_release (System.pc (System.sender s1)))
    by lia.
  destruct n as [|n'].
  - exists s1. repeat split; auto; apply S4; lia.
  - destruct (IH s1 En') as (s2 & E2 & L2 & H2 & R2).
    { rewrite S3, <- En'. reflexivity. }
    exists s2. repeat split; auto; congruence.
Qed.

(** X2.  While a handler waits at [with transcription_lock] (line 94) for
    the lock that the sender holds, the event loop stands still: no event
    is handled, no audio chunk is written and the supervisor is not
    resumed; only the sender thread can move.  Once the sender has left its
    locked block, the handler takes the lock with its next statement. *)
Theorem event_loop_stands_still_while_a_handler_waits
        (cfg : config) (sched : list System.label) (s : System.state)
        (c : channel) (timestamp transcript : string)
        (pending : list (bool * alternative)) :
  System.exec cfg sched System.initial = Some s ->
  Where.handler_at c s = System.H_lock timestamp transcript pending ->
  Where.holds_lock System.Sender_thread s = true ->
  (forall l, Progress.is_sender_label l = false -> System.step cfg l s = None)
  /\ forall o sv now,
      exists s' s'',
        System.exec cfg
          (repeat (System.L_sender o sv now)
                  (Progress.d_to_release (System.pc (System.sender s)))) s
        = Some s'
        /\ System.step cfg (System.L_run now) s' = Some s''
        /\ Where.handler_at c s''
           = System.H_append timestamp transcript pending
        /\ Where.holds_lock (System.Loop (System.Handler c)) s'' = true.
Proof.
  intros H At L.
  assert (R : Where.reachable cfg s) by now exists sched.
  assert (Hrun : System.running s = Some (System.Handler c)).
  { apply (running_of_active (cfg := cfg)); [exact R|]. cbn.
    now rewrite At. }
  assert (Lk : System.transcription_lock s = Some System.Sender_thread).
  { now apply holds_lock_eq. }
  split.
  - intros l Hl. destruct l; try discriminate Hl; cbn; rewrite Hrun; auto.
    unfold System.handler_step. unfold Where.handler_at in At.
    now rewrite At, Lk.
  - intros o sv now.
    destruct (lock_loop_reachable R) as [(A1 & _) _].
    cbn in A1. rewrite L in A1.
    destruct (sender_finishes_block cfg o sv now s A1)
      as (s1 & E1 & L1 & H1 & R1).
    exists s1. eexists. split; [exact E1|].
    cbn. rewrite R1, Hrun. unfold System.handler_step.
    unfold Where.handler_at in At. rewrite H1, At, L1.
    split; [reflexivity|]. split.
    + unfold Where.handler_at. destruct c; reflexivity.
    + destruct c; reflexivity.
Qed.

Lemma event_loop_stands_still_witness :
  exists s,
    System.exec Examples.cfg Examples.handler_waits System.initial = Some s
    /\ forall l,
        Progress.is_sender_label l = false ->
        System.step Examples.cfg l s = None.
Proof.
  eexists. split; [vm_compute; reflexivity|].
  refine (proj1 (event_loop_stands_still_while_a_handler_waits
                   Examples.cfg Examples.handler_waits system _ _ _));
    vm_compute; reflexivity.
Defined.

(** ** The requests and the response files of the running system *)

Section Requests.

Import System Where Progress.

Variable cfg : config.

Lemma recent_length_le (l : list turn) : List.length (Window.recent l) <= 10.
Proof. rewrite recent_length. lia. Qed.

Lemma well_sized_payload (n : Z) (r : list turn) :
  r <> [] -> List.length r <= 10 ->
  Props.well_sized (Sender.make_payload cfg n r) = true.
Proof.
  intros Hr Hl. unfold Props.well_sized, Props.turns_count. cbn.
  rewrite length_map. destruct r as [|t r]; [contradiction|].
  cbn [List.length] in *. apply andb_true_intro. split.
  - reflexivity.
  - apply Nat.leb_le. exact Hl.
Qed.

Lemma requests_ok_step (l : label) (s s' : state) :
  requests_ok s -> step cfg l s = Some s' -> requests_ok s'.
Proof.
  intros (N & F & L) H.
  split; [exact (numbered_step cfg l s N H)|].
  clear N.
  destruct s as [[b wc lg po sa pr] lk rr sr [dpc al rc cm cs]
                   [[hm em] [hs es]] [[wm fm nm] [ws fs ns]] sp run hist].
  cbn in F, L.
  destruct l; cbn in H; split_channels.
  all: open_step H.
  all: break_match_in H; split_channels.
  all: inversion H; subst; clear H.
  all: cbn -[Window.recent Sender.make_payload Sender.response
             Sender.log_window].
  all: try (split; [exact F|exact L]).
  - split; [exact F|apply recent_length_le].
  - destruct (log_window_counter rc cm cs
                (Sender.World b wc lg po sa pr)) as [_ H2].
    rewrite H2. split; [exact F|exact L].
  - split; [|exact L].
    rewrite forallb_app, F. cbn [forallb andb].
    rewrite well_sized_payload; [reflexivity|discriminate|exact L].
  - match goal with
    | |- context [Sender.response cfg ?o ?sv ?ts ?p ?w] =>
        destruct (response_fields cfg o sv ts p w) as (_ & _ & R3 & _)
    end.
    rewrite R3. split; [exact F|exact L].
Qed.

Lemma requests_ok_reachable (s : state) : reachable cfg s -> requests_ok s.
Proof.
  intros R. revert s R.
  apply (reachable_ind (cfg := cfg) requests_ok).
  - repeat split. cbn. lia.
  - intros l s0 s1 _. apply requests_ok_step.
Qed.

(** A move adds at most one request, and takes none back. *)
Lemma posted_step (l : label) (s s' : state) :
  step cfg l s = Some s' ->
  exists new,
    Sender.posted (globals s') = Sender.posted (globals s) ++ new
    /\ (Sender.window_counter (globals s)
        <= Sender.window_counter (globals s'))%Z.
Proof.
  intros H.
  destruct s as [[b wc lg po sa pr] lk rr sr [dpc al rc cm cs]
                   [[hm em] [hs es]] [[wm fm nm] [ws fs ns]] sp run hist].
  destruct l; cbn in H; split_channels.
  all: open_step H.
  all: break_match_in H; split_channels.
  all: inversion H; subst; clear H.
  all: cbn -[Sender.make_payload Sender.response Sender.log_window Z.add].
  all: try (exists []; rewrite app_nil_r; split; [reflexivity|lia]).
  - destruct (log_window_counter rc cm cs
                (Sender.World b wc lg po sa pr)) as [H1 H2].
    rewrite H1, H2. exists []. rewrite app_nil_r. split; [reflexivity|].
    cbn. lia.
  - eexists. split; [reflexivity|lia].
  - match goal with
    | |- context [Sender.response cfg ?o ?sv ?ts ?p ?w] =>
        destruct (response_fields cfg o sv ts p w) as (_ & R2 & R3 & _)
    end.
    rewrite R2, R3. exists []. rewrite app_nil_r. split; [reflexivity|].
    cbn. lia.
Qed.

Lemma posted_exec (sched : list label) (s s' : state) :
  exec cfg sched s = Some s' ->
  exists new,
    Sender.posted (globals s') = Sender.posted (globals s) ++ new
    /\ (Sender.window_counter (globals s)
        <= Sender.window_counter (globals s'))%Z.
Proof.
  revert s. induction sched as [|l r IH]; intros s H; cbn [exec] in H.
  - inversion H; subst. exists []. rewrite app_nil_r. split; [reflexivity|lia].
  - destruct (step cfg l s) as [s1|] eqn:E; [|discriminate].
    destruct (posted_step l s E) as (n1 & P1 & C1).
    destruct (IH s1 H) as (n2 & P2 & C2).
    exists (n1 ++ n2). rewrite P2, P1, app_assoc. split; [reflexivity|lia].
Qed.

End Requests.

(** X3.  Whatever the interleaving of the sender thread with the event
    loop: the requests made so far carry the window numbers 1, 2, 3, ... in
    the order they were made, the counter is their number, every request
    carries at least one turn and at most ten, and whatever happens next
    only adds requests after them and never lowers the counter. *)
Theorem requests_of_the_running_system
        (cfg : config) (sched more : list System.label)
        (s s' : System.state) :
  System.exec cfg sched System.initial = Some s ->
  System.exec cfg more s = Some s' ->
  let made := Sender.posted (System.globals s) in
  map Sender.window_num_of made = Props.numbers_from_one (List.length made)
  /\ Sender.window_counter (System.globals s) = Z.of_nat (List.length made)
  /\ forallb Props.well_sized made = true
  /\ (exists new, Sender.posted (System.globals s') = made ++ new)
  /\ (Sender.window_counter (System.globals s)
      <= Sender.window_counter (System.globals s'))%Z.
Proof.
  intros H H' made.
  assert (R : Where.reachable cfg s) by now exists sched.
  destruct (requests_ok_reachable R) as ((N1 & N2) & F & _).
  destruct (posted_exec cfg more s H') as (new & P & C).
  repeat split; try assumption. now exists new.
Qed.

Lemma requests_of_the_running_system_witness :
  exists s s',
    System.exec Examples.cfg Examples.two_requests System.initial
    = Some s
    /\ System.exec Examples.cfg [Examples.ok] s = Some s'
    /\ map Sender.window_num_of (Sender.posted (System.globals s))
       = Props.numbers_from_one
           (List.length (Sender.posted (System.globals s)))
    /\ Sender.window_counter (System.globals s)
       = Z.of_nat (List.length (Sender.posted (System.globals s)))
    /\ forallb Props.well_sized (Sender.posted (System.globals s)) = true
    /\ (exists new,
          Sender.posted (System.globals s')
          = Sender.posted (System.globals s) ++ new)
    /\ (Sender.window_counter (System.globals s)
        <= Sender.window_counter (System.globals s'))%Z.
Proof.
  do 2 eexists. split; [vm_compute; reflexivity|].
  split; [vm_compute; reflexivity|].
  apply (requests_of_the_running_system
           Examples.cfg Examples.two_requests [Examples.ok]);
    vm_compute; reflexivity.
Defined.

(** ** The response files of the running system *)

Section Archive.

Import System Where Progress.

Variable cfg : config.

Lemma log_turns_outputs (r : list turn) (i : nat) (w : Sender.world) :
  Sender.saved (Sender.log_turns i r w) = Sender.saved w
  /\ Sender.printed (Sender.log_turns i r w) = Sender.printed w.
Proof.
  revert i w. induction r as [|t r IH]; intros i w; cbn [Sender.log_turns]; [now split|].
  destruct (IH (S i)
              (Sender.log_activity
                 (Log_turn (S i) (t_speaker t)
                           (PyStr.prefix_n 50 (t_transcript t))) w))
    as [H1 H2].
  rewrite H1, H2. now split.
Qed.

Lemma log_window_outputs (r : list turn) (a b : nat) (w : Sender.world) :
  Sender.saved (Sender.log_window r a b w) = Sender.saved w
  /\ Sender.printed (Sender.log_window r a b w) = Sender.printed w.
Proof.
  unfold Sender.log_window. destruct r as [|t r]; [now split|].
  match goal with
  | |- context [Sender.log_turns ?i ?l ?w] =>
      destruct (log_turns_outputs l i w) as [H1 H2]
  end.
  rewrite H1, H2. now split.
Qed.

(** What the answer to a request adds to the files and to the printed
    lines. *)
Lemma response_outputs (o : Sender.post_outcome) (sv : Sender.save_outcome)
      (ts : string) (p : list (string * json)) (w : Sender.world) :
  (Sender.saved (Sender.response cfg o sv ts p w) = Sender.saved w
   /\ Sender.printed (Sender.response cfg o sv ts p w) = Sender.printed w)
  \/ exists status_code text,
      let rd :=
        Sender.make_response_data cfg (Sender.window_counter w) status_code
                                  ts p text in
      Sender.saved (Sender.response cfg o sv ts p w)
      = Sender.saved w ++ [(Sender.window_counter w, rd)]
      /\ Sender.printed (Sender.response cfg o sv ts p w)
         = Sender.printed w ++ [rd].
Proof.
  unfold Sender.response.
  destruct o as [status text|e]; [|left; now split].
  destruct sv as [|e]; [|left; now split].
  right. exists status, text.
  destruct (status =? 200)%Z; cbn; now split.
Qed.

(** What one move of the system does to the requests, the files and the
    printed lines. *)
Lemma outputs_step (l : label) (s s' : state) :
  step cfg l s = Some s' ->
  let w := globals s in
  let w' := globals s' in
  (Sender.posted w' = Sender.posted w
   /\ Sender.saved w' = Sender.saved w
   /\ Sender.printed w' = Sender.printed w
   /\ Sender.window_counter w' = Sender.window_counter w
   /\ (pc (sender s') = pc (sender s)
       \/ is_post (pc (sender s)) = false /\ is_post (pc (sender s')) = false))
  \/ (exists payload,
         is_post (pc (sender s)) = false
         /\ pc (sender s') = D_post payload
         /\ Sender.posted w' = Sender.posted w ++ [payload]
         /\ Sender.saved w' = Sender.saved w
         /\ Sender.printed w' = Sender.printed w
         /\ Sender.window_counter w' = (Sender.window_counter w + 1)%Z)
  \/ (exists payload,
         pc (sender s) = D_post payload
         /\ is_post (pc (sender s')) = false
         /\ Sender.posted w' = Sender.posted w
         /\ Sender.window_counter w' = Sender.window_counter w
         /\ ((Sender.saved w' = Sender.saved w
              /\ Sender.printed w' = Sender.printed w)
             \/ exists status_code timestamp text,
                 let rd :=
                   Sender.make_response_data
                     cfg (Sender.window_counter w) status_code timestamp
                     payload text in
                 Sender.saved w'
                 = Sender.saved w ++ [(Sender.window_counter w, rd)]
                 /\ Sender.printed w' = Sender.printed w ++ [rd])).
Proof.
  intros H.
  destruct s as [[b wc lg po sa pr] lk rr sr [dpc al rc cm cs]
                   [[hm em] [hs es]] [[wm fm nm] [ws fs ns]] sp run hist].
  destruct l; cbn in H; split_channels.
  all: open_step H.
  all: break_match_in H; split_channels.
  all: inversion H; subst; clear H.
  all: cbn -[Sender.make_payload Sender.response Sender.log_window Z.add
             Sender.make_response_data].
  all: try (left; repeat split; (left; reflexivity) || (right; now split)).
  - left.
    destruct (log_window_counter rc cm cs
                (Sender.World b wc lg po sa pr)) as [H1 H2].
    destruct (log_window_outputs rc cm cs
                (Sender.World b wc lg po sa pr)) as [H3 H4].
    rewrite H1, H2, H3, H4. repeat split. right. now split.
  - right. left. eexists. repeat split.
  - right. right. exists payload.
    match goal with
    | |- context [Sender.response cfg ?o ?sv ?ts ?p ?w] =>
        destruct (response_fields cfg o sv ts p w) as (_ & R2 & R3 & _);
        destruct (response_outputs o sv ts p w) as [[R4 R5]|(st & tx & R4 & R5)]
    end.
    + rewrite R2, R3, R4, R5. repeat split. left. now split.
    + rewrite R2, R3, R4, R5. repeat split. right. exists st, now, tx.
      now split.
Qed.

Lemma sorted_snoc (l : list Z) (a : Z) :
  StronglySorted Z.lt l -> Forall (fun x => (x < a)%Z) l ->
  StronglySorted Z.lt (l ++ [a]).
Proof.
  induction 1 as [|x l S IH F]; intros B; cbn.
  - constructor; constructor.
  - inversion B; subst. constructor; [now apply IH|].
    apply Forall_app. split; [exact F|]. now constructor.
Qed.

Lemma archive_step (l : label) (s s' : state) :
  Props.numbered (globals s) ->
  Props.archive_ok cfg (answered s) (globals s) -> in_flight_ok s ->
  step cfg l s = Some s' ->
  Props.archive_ok cfg (answered s') (globals s') /\ in_flight_ok s'.
Proof.
  intros [Nc _] (A1 & A2 & A3 & A4) Fl H.
  apply outputs_step in H. cbv zeta in H.
  unfold Props.archive_ok, answered, in_flight_ok in *.
  destruct H as [(P & S & R & C & K)
                |[(p & N & K & P & S & R & C)
                 |(p & K & N & P & C & O)]].
  - rewrite P, S, R, C.
    destruct K as [K|[K1 K2]].
    + rewrite K. repeat split; assumption.
    + destruct (pc (sender s)); try discriminate K1;
        destruct (pc (sender s')); try discriminate K2;
        repeat split; assumption.
  - rewrite K, P, S, R, C.
    assert (E : answered s = Sender.window_counter (globals s)).
    { unfold answered. destruct (pc (sender s)); try discriminate N;
        reflexivity. }
    unfold answered in E. rewrite E in A2, A4. clear E Fl.
    replace (Sender.window_counter (globals s) + 1 - 1)%Z
      with (Sender.window_counter (globals s)) by lia.
    repeat split; try assumption.
    + eapply Forall_impl; [|exact A4].
      intros [n rd] (B & q & st & ts & tx & Q1 & Q2). cbn [fst snd] in *.
      split; [exact B|]. exists q, st, ts, tx. split; [|exact Q2].
      rewrite nth_error_app1; [exact Q1|].
      apply nth_error_Some. congruence.
    + rewrite Nc. rewrite nth_error_app2 by lia.
      replace (Z.to_nat (Z.of_nat (List.length (Sender.posted (globals s))) + 1)
               - 1 - List.length (Sender.posted (globals s)))
        with 0 by lia.
      reflexivity.
  - rewrite K in *. rewrite P, C.
    assert (E : match pc (sender s') with
                | D_post _ => (Sender.window_counter (globals s) - 1)%Z
                | _ => Sender.window_counter (globals s)
                end = Sender.window_counter (globals s)).
    { destruct (pc (sender s')); try discriminate N; reflexivity. }
    rewrite E. clear E.
    assert (I' : match pc (sender s') with
                 | D_post payload =>
                     nth_error (Sender.posted (globals s))
                       (Z.to_nat (Sender.window_counter (globals s)) - 1)
                     = Some payload
                 | _ => True
                 end).
    { destruct (pc (sender s')); try discriminate N; exact Logic.I. }
    split; [|exact I'].
    assert (W : (1 <= Sender.window_counter (globals s))%Z).
    { rewrite Nc. destruct (Sender.posted (globals s)).
      - destruct (Z.to_nat _ - 1) in Fl; discriminate Fl.
      - cbn [List.length]. lia. }
    destruct O as [[S R]|(st & ts & tx & S & R)]; cbv zeta in *.
    + rewrite S, R. repeat split; try assumption.
      * lia.
      * eapply Forall_impl; [|exact A4].
        intros [n rd] (B & Q). cbn [fst snd] in *. split; [lia|exact Q].
    + rewrite S, R. rewrite !map_app, length_app. cbn [map fst snd List.length].
      repeat split.
      * now rewrite A1.
      * lia.
      * apply sorted_snoc; [exact A3|].
        rewrite Forall_map. eapply Forall_impl; [|exact A4].
        intros [n rd] (B & _). cbn [fst] in *. lia.
      * apply Forall_app. split.
        -- eapply Forall_impl; [|exact A4].
           intros [n rd] (B & Q). cbn [fst snd] in *. split; [lia|exact Q].
        -- constructor; [|constructor]. cbn [fst snd]. split; [lia|].
           exists p, st, ts, tx. split; [exact Fl|reflexivity].
Qed.

Lemma archive_reachable (s : state) :
  reachable cfg s ->
  Props.archive_ok cfg (answered s) (globals s) /\ in_flight_ok s.
Proof.
  intros R.
  enough (X : Props.numbered (globals s)
              /\ Props.archive_ok cfg (answered s) (globals s)
              /\ in_flight_ok s) by tauto.
  revert s R.
  apply (reachable_ind
           (cfg := cfg)
           (fun s => Props.numbered (globals s)
                     /\ Props.archive_ok cfg (answered s) (globals s)
                     /\ in_flight_ok s)).
  - split; [split; reflexivity|]. split; [|exact Logic.I].
    repeat split; cbn; try lia; constructor.
  - intros l s0 s1 _ (N & A & Fl) H. split.
    + exact (numbered_step cfg l s0 N H).
    + exact (archive_step l s0 N A Fl H).
Qed.

End Archive.

Lemma sorted_nodup (l : list Z) : StronglySorted Z.lt l -> NoDup l.
Proof.
  induction 1 as [|x l S IH F]; constructor; [|exact IH].
  intros N. rewrite Forall_forall in F. specialize (F x N). lia.
Qed.

Lemma numbered_nth (w : Sender.world) (i : nat)
      (payload : list (string * json)) :
  Props.numbered w -> nth_error (Sender.posted w) i = Some payload ->
  Sender.window_num_of payload = Some (JInt (Z.of_nat (S i))).
Proof.
  intros [_ N] H.
  assert (L : i < List.length (Sender.posted w)).
  { apply nth_error_Some. congruence. }
  apply (map_nth_error Sender.window_num_of) in H.
  rewrite N in H. unfold Props.numbers_from_one in H.
  rewrite nth_error_map, nth_error_seq in H.
  apply Nat.ltb_lt in L. rewrite L in H. cbn in H.
  now inversion H.
Qed.

(** X4.  Whatever the interleaving: a line API_RESPONSE_DATA is printed for
    every response file written and for nothing else, with the same
    content; no file is written twice, since the numbers in the file names
    are all different; there are no more files than requests; and the file
    with number [n] holds the payload of the [n]-th request, the one that
    carries the window number [n]. *)
Theorem response_files_of_the_running_system
        (cfg : config) (sched : list System.label) (s : System.state) :
  System.exec cfg sched System.initial = Some s ->
  let w := System.globals s in
  Sender.printed w = map snd (Sender.saved w)
  /\ NoDup (map fst (Sender.saved w))
  /\ List.length (Sender.saved w) <= List.length (Sender.posted w)
  /\ forall n response_data,
      In (n, response_data) (Sender.saved w) ->
      exists payload status_code timestamp text,
        nth_error (Sender.posted w) (Z.to_nat n - 1) = Some payload
        /\ Sender.window_num_of payload = Some (JInt n)
        /\ response_data
           = Sender.make_response_data cfg n status_code timestamp payload
                                       text.
Proof.
  intros H w.
  assert (R : Where.reachable cfg s) by now exists sched.
  destruct (archive_reachable R) as [(A1 & A2 & A3 & A4) _].
  pose proof (numbered_reachable R) as N.
  fold w in A1, A2, A3, A4, N.
  repeat split.
  - exact A1.
  - now apply sorted_nodup.
  - destruct N as [Nc _]. unfold Progress.answered in A2. fold w in A2.
    destruct (System.pc (System.sender s)); lia.
  - intros n rd Hin. rewrite Forall_forall in A4.
    destruct (A4 _ Hin) as (B & p & st & ts & tx & Q1 & Q2).
    cbn [fst snd] in *. exists p, st, ts, tx. repeat split; try assumption.
    rewrite (numbered_nth _ N Q1). do 2 f_equal. lia.
Qed.

Lemma response_files_witness :
  exists s,
    System.exec Examples.cfg Examples.two_requests System.initial = Some s
    /\ map fst (Sender.saved (System.globals s)) = [1%Z; 2%Z]
    /\ Sender.printed (System.globals s)
       = map snd (Sender.saved (System.globals s)).
Proof.
  eexists. split; [vm_compute; reflexivity|].
  split; [vm_compute; reflexivity|].
  apply (response_files_of_the_running_system
           Examples.cfg Examples.two_requests).
  vm_compute; reflexivity.
Defined.

(** ** The handler along a stream, and the order of a speaker's turns *)

Section StreamFacts.

Import Window Stream.

Variable now : nat -> string.

Lemma handle_all_effect (c : channel) (events : list transcript_event)
      (w : Handler.world) :
  let w' := handle_all now c events w in
  buf_get c (Handler.transcription_buffer w')
  = buf_get c (Handler.transcription_buffer w)
    ++ Handler.stamped now (Handler.clock_reads w)
                       (flat_map Handler.accepted events)
  /\ buf_get (Props.other c) (Handler.transcription_buffer w')
     = buf_get (Props.other c) (Handler.transcription_buffer w)
  /\ Handler.events_received w'
     = (Handler.events_received w + Z.of_nat (List.length events))%Z
  /\ Handler.clock_reads w'
     = Handler.clock_reads w
       + List.length (flat_map Handler.accepted events).
Proof.
  revert w. induction events as [|ev events IH]; intros w.
  - cbn. rewrite app_nil_r. repeat split; lia.
  - cbn [handle_all fold_left flat_map].
    set (w1 := Handler.handle_transcript_event now c ev w).
    assert (E : buf_get c (Handler.transcription_buffer w1)
                = buf_get c (Handler.transcription_buffer w)
                  ++ Handler.stamped now (Handler.clock_reads w)
                                     (Handler.accepted ev)
                /\ buf_get (Props.other c) (Handler.transcription_buffer w1)
                   = buf_get (Props.other c) (Handler.transcription_buffer w)
                /\ Handler.clock_reads w1
                   = Handler.clock_reads w
                     + List.length (Handler.accepted ev)
                /\ Handler.events_received w1
                   = (Handler.events_received w + 1)%Z).
    { subst w1. unfold Handler.handle_transcript_event.
      destruct ev as [|r ev].
      - cbn. rewrite app_nil_r.
        destruct ((Handler.events_received w + 1) mod 50 =? 0)%Z; cbn;
          repeat split; lia.
      - set (w0 := Handler.World _ _ _ _).
        destruct (handle_results_effect now c (r :: ev) w0)
          as (H1 & H2 & H3 & H4).
        cbv zeta in *. rewrite H1, H2, H3, H4. subst w0. cbn.
        repeat split. }
    destruct E as (E1 & E2 & E3 & E4).
    destruct (IH w1) as (I1 & I2 & I3 & I4). fold (handle_all now c events w1).
    cbv zeta in *. rewrite I1, I2, I3, I4, E1, E2, E3, E4.
    rewrite stamped_app, length_app, <- app_assoc.
    repeat split; try lia.
    cbn [List.length]. lia.
Qed.

Lemma stamped_stamps (k : nat) (l : list string) :
  map e_timestamp (Handler.stamped now k l) = stamps now k (List.length l).
Proof.
  revert k. induction l as [|t l IH]; intros k; cbn; [reflexivity|].
  f_equal. apply IH.
Qed.

End StreamFacts.

Section OrderFacts.

Import Window Stream.

Lemma ascending_turns (c : channel) (l : list entry) :
  ascending l -> StronglySorted ts_le (map (to_turn c) l).
Proof.
  induction 1 as [|e l S IH F]; cbn; constructor; [exact IH|].
  rewrite Forall_map. exact F.
Qed.

Lemma sort_of_sorted (l : list turn) :
  StronglySorted ts_le l -> sort_by_timestamp l = l.
Proof.
  induction 1 as [|x l S IH F]; [reflexivity|].
  change (sort_by_timestamp (x :: l)) with (insert x (sort_by_timestamp l)).
  rewrite IH. destruct l as [|y l]; [reflexivity|].
  cbn. inversion F as [|? ? Hxy _]; subst.
  unfold ts_le, PyStr.le in Hxy. now rewrite Hxy.
Qed.

Lemma insert_head (x : turn) (l : list turn) :
  Forall (ts_le x) l -> insert x l = x :: l.
Proof.
  destruct l as [|y l]; [reflexivity|].
  intros F. inversion F as [|? ? Hxy _]; subst. cbn.
  unfold ts_le, PyStr.le in Hxy. now rewrite Hxy.
Qed.

Lemma filter_insert (p : turn -> bool) (x : turn) (l : list turn) :
  StronglySorted ts_le l ->
  filter p (insert x l)
  = if p x then insert x (filter p l) else filter p l.
Proof.
  induction 1 as [|y l S IH F].
  - cbn. now destruct (p x).
  - cbn [insert].
    destruct (String.leb (t_timestamp x) (t_timestamp y)) eqn:E.
    + change (filter p (x :: y :: l))
        with (if p x then x :: filter p (y :: l) else filter p (y :: l)).
      destruct (p x); [|reflexivity].
      symmetry. apply insert_head.
      assert (G : Forall (ts_le x) (y :: l)).
      { constructor; [exact E|].
        eapply Forall_impl; [|exact F].
        intros z Hz. unfold ts_le in *.
        eapply le_trans; [exact E|exact Hz]. }
      apply Forall_forall. intros z Hz. apply filter_In in Hz.
      rewrite Forall_forall in G. now apply G.
    + cbn [filter]. rewrite IH.
      destruct (p y), (p x); try reflexivity.
      cbn [insert]. now rewrite E.
Qed.

Lemma filter_sort (p : turn -> bool) (l : list turn) :
  filter p (sort_by_timestamp l) = sort_by_timestamp (filter p l).
Proof.
  induction l as [|x l IH]; [reflexivity|].
  change (sort_by_timestamp (x :: l)) with (insert x (sort_by_timestamp l)).
  rewrite filter_insert by apply sort_sorted.
  rewrite IH. cbn [filter]. destruct (p x); reflexivity.
Qed.

Lemma turns_of_combine (b : buffer) :
  turns_of agent (combine b) = map (to_turn mic) (buf_mic b)
  /\ turns_of customer (combine b) = map (to_turn system) (buf_system b).
Proof.
  unfold turns_of, combine. rewrite !filter_app. split.
  - replace (filter _ (map (to_turn system) (buf_system b))) with (@nil turn).
    + rewrite app_nil_r. induction (buf_mic b) as [|e l IH]; cbn; congruence.
    + induction (buf_system b) as [|e l IH]; cbn; congruence.
  - replace (filter _ (map (to_turn mic) (buf_mic b))) with (@nil turn).
    + cbn. induction (buf_system b) as [|e l IH]; cbn; congruence.
    + induction (buf_mic b) as [|e l IH]; cbn; congruence.
Qed.

Lemma filter_skipn (p : turn -> bool) (k : nat) (l : list turn) :
  exists j, filter p (skipn k l) = skipn j (filter p l).
Proof.
  revert l. induction k as [|k IH]; intros l.
  - exists 0. reflexivity.
  - destruct l as [|x l]; [exists 0; reflexivity|].
    destruct (IH l) as [j Hj]. cbn [skipn filter].
    destruct (p x); [exists (S j)|exists j]; exact Hj.
Qed.

End OrderFacts.

(** X5.  Along a stream of events the handler of a channel appends to its
    list, in the order of the stream, one entry for every transcript that
    has text and belongs to a result that is not partial, each stamped with
    the next reading of the clock; it removes and reorders nothing, leaves
    the list of the other channel as it is, and counts every event, the
    empty ones included. *)
Theorem handler_keeps_every_final_text_of_the_stream
        (now : nat -> string) (c : channel)
        (events : list transcript_event) (w : Handler.world) :
  let w' := Stream.handle_all now c events w in
  let texts := flat_map Props.final_texts events in
  buf_get c (Handler.transcription_buffer w')
  = buf_get c (Handler.transcription_buffer w)
    ++ Handler.stamped now (Handler.clock_reads w) texts
  /\ map e_text (Handler.stamped now (Handler.clock_reads w) texts) = texts
  /\ buf_get (Props.other c) (Handler.transcription_buffer w')
     = buf_get (Props.other c) (Handler.transcription_buffer w)
  /\ Handler.events_received w'
     = (Handler.events_received w + Z.of_nat (List.length events))%Z
  /\ Handler.clock_reads w' = Handler.clock_reads w + List.length texts.
Proof.
  intros w' texts.
  assert (E : flat_map Handler.accepted events = texts).
  { subst texts. induction events as [|ev events IH]; [reflexivity|].
    cbn [flat_map]. now rewrite IH, accepted_final_texts. }
  destruct (handle_all_effect now c events w) as (H1 & H2 & H3 & H4).
  cbv zeta in *. rewrite E in *. fold w' in H1, H2, H3, H4.
  repeat split; try assumption.
  generalize (Handler.clock_reads w). clear.
  induction texts as [|t texts IH]; intros k; cbn; [reflexivity|].
  now rewrite IH.
Qed.

(** X6.  When the timestamps of each buffer list never go down, sorting
    the combined list by timestamp keeps the turns of each speaker in the
    order in which they were appended: the agent turns of the sorted list
    are the mic entries in order, the customer turns the system entries in
    order, and the turns of a speaker in the window are the last of that
    speaker's entries, in order. *)
Theorem speaker_turns_keep_their_order (b : buffer) :
  Stream.ascending (buf_mic b) -> Stream.ascending (buf_system b) ->
  let sorted := Window.sort_by_timestamp (Window.combine b) in
  Stream.turns_of agent sorted = map (Window.to_turn mic) (buf_mic b)
  /\ Stream.turns_of customer sorted
     = map (Window.to_turn system) (buf_system b)
  /\ (exists k, Stream.turns_of agent (Window.window b)
                = skipn k (map (Window.to_turn mic) (buf_mic b)))
  /\ (exists k, Stream.turns_of customer (Window.window b)
                = skipn k (map (Window.to_turn system) (buf_system b))).
Proof.
  intros Hm Hs sorted.
  destruct (turns_of_combine b) as [Cm Cs].
  assert (A : Stream.turns_of agent sorted
              = map (Window.to_turn mic) (buf_mic b)).
  { subst sorted. unfold Stream.turns_of. rewrite filter_sort.
    fold (Stream.turns_of agent (Window.combine b)). rewrite Cm.
    apply sort_of_sorted, ascending_turns, Hm. }
  assert (B : Stream.turns_of customer sorted
              = map (Window.to_turn system) (buf_system b)).
  { subst sorted. unfold Stream.turns_of. rewrite filter_sort.
    fold (Stream.turns_of customer (Window.combine b)). rewrite Cs.
    apply sort_of_sorted, ascending_turns, Hs. }
  repeat split; try assumption.
  - unfold Window.window. fold sorted. rewrite recent_skipn.
    destruct (filter_skipn
                (fun t => Stream.speaker_eqb (t_speaker t) agent)
                (List.length sorted - 10) sorted) as [j Hj].
    exists j. unfold Stream.turns_of in *. now rewrite Hj, A.
  - unfold Window.window. fold sorted. rewrite recent_skipn.
    destruct (filter_skipn
                (fun t => Stream.speaker_eqb (t_speaker t) customer)
                (List.length sorted - 10) sorted) as [j Hj].
    exists j. unfold Stream.turns_of in *. now rewrite Hj, B.
Qed.

Lemma speaker_turns_keep_their_order_witness :
  Stream.turns_of agent
    (Window.sort_by_timestamp (Window.combine Examples.thirteen))
  = map (Window.to_turn mic) (buf_mic Examples.thirteen).
Proof.
  apply (speaker_turns_keep_their_order Examples.thirteen);
    repeat constructor.
Defined.

Section ClockFacts.

Import Stream.

Variable now : nat -> string.

Hypothesis now_mono :
  forall i j, i <= j -> PyStr.le (now i ++ "Z") (now j ++ "Z").

Lemma stamped_in (k : nat) (l : list string) (e : entry) :
  In e (Handler.stamped now k l) ->
  exists i, k <= i /\ e_timestamp e = (now i ++ "Z")%string.
Proof.
  revert k. induction l as [|t l IH]; intros k H; cbn in H; [contradiction|].
  destruct H as [<-|H].
  - exists k. split; [lia|reflexivity].
  - destruct (IH _ H) as (i & Hi & E). exists i. split; [lia|exact E].
Qed.

Lemma stamped_ascending (k : nat) (l : list string) :
  ascending (Handler.stamped now k l).
Proof.
  revert k. induction l as [|t l IH]; intros k; cbn; constructor.
  - apply IH.
  - apply Forall_forall. intros e He.
    destruct (stamped_in _ _ _ He) as (i & Hi & E).
    cbn [e_timestamp]. rewrite E. apply now_mono. lia.
Qed.

Lemma ascending_app (l1 l2 : list entry) :
  ascending l1 -> ascending l2 ->
  (forall x y, In x l1 -> In y l2 ->
               PyStr.le (e_timestamp x) (e_timestamp y)) ->
  ascending (l1 ++ l2).
Proof.
  induction 1 as [|x l1 S IH F]; intros H2 C; cbn; [exact H2|].
  constructor.
  - apply IH; [exact H2|]. intros a b Ha Hb. apply C; [now right|exact Hb].
  - apply Forall_app. split; [exact F|].
    apply Forall_forall. intros y Hy. apply C; [now left|exact Hy].
Qed.

End ClockFacts.

(** X7.  If the readings of the clock, as the strings the handler makes of
    them, never go down, the list of a channel stays in ascending order of
    timestamp along a stream of events: it is ascending afterwards whenever
    it was ascending before with no entry later than the next reading. *)
Theorem handler_list_ascends_with_the_clock
        (now : nat -> string) (c : channel)
        (events : list transcript_event) (w : Handler.world) :
  (forall i j, i <= j -> PyStr.le (now i ++ "Z") (now j ++ "Z")) ->
  Stream.ascending (buf_get c (Handler.transcription_buffer w)) ->
  Forall (fun e => PyStr.le (e_timestamp e)
                            (now (Handler.clock_reads w) ++ "Z"))
         (buf_get c (Handler.transcription_buffer w)) ->
  Stream.ascending
    (buf_get c (Handler.transcription_buffer
                  (Stream.handle_all now c events w))).
Proof.
  intros M A F.
  destruct (handle_all_effect now c events w) as (H1 & _).
  cbv zeta in H1. rewrite H1.
  apply ascending_app; [exact A|now apply stamped_ascending|].
  intros x y Hx Hy.
  destruct (stamped_in _ _ _ _ Hy) as (i & Hi & E). rewrite E.
  rewrite Forall_forall in F.
  eapply le_trans; [apply F, Hx|]. apply M, Hi.
Qed.

Lemma clock_never_goes_down (i j : nat) :
  i <= j -> PyStr.le (Examples.clock i ++ "Z") (Examples.clock j ++ "Z").
Proof.
  destruct i as [|[|[|[|i]]]], j as [|[|[|[|j]]]]; intros H;
    try (exfalso; lia); reflexivity.
Qed.

Lemma handler_list_ascends_witness :
  Stream.ascending
    (buf_get mic
       (Handler.transcription_buffer
          (Stream.handle_all Examples.clock mic
             [Examples.hello; Examples.mixed_event; Examples.two_alternatives]
             Examples.quiet))).
Proof.
  apply (handler_list_ascends_with_the_clock
           Examples.clock mic
           [Examples.hello; Examples.mixed_event; Examples.two_alternatives]
           Examples.quiet).
  - exact clock_never_goes_down.
  - constructor.
  - constructor.
Defined.

(** ** What the sender sends does not depend on the answers *)

Section Answers.

Variable cfg : config.

Lemma tick_same_arrivals (e e' : Sender.tick_env) (w w' : Sender.world) :
  Sender.arrived e = Sender.arrived e' ->
  Sender.transcription_buffer w = Sender.transcription_buffer w' ->
  Sender.window_counter w = Sender.window_counter w' ->
  Sender.posted w = Sender.posted w' ->
  Sender.transcription_buffer (Sender.tick cfg e w)
  = Sender.transcription_buffer (Sender.tick cfg e' w')
  /\ Sender.window_counter (Sender.tick cfg e w)
     = Sender.window_counter (Sender.tick cfg e' w')
  /\ Sender.posted (Sender.tick cfg e w)
     = Sender.posted (Sender.tick cfg e' w').
Proof.
  intros Ha Hb Hc Hp.
  destruct (tick_spec cfg e w) as (B & _ & T).
  destruct (tick_spec cfg e' w') as (B' & _ & T').
  assert (W : Sender.window_of_tick e w = Sender.window_of_tick e' w').
  { unfold Sender.window_of_tick, Sender.arrive. cbn. now rewrite Ha, Hb. }
  rewrite <- W in T'.
  split; [congruence|].
  destruct (Sender.window_of_tick e w); destruct T as [T1 T2];
    destruct T' as [T1' T2']; split; congruence.
Qed.

Lemma run_same_arrivals (envs envs' : list Sender.tick_env)
      (w w' : Sender.world) :
  map Sender.arrived envs = map Sender.arrived envs' ->
  Sender.transcription_buffer w = Sender.transcription_buffer w' ->
  Sender.window_counter w = Sender.window_counter w' ->
  Sender.posted w = Sender.posted w' ->
  Sender.transcription_buffer (Sender.run cfg envs w)
  = Sender.transcription_buffer (Sender.run cfg envs' w')
  /\ Sender.window_counter (Sender.run cfg envs w)
     = Sender.window_counter (Sender.run cfg envs' w')
  /\ Sender.posted (Sender.run cfg envs w)
     = Sender.posted (Sender.run cfg envs' w').
Proof.
  revert envs' w w'.
  induction envs as [|e envs IH]; intros [|e' envs'] w w' Ha Hb Hc Hp;
    try discriminate Ha.
  - cbn. auto.
  - cbn [map] in Ha. inversion Ha as [[Ha1 Ha2]].
    destruct (tick_same_arrivals e e' w w' Ha1 Hb Hc Hp) as (B & C & P).
    cbn [Sender.run fold_left].
    apply (IH envs' _ _ Ha2 B C P).
Qed.

End Answers.

(** X8.  What the sender sends depends only on the entries that arrive and
    never on how its requests fare: two runs of the loop in which the same
    entries arrive during the same passes make the same requests with the
    same numbers and leave the same buffer and counter, whatever the
    answers, errors and file failures of either run; nothing is retried or
    sent again.  The window of the pass that follows any pass is made of
    the entries that arrived during the sleep between the two, and of no
    others. *)
Theorem requests_depend_only_on_what_arrived
        (cfg : config) (envs envs' : list Sender.tick_env)
        (w : Sender.world) (e e2 : Sender.tick_env) :
  map Sender.arrived envs = map Sender.arrived envs' ->
  Sender.posted (Sender.run cfg envs w)
  = Sender.posted (Sender.run cfg envs' w)
  /\ Sender.window_counter (Sender.run cfg envs w)
     = Sender.window_counter (Sender.run cfg envs' w)
  /\ Sender.transcription_buffer (Sender.run cfg envs w)
     = Sender.transcription_buffer (Sender.run cfg envs' w)
  /\ Sender.window_of_tick e2 (Sender.tick cfg e w)
     = Window.window (Sender.arrived e2).
Proof.
  intros Ha.
  destruct (run_same_arrivals cfg envs envs' w w Ha eq_refl eq_refl eq_refl)
    as (B & C & P).
  repeat split; try assumption.
  destruct (tick_spec cfg e w) as (E & _).
  unfold Sender.window_of_tick, Sender.arrive. cbn [Sender.transcription_buffer].
  rewrite E. cbn. now destruct (Sender.arrived e2).
Qed.

Lemma requests_depend_only_on_what_arrived_witness :
  Sender.posted
    (Sender.run Examples.cfg [Examples.good_tick; Examples.idle_tick]
                Sender.initial)
  = Sender.posted
      (Sender.run Examples.cfg [Examples.raising_tick; Examples.idle_tick]
                  Sender.initial).
Proof.
  apply (requests_depend_only_on_what_arrived
           Examples.cfg [Examples.good_tick; Examples.idle_tick]
           [Examples.raising_tick; Examples.idle_tick] Sender.initial
           Examples.idle_tick Examples.idle_tick).
  reflexivity.
Defined.

(** ** The command loop *)

Section CommandLoop.

Import Main.

Lemma command_stop (c : string) (w : world) :
  String.eqb c "q" = false -> stop (command c w) = stop w.
Proof.
  intros H. unfold command. rewrite H.
  destruct (String.eqb c "s"); [reflexivity|].
  destruct (String.eqb c "p"); [reflexivity|].
  destruct (PyStr.truthy c); reflexivity.
Qed.







Lemma after_app (l1 l2 : list input) (w : world) :
  after (l1 ++ l2) w = after l2 (after l1 w).
Proof. unfold after. apply fold_left_app. Qed.


End CommandLoop.


(** X10.  Unless a line reads as [q] or a signal arrives, the command loop
    never ends: at the end of standard input [readline] returns the empty
    string, which is no command, so the loop goes on reading and nothing
    changes any more. *)
Theorem end_of_input_does_not_end_the_loop
        (inputs : list Main.input) (w : Main.world) (fuel n : nat) :
  forallb Main.ascii_input inputs = true ->
  forallb Main.goes_on inputs = true ->
  Main.stop w = false ->
  Main.main_loop fuel inputs w = None
  /\ Main.after (inputs ++ repeat (Main.Read "") n) w = Main.after inputs w.
Proof.
  intros _ G S. split.
  - revert inputs w G S. induction fuel as [|fuel IH]; intros inputs w G S;
      [reflexivity|].
    cbn [Main.main_loop]. rewrite S.
    destruct inputs as [|i rest].
    + apply IH; [reflexivity|exact S].
    + cbn [forallb] in G. apply andb_prop in G. destruct G as [G1 G2].
      unfold Main.goes_on in G1. apply andb_prop in G1.
      destruct G1 as [Q Sg]. apply negb_true_iff in Q, Sg.
      destruct i as [r|m|]; try discriminate Sg.
      * apply IH; [exact G2|]. cbn in Q. now rewrite command_stop.
      * apply IH; [exact G2|exact S].
  - rewrite after_app. generalize (Main.after inputs w). clear.
    induction n as [|n IH]; intros w; [reflexivity|].
    cbn [repeat Main.after fold_left]. apply IH.
Qed.



Lemma end_of_input_witness :
  Main.main_loop 100 Examples.typed Examples.idle_main = None.
Proof.
  apply (@end_of_input_does_not_end_the_loop
           Examples.typed Examples.idle_main 100 0); reflexivity.
Defined.


(** ** Timestamps and the order of time *)

Section Timestamps.

Import Clock.

#[local] Open Scope Z_scope.

Lemma compare_app (p1 p2 s1 s2 : string) :
  String.length p1 = String.length p2 ->
  String.compare (p1 ++ s1) (p2 ++ s2)
  = and_then (String.compare p1 p2) (String.compare s1 s2).
Proof.
  revert p2. induction p1 as [|c p1 IH]; intros [|c' p2] H;
    try discriminate H.
  - reflexivity.
  - cbn in H. injection H as H. cbn [append String.compare].
    destruct (Ascii.compare c c'); cbn; auto.
Qed.

Lemma compare_cons (c : ascii) (s1 s2 : string) :
  String.compare (String c s1) (String c s2) = String.compare s1 s2.
Proof. cbn. now rewrite ascii_compare_refl. Qed.

Lemma string_length_app (a b : string) :
  String.length (a ++ b) = (String.length a + String.length b)%nat.
Proof. induction a as [|x a IH]; cbn; [reflexivity|]. now rewrite IH. Qed.

Lemma length_digits (w : nat) (n : Z) : String.length (digits w n) = w.
Proof.
  revert n. induction w as [|w IH]; intros n; [reflexivity|].
  cbn [digits]. rewrite string_length_app, IH. cbn. lia.
Qed.

Lemma digit_compare (n m : Z) :
  Ascii.compare (digit n) (digit m) = (n mod 10 ?= m mod 10).
Proof.
  pose proof (Z.mod_pos_bound n 10 eq_refl).
  pose proof (Z.mod_pos_bound m 10 eq_refl).
  unfold Ascii.compare, digit.
  rewrite !N_ascii_embedding by lia.
  rewrite Z2N.inj_compare by lia.
  apply Z.add_compare_mono_l.
Qed.

Lemma compare_by_digit (n m : Z) :
  (n ?= m) = and_then (n / 10 ?= m / 10) (n mod 10 ?= m mod 10).
Proof.
  pose proof (Z.div_mod n 10) as En.
  pose proof (Z.div_mod m 10) as Em.
  pose proof (Z.mod_pos_bound n 10 eq_refl) as Bn.
  pose proof (Z.mod_pos_bound m 10 eq_refl) as Bm.
  destruct (Z.compare_spec (n / 10) (m / 10)) as [E|L|G]; cbn [and_then].
  - destruct (Z.compare_spec (n mod 10) (m mod 10)) as [E'|L'|G'].
    + apply Z.compare_eq_iff. lia.
    + apply Z.compare_lt_iff. lia.
    + apply Z.compare_gt_iff. lia.
  - apply Z.compare_lt_iff. lia.
  - apply Z.compare_gt_iff. lia.
Qed.

Lemma compare_digits (w : nat) (n m : Z) :
  0 <= n < 10 ^ Z.of_nat w -> 0 <= m < 10 ^ Z.of_nat w ->
  String.compare (digits w n) (digits w m) = (n ?= m).
Proof.
  revert n m. induction w as [|w IH]; intros n m Hn Hm.
  - cbn in Hn, Hm. replace n with 0 by lia. replace m with 0 by lia.
    reflexivity.
  - cbn [digits]. rewrite compare_app by now rewrite !length_digits.
    rewrite Nat2Z.inj_succ, Z.pow_succ_r in Hn, Hm by lia.
    rewrite IH.
    + rewrite (compare_by_digit n m). f_equal.
      cbn [String.compare]. rewrite digit_compare.
      destruct (n mod 10 ?= m mod 10); reflexivity.
    + split; [apply Z.div_pos; lia|apply Z.div_lt_upper_bound; lia].
    + split; [apply Z.div_pos; lia|apply Z.div_lt_upper_bound; lia].
Qed.

(** The part of a timestamp that follows the seconds. *)
Lemma compare_fraction (a b : datetime) :
  0 <= microsecond a < 1000000 -> 0 <= microsecond b < 1000000 ->
  String.compare (fraction a ++ "Z") (fraction b ++ "Z")
  = match whole a, whole b with
    | true, false => Gt
    | false, true => Lt
    | _, _ => (microsecond a ?= microsecond b)
    end.
Proof.
  intros Ha Hb. unfold fraction, whole.
  destruct (microsecond a =? 0) eqn:Ea; destruct (microsecond b =? 0) eqn:Eb.
  - apply Z.eqb_eq in Ea, Eb. now rewrite Ea, Eb.
  - reflexivity.
  - reflexivity.
  - change (("." ++ digits 6 (microsecond a)) ++ "Z")%string
      with (String "." (digits 6 (microsecond a) ++ "Z")).
    change (("." ++ digits 6 (microsecond b)) ++ "Z")%string
      with (String "." (digits 6 (microsecond b) ++ "Z")).
    rewrite compare_cons, compare_app by now rewrite !length_digits.
    rewrite compare_digits by (cbn; lia).
    rewrite string_compare_refl.
    destruct (microsecond a ?= microsecond b); reflexivity.
Qed.

Lemma valid_bounds (d : datetime) :
  valid d = true ->
  0 <= year d < 10 ^ Z.of_nat 4 /\ 0 <= month d < 10 ^ Z.of_nat 2
  /\ 0 <= day d < 10 ^ Z.of_nat 2 /\ 0 <= hour d < 10 ^ Z.of_nat 2
  /\ 0 <= minute d < 10 ^ Z.of_nat 2 /\ 0 <= second d < 10 ^ Z.of_nat 2
  /\ 0 <= microsecond d < 1000000.
Proof.
  unfold valid. intros H.
  repeat (apply andb_prop in H; destruct H as [H ?]).
  repeat match goal with
         | H : (_ <=? _) = true |- _ => apply Z.leb_le in H
         | H : (_ <? _) = true |- _ => apply Z.ltb_lt in H
         end.
  cbn. lia.
Qed.

Lemma app_string_assoc (a b c : string) :
  ((a ++ b) ++ c)%string = (a ++ b ++ c)%string.
Proof. induction a as [|x a IH]; cbn; [reflexivity|]. now rewrite IH. Qed.

Lemma and_then_assoc (a b c : comparison) :
  and_then (and_then a b) c = and_then a (and_then b c).
Proof. now destruct a. Qed.

(** The order of two timestamps as strings. *)
Lemma compare_timestamps (a b : datetime) :
  valid a = true -> valid b = true ->
  String.compare (timestamp a) (timestamp b)
  = and_then (compare_seconds a b)
             (match whole a, whole b with
              | true, false => Gt
              | false, true => Lt
              | _, _ => (microsecond a ?= microsecond b)
              end).
Proof.
  intros Va Vb.
  destruct (valid_bounds a Va) as (A1 & A2 & A3 & A4 & A5 & A6 & A7).
  destruct (valid_bounds b Vb) as (B1 & B2 & B3 & B4 & B5 & B6 & B7).
  unfold timestamp, isoformat, compare_seconds.
  rewrite !app_string_assoc, !and_then_assoc.
  do 5 (rewrite compare_app by (now rewrite !length_digits);
        rewrite compare_digits by assumption;
        f_equal;
        match goal with
        | |- String.compare (String ?c ?x ++ ?y) _ = _ =>
            change (String c x ++ y)%string with (String c (x ++ y))
        end;
        match goal with
        | |- String.compare _ (String ?c ?x ++ ?y) = _ =>
            change (String c x ++ y)%string with (String c (x ++ y))
        end;
        rewrite compare_cons;
        change (EmptyString ++ ?z)%string with z).
  rewrite compare_app by (now rewrite !length_digits).
  rewrite compare_digits by assumption.
  f_equal. now apply compare_fraction.
Qed.

End Timestamps.

(** X12.  The timestamps of two valid instants compare as strings the way
    the instants compare in time whenever the two fall in different
    seconds, and whenever both or neither have microsecond 0.  When they
    fall in the same second and only the first has microsecond 0,
    [isoformat] leaves out its fraction, and the earlier instant gets the
    greater string: the sort of line 334 then puts the later turn first. *)
Theorem timestamps_follow_time_but_for_whole_seconds
        (a b : Clock.datetime) (sa sb : speaker) (ta tb : string) :
  Clock.valid a = true -> Clock.valid b = true ->
  (Clock.whole a = Clock.whole b ->
   String.compare (Clock.timestamp a) (Clock.timestamp b)
   = Clock.compare a b)
  /\ (Clock.compare_seconds a b <> Eq ->
      String.compare (Clock.timestamp a) (Clock.timestamp b)
      = Clock.compare a b)
  /\ (Clock.compare_seconds a b = Eq ->
      Clock.whole a = true -> Clock.whole b = false ->
      Clock.compare a b = Lt
      /\ String.compare (Clock.timestamp a) (Clock.timestamp b) = Gt
      /\ Window.sort_by_timestamp
           [Turn sa ta (Clock.timestamp a); Turn sb tb (Clock.timestamp b)]
         = [Turn sb tb (Clock.timestamp b); Turn sa ta (Clock.timestamp a)]).
Proof.
  intros Va Vb.
  pose proof (compare_timestamps a b Va Vb) as C.
  destruct (valid_bounds b Vb) as (_ & _ & _ & _ & _ & _ & Bb).
  unfold Clock.compare. split; [|split].
  - intros W. rewrite C, W. now destruct (Clock.whole b).
  - intros N. rewrite C.
    destruct (Clock.compare_seconds a b); [contradiction|reflexivity..].
  - intros E Wa Wb.
    assert (G : String.compare (Clock.timestamp a) (Clock.timestamp b) = Gt).
    { rewrite C, E, Wa, Wb. reflexivity. }
    split; [|split].
    + rewrite E. cbn [Clock.and_then]. unfold Clock.whole in *.
      apply Z.eqb_eq in Wa. apply Z.eqb_neq in Wb.
      rewrite Wa. apply Z.compare_lt_iff. lia.
    + exact G.
    + cbn [Window.sort_by_timestamp fold_right Window.insert t_timestamp].
      unfold String.leb. now rewrite G.
Qed.

Lemma timestamps_witness :
  Clock.compare (Clock.Datetime 2024 1 1 12 0 0 0)
                (Clock.Datetime 2024 1 1 12 0 0 250000) = Lt
  /\ String.compare
       (Clock.timestamp (Clock.Datetime 2024 1 1 12 0 0 0))
       (Clock.timestamp (Clock.Datetime 2024 1 1 12 0 0 250000)) = Gt
  /\ Window.sort_by_timestamp
       [Turn agent "first"
             (Clock.timestamp (Clock.Datetime 2024 1 1 12 0 0 0));
        Turn customer "second"
             (Clock.timestamp (Clock.Datetime 2024 1 1 12 0 0 250000))]
     = [Turn customer "second"
             (Clock.timestamp (Clock.Datetime 2024 1 1 12 0 0 250000));
        Turn agent "first"
             (Clock.timestamp (Clock.Datetime 2024 1 1 12 0 0 0))].
Proof.
  apply (proj2 (proj2 (timestamps_follow_time_but_for_whole_seconds
                         (Clock.Datetime 2024 1 1 12 0 0 0)
                         (Clock.Datetime 2024 1 1 12 0 0 250000)
                         agent customer "first" "second"
                         eq_refl eq_refl)));
    reflexivity.
Defined.

(** ** The environment of the transcription client *)

Lemma export_get (c : Credentials.credentials) (env : Credentials.environ)
      (k : string) :
  Credentials.export c env k
  = if String.eqb k "AWS_DEFAULT_REGION" then Some "ap-southeast-2"
    else if String.eqb k "AWS_SESSION_TOKEN" && Credentials.has_token c
         then Credentials.token c
    else if String.eqb k "AWS_SECRET_ACCESS_KEY"
         then Some (Credentials.secret_key c)
    else if String.eqb k "AWS_ACCESS_KEY_ID"
         then Some (Credentials.access_key c)
    else env k.
Proof.
  unfold Credentials.export, Credentials.setenv, Credentials.has_token.
  destruct (Credentials.token c) as [t|]; [destruct (PyStr.truthy t)|];
    destruct (String.eqb k "AWS_DEFAULT_REGION");
    destruct (String.eqb k "AWS_SESSION_TOKEN");
    reflexivity.
Qed.

(** X13.  Setting the credentials writes the key, the secret and the
    region, and the session token only when there is one: credentials
    without a token leave in place whatever AWS_SESSION_TOKEN held before,
    so the token of earlier credentials stays next to the new key.  No
    other variable is touched and none is ever removed; doing it a second
    time with the same credentials, as the second channel does, changes
    nothing. *)
Theorem credentials_without_token_keep_the_old_token
        (c c' : Credentials.credentials) (env : Credentials.environ) :
  let env' := Credentials.export c env in
  env' "AWS_ACCESS_KEY_ID" = Some (Credentials.access_key c)
  /\ env' "AWS_SECRET_ACCESS_KEY" = Some (Credentials.secret_key c)
  /\ env' "AWS_DEFAULT_REGION" = Some "ap-southeast-2"
  /\ (Credentials.has_token c = true ->
      env' "AWS_SESSION_TOKEN" = Credentials.token c)
  /\ (Credentials.has_token c = false ->
      env' "AWS_SESSION_TOKEN" = env "AWS_SESSION_TOKEN")
  /\ (Credentials.has_token c = true -> Credentials.has_token c' = false ->
      Credentials.export c' env' "AWS_SESSION_TOKEN" = Credentials.token c
      /\ Credentials.export c' env' "AWS_ACCESS_KEY_ID"
         = Some (Credentials.access_key c'))
  /\ (forall k, Credentials.exported k = false -> env' k = env k)
  /\ (forall k, env k <> None -> env' k <> None)
  /\ (forall k, Credentials.export c env' k = env' k).
Proof.
  intros env'. subst env'.
  rewrite !export_get. cbn [String.eqb Ascii.eqb Bool.eqb andb].
  split; [reflexivity|]. split; [reflexivity|]. split; [reflexivity|].
  split; [intros ->; reflexivity|].
  split; [intros ->; reflexivity|].
  split.
  { intros H H'. rewrite H, H'. cbn. now split. }
  split.
  { intros k E. unfold Credentials.exported in E.
    apply orb_false_elim in E. destruct E as [E E4].
    apply orb_false_elim in E. destruct E as [E E3].
    apply orb_false_elim in E. destruct E as [E1 E2].
    rewrite export_get, E1, E2, E3, E4. reflexivity. }
  split.
  { intros k N. rewrite export_get.
    destruct (String.eqb k "AWS_DEFAULT_REGION"); [discriminate|].
    destruct (String.eqb k "AWS_SESSION_TOKEN" && Credentials.has_token c)
      eqn:E.
    - apply andb_prop in E. destruct E as [_ E].
      unfold Credentials.has_token in E.
      destruct (Credentials.token c); [discriminate|discriminate E].
    - destruct (String.eqb k "AWS_SECRET_ACCESS_KEY"); [discriminate|].
      destruct (String.eqb k "AWS_ACCESS_KEY_ID"); [discriminate|exact N]. }
  intros k. rewrite !export_get.
  destruct (String.eqb k "AWS_DEFAULT_REGION"); [reflexivity|].
  destruct (String.eqb k "AWS_SESSION_TOKEN" && Credentials.has_token c);
    [reflexivity|].
  destruct (String.eqb k "AWS_SECRET_ACCESS_KEY"); [reflexivity|].
  destruct (String.eqb k "AWS_ACCESS_KEY_ID"); reflexivity.
Qed.

(** ** What a pass archives and reports *)

Section PassFacts.

Variable cfg : config.

Lemma log_turns_log (l : list turn) (i : nat) (w : Sender.world) :
  Sender.activity_log (Sender.log_turns i l w)
  = Sender.activity_log w ++ Pass.turn_lines i l.
Proof.
  revert i w. induction l as [|t l IH]; intros i w;
    cbn [Sender.log_turns Pass.turn_lines].
  - now rewrite app_nil_r.
  - rewrite IH. cbn [Sender.log_activity Sender.activity_log].
    now rewrite <- app_assoc.
Qed.

Lemma log_window_log (r : list turn) (a b : nat) (w : Sender.world) :
  Sender.activity_log (Sender.log_window r a b w)
  = Sender.activity_log w ++ Pass.window_lines r a b.
Proof.
  unfold Sender.log_window, Pass.window_lines.
  destruct r as [|t r]; [reflexivity|].
  rewrite log_turns_log. cbn [Sender.log_activity Sender.activity_log].
  now rewrite <- app_assoc.
Qed.

(** The lines of a window report no failure. *)
Lemma window_lines_quiet (r : list turn) (a b : nat) :
  existsb Pass.is_api_error (Pass.window_lines r a b) = false
  /\ existsb Pass.is_request_failed (Pass.window_lines r a b) = false.
Proof.
  assert (T : forall i l,
             existsb Pass.is_api_error (Pass.turn_lines i l) = false
             /\ existsb Pass.is_request_failed (Pass.turn_lines i l) = false).
  { intros i l. revert i. induction l as [|t l IH]; intros i;
      [now split|]. cbn. apply IH. }
  unfold Pass.window_lines. destruct r as [|t r]; [now split|].
  cbn [existsb Pass.is_api_error Pass.is_request_failed orb]. apply T.
Qed.

(** The locked block: its log and what it leaves of the archive. *)
Lemma drain_log (w : Sender.world) :
  let b := Sender.transcription_buffer w in
  Sender.activity_log (snd (Sender.drain w))
  = Sender.activity_log w
    ++ Log_buffer_status (List.length (buf_mic b)) (List.length (buf_system b))
    :: Pass.window_lines (Window.window b)
         (List.length (buf_mic b)) (List.length (buf_system b))
  /\ Sender.saved (snd (Sender.drain w)) = Sender.saved w
  /\ Sender.printed (snd (Sender.drain w)) = Sender.printed w.
Proof.
  intros b. unfold Sender.drain. cbn [snd].
  rewrite log_window_log.
  match goal with
  | |- context [Sender.log_window ?r ?x ?y ?v] =>
      destruct (log_window_outputs r x y v) as [H1 H2]
  end.
  rewrite H1, H2. cbn [Sender.with_buffer Sender.log_activity
                       Sender.activity_log Sender.saved Sender.printed].
  rewrite <- app_assoc. repeat split.
Qed.

Lemma response_log (o : Sender.post_outcome) (sv : Sender.save_outcome)
      (ts : string) (p : list (string * json)) (w : Sender.world) :
  Sender.activity_log (Sender.response cfg o sv ts p w)
  = Sender.activity_log w
    ++ Pass.answer_lines (Sender.window_counter w) o sv.
Proof.
  unfold Sender.response, Pass.answer_lines.
  destruct o as [st text|err]; [|reflexivity].
  destruct sv as [|err]; cbn.
  - destruct (st =? 200)%Z; cbn; now rewrite <- ?app_assoc.
  - now rewrite <- app_assoc.
Qed.

(** What a pass with a window adds to the log, to the files and to the
    printed lines. *)
Lemma tick_outputs (e : Sender.tick_env) (w : Sender.world) :
  Sender.window_of_tick e w <> [] ->
  let b := Pass.at_lock e w in
  let n := (Sender.window_counter w + 1)%Z in
  let payload := Sender.make_payload cfg n (Sender.window_of_tick e w) in
  let w1 := Sender.response cfg (Sender.outcome e) (Sender.save e)
              (Sender.response_time e) payload
              (Sender.World empty_buffer n [] [] (Sender.saved w)
                            (Sender.printed w)) in
  Props.logged_by cfg e w
  = Log_timer_triggered
    :: Log_buffer_status (List.length (buf_mic b)) (List.length (buf_system b))
    :: Pass.window_lines (Sender.window_of_tick e w)
         (List.length (buf_mic b)) (List.length (buf_system b))
    ++ Log_sending_request n
    :: Pass.answer_lines n (Sender.outcome e) (Sender.save e)
  /\ Sender.saved (Sender.tick cfg e w) = Sender.saved w1
  /\ Sender.printed (Sender.tick cfg e w) = Sender.printed w1.
Proof.
  intros Hw b n payload w1.
  unfold Props.logged_by, Sender.tick.
  set (v := Sender.log_activity Log_timer_triggered
              (Sender.arrive (Sender.arrived e) w)).
  assert (Hb : Sender.transcription_buffer v = b) by reflexivity.
  assert (Hl : Sender.activity_log v
               = Sender.activity_log w ++ [Log_timer_triggered])
    by reflexivity.
  assert (Hc : Sender.window_counter v = Sender.window_counter w)
    by reflexivity.
  assert (Hs : Sender.saved v = Sender.saved w) by reflexivity.
  assert (Hp : Sender.printed v = Sender.printed w) by reflexivity.
  destruct (drain_spec v) as (D1 & _ & D3 & _).
  destruct (drain_log v) as (L1 & L2 & L3). cbv zeta in L1.
  rewrite Hb, Hl in L1. rewrite Hs in L2. rewrite Hp in L3.
  rewrite Hb in D1. rewrite Hc in D3.
  change (Window.window b) with (Sender.window_of_tick e w) in *.
  destruct (Sender.drain v) as [recent w2]. cbn [fst snd] in *.
  subst recent. clearbody v. clear Hb Hl Hc Hs Hp v.
  unfold Sender.dispatch.
  destruct (Sender.window_of_tick e w) as [|t l] eqn:Ew; [contradiction|].
  unfold Sender.deliver.
  set (q := Sender.request _ _).
  assert (Q1 : Sender.activity_log q
               = Sender.activity_log w2 ++ [Log_sending_request n]).
  { subst q n. cbn. now rewrite D3. }
  assert (Q2 : Sender.window_counter q = n).
  { subst q n. cbn. now rewrite D3. }
  assert (Q3 : Sender.saved q = Sender.saved w) by (subst q; exact L2).
  assert (Q4 : Sender.printed q = Sender.printed w) by (subst q; exact L3).
  assert (P : Sender.make_payload cfg (Sender.window_counter (Sender.increment w2))
                                  (t :: l) = payload).
  { subst payload n. cbn [Sender.increment Sender.window_counter].
    now rewrite D3. }
  rewrite P. clearbody q.
  split; [|split].
  - rewrite response_log, Q1, Q2, L1.
    rewrite <- !app_assoc. rewrite skipn_length_app.
    cbn [app]. reflexivity.
  - subst w1. unfold Sender.response. rewrite Q2.
    destruct (Sender.outcome e) as [st text|err]; [|exact Q3].
    destruct (Sender.save e) as [|err]; [|exact Q3].
    destruct (st =? 200)%Z; cbn; now rewrite Q3.
  - subst w1. unfold Sender.response. rewrite Q2.
    destruct (Sender.outcome e) as [st text|err]; [|exact Q4].
    destruct (Sender.save e) as [|err]; [|exact Q4].
    destruct (st =? 200)%Z; cbn; now rewrite Q4.
Qed.

End PassFacts.

(** X14.  A pass that makes a request archives and prints the answer
    whenever there is one and its file can be written, whatever the status:
    a 500 is archived like a 200.  The line "API Error" is logged exactly
    when that status is not 200, so also for a 201.  When the request
    raises, nothing is archived or printed.  When writing the file raises,
    nothing is printed either, and the pass logs "API Request failed"
    although the request has been answered. *)
Theorem a_pass_archives_every_answer
        (cfg : config) (e : Sender.tick_env) (w : Sender.world) :
  Sender.window_of_tick e w <> [] ->
  let w' := Sender.tick cfg e w in
  let n := (Sender.window_counter w + 1)%Z in
  let payload := Sender.make_payload cfg n (Sender.window_of_tick e w) in
  let log := Props.logged_by cfg e w in
  match Sender.outcome e with
  | Sender.Post_raised err =>
      Sender.saved w' = Sender.saved w
      /\ Sender.printed w' = Sender.printed w
      /\ In (Log_request_failed err) log
      /\ existsb Pass.is_api_error log = false
  | Sender.Responded status_code text =>
      let response_data :=
        Sender.make_response_data cfg n status_code (Sender.response_time e)
                                  payload text in
      In (Log_request_sent n status_code) log
      /\ match Sender.save e with
         | Sender.Saved =>
             Sender.saved w' = Sender.saved w ++ [(n, response_data)]
             /\ Sender.printed w' = Sender.printed w ++ [response_data]
             /\ existsb Pass.is_api_error log
                = negb (status_code =? 200)%Z
             /\ existsb Pass.is_request_failed log = false
         | Sender.Save_raised err =>
             Sender.saved w' = Sender.saved w
             /\ Sender.printed w' = Sender.printed w
             /\ In (Log_request_failed err) log
             /\ existsb Pass.is_api_error log = false
         end
  end.
Proof.
  intros Hw w' n payload log.
  destruct (tick_outputs cfg e w Hw) as (L & S & P).
  cbv zeta in L, S, P. fold n payload in L, S, P. fold log in L.
  fold w' in S, P.
  set (b := Pass.at_lock e w) in *.
  destruct (window_lines_quiet
              (Sender.window_of_tick e w)
              (List.length (buf_mic b)) (List.length (buf_system b)))
    as [Qa Qf].
  assert (T : existsb Pass.is_api_error log
              = existsb Pass.is_api_error
                  (Pass.answer_lines n (Sender.outcome e) (Sender.save e))
              /\ existsb Pass.is_request_failed log
                 = existsb Pass.is_request_failed
                     (Pass.answer_lines n (Sender.outcome e) (Sender.save e))
              /\ forall m,
                  In m (Pass.answer_lines n (Sender.outcome e)
                                          (Sender.save e)) ->
                  In m log).
  { rewrite L. cbn [existsb Pass.is_api_error Pass.is_request_failed orb].
    rewrite !existsb_app, Qa, Qf.
    cbn [existsb Pass.is_api_error Pass.is_request_failed orb].
    repeat split.
    intros m Hm. right. right. apply in_or_app. right. now right. }
  destruct T as (Ta & Tf & Ti).
  rewrite S, P, Ta, Tf. clear S P Ta Tf L.
  unfold Sender.response, Pass.answer_lines in *.
  destruct (Sender.outcome e) as [st text|err].
  - split; [apply Ti; now left|].
    destruct (Sender.save e) as [|err].
    + destruct (st =? 200)%Z; cbn; repeat split.
    + cbn. repeat split. apply Ti. right. now left.
  - cbn. repeat split. apply Ti. now left.
Qed.

Lemma a_pass_archives_every_answer_witness :
  List.length
    (Sender.saved (Sender.tick Examples.cfg Examples.failing_tick
                               Sender.initial)) = 1
  /\ existsb Pass.is_api_error
       (Props.logged_by Examples.cfg Examples.failing_tick Sender.initial)
     = true.
Proof.
  pose proof (@a_pass_archives_every_answer
                Examples.cfg Examples.failing_tick Sender.initial) as H.
  cbv zeta in H.
  destruct H as (_ & S & _ & A & _); [discriminate|].
  split; [now rewrite S|exact A].
Defined.

(** ** The audio that reaches the transcription stream *)

Section AudioFacts.

Import Audio.

Lemma write_chunks_spec (reads : list read) (sends : list send) (s : state)
      (en : ending) (s' : state) (unread : list read) :
  write_chunks reads sends s = Some (en, s', unread) ->
  exists chunks,
    forwarded s' = forwarded s ++ chunks
    /\ Forall (fun c => PyStr.truthy c = true) chunks
    /\ chunk_count s' = (chunk_count s + Z.of_nat (List.length chunks))%Z
    /\ chunks_sent s' = (chunks_sent s + Z.of_nat (List.length chunks))%Z
    /\ match en with
       | Stream_ended =>
           (exists r, stops r = true
                      /\ reads = map Data chunks ++ r :: unread)
           /\ firstn (List.length chunks) sends
              = repeat Sent (List.length chunks)
       | Sending_failed e =>
           reads = map Data chunks ++ unread
           /\ firstn (List.length chunks) sends
              = repeat Sent (List.length chunks - 1) ++ [Send_raised e]
           /\ chunks <> []
       end.
Proof.
  revert sends s. induction reads as [|r reads IH]; intros sends s H;
    cbn [write_chunks] in H; [discriminate|].
  destruct r as [chunk|e].
  - destruct (PyStr.truthy chunk) eqn:T.
    + destruct sends as [|[|e] sends]; [discriminate| |].
      * apply IH in H. destruct H as (chunks & F & A & C1 & C2 & E).
        cbn [forwarded chunk_count chunks_sent] in *.
        exists (chunk :: chunks). rewrite F, <- app_assoc.
        cbn [List.length]. repeat split; try lia.
        -- now constructor.
        -- destruct en as [|e].
           ++ destruct E as [(r & Hr & E1) E2]. split.
              ** exists r. split; [exact Hr|]. cbn. now rewrite E1.
              ** cbn. now rewrite E2.
           ++ destruct E as (E1 & E2 & E3). repeat split.
              ** cbn. now rewrite E1.
              ** cbn [firstn]. rewrite E2.
                 destruct chunks as [|c chunks]; [contradiction|].
                 cbn. now rewrite Nat.sub_0_r.
              ** discriminate.
      * inversion H; subst. exists [chunk].
        cbn [forwarded chunk_count chunks_sent List.length].
        repeat split; try lia.
        -- now repeat constructor.
        -- discriminate.
    + inversion H; subst. exists []. rewrite app_nil_r.
      cbn [List.length]. repeat split; try lia.
      * constructor.
      * exists (Data chunk). cbn. now rewrite T.
  - inversion H; subst. exists []. rewrite app_nil_r.
    cbn [List.length]. repeat split; try lia.
    + constructor.
    + exists (Read_raised e). now split.
Qed.

(** The loop ends when a read stops the generator and the sends before it
    succeed. *)
Lemma write_chunks_ends (chunks : list string) (r : read)
      (unread : list read) (more : list send) (s : state) :
  Forall (fun c => PyStr.truthy c = true) chunks -> stops r = true ->
  write_chunks (map Data chunks ++ r :: unread)
               (repeat Sent (List.length chunks) ++ more) s
  = Some (Stream_ended,
          State (forwarded s ++ chunks)
                (chunk_count s + Z.of_nat (List.length chunks))
                (chunks_sent s + Z.of_nat (List.length chunks)),
          unread).
Proof.
  intros F Hr. revert s. induction F as [|c chunks T F IH]; intros s.
  - cbn. rewrite app_nil_r, !Z.add_0_r. destruct s as [f a b].
    destruct r as [chunk|e]; cbn in *; [|reflexivity].
    apply negb_true_iff in Hr. now rewrite Hr.
  - cbn [map app write_chunks List.length repeat]. rewrite T, IH.
    cbn [forwarded chunk_count chunks_sent].
    rewrite <- app_assoc. cbn [app]. do 4 f_equal; lia.
Qed.

End AudioFacts.

(** X15.  What reaches the transcription stream of a channel is the audio
    read before the first read that returns nothing or raises, chunk by
    chunk and in order: no chunk is dropped or sent twice, no empty chunk
    is sent, nothing is read past that point, and both counters give the
    number of chunks sent.  A read that raises ends the stream the way the
    end of the output does.  When a send raises, the chunks read so far
    are the ones passed on, that chunk included, and the stream is not
    ended. *)
Theorem audio_is_forwarded_up_to_the_first_empty_read
        (reads : list Audio.read) (sends : list Audio.send)
        (en : Audio.ending) (s : Audio.state) (unread : list Audio.read) :
  Audio.write_chunks reads sends Audio.initial = Some (en, s, unread) ->
  Forall (fun c => PyStr.truthy c = true) (Audio.forwarded s)
  /\ Audio.chunk_count s = Z.of_nat (List.length (Audio.forwarded s))
  /\ Audio.chunks_sent s = Z.of_nat (List.length (Audio.forwarded s))
  /\ match en with
     | Audio.Stream_ended =>
         exists r,
           Audio.stops r = true
           /\ reads = map Audio.Data (Audio.forwarded s) ++ r :: unread
     | Audio.Sending_failed e =>
         reads = map Audio.Data (Audio.forwarded s) ++ unread
         /\ Audio.forwarded s <> []
         /\ nth_error sends (List.length (Audio.forwarded s) - 1)
            = Some (Audio.Send_raised e)
     end.
Proof.
  intros H. apply write_chunks_spec in H.
  destruct H as (chunks & F & A & C1 & C2 & E).
  cbn [Audio.initial Audio.forwarded Audio.chunk_count Audio.chunks_sent app]
    in F, C1, C2.
  rewrite F. repeat split; try assumption.
  destruct en as [|e].
  - destruct E as [E _]. exact E.
  - destruct E as (E1 & E2 & E3). repeat split; try assumption.
    assert (L : List.length chunks - 1 < List.length chunks).
    { destruct chunks; [contradiction|]. cbn. lia. }
    pose proof (nth_error_firstn (List.length chunks) sends
                                 (List.length chunks - 1)) as N.
    apply Nat.ltb_lt in L. rewrite L in N. rewrite <- N. clear N L.
    rewrite E2, nth_error_app2 by (rewrite repeat_length; lia).
    rewrite repeat_length, Nat.sub_diag. reflexivity.
Qed.

Lemma audio_is_forwarded_witness :
  Audio.write_chunks
    [Audio.Data "ab"; Audio.Data "cd"; Audio.Data ""; Audio.Data "ef"]
    [Audio.Sent; Audio.Sent] Audio.initial
  = Some (Audio.Stream_ended, Audio.State ["ab"; "cd"] 2 2,
          [Audio.Data "ef"])
  /\ Audio.chunks_sent (Audio.State ["ab"; "cd"] 2 2) = 2%Z.
Proof.
  split; [reflexivity|].
  apply (@audio_is_forwarded_up_to_the_first_empty_read
           [Audio.Data "ab"; Audio.Data "cd"; Audio.Data ""; Audio.Data "ef"]
           [Audio.Sent; Audio.Sent] Audio.Stream_ended
           (Audio.State ["ab"; "cd"] 2 2) [Audio.Data "ef"]).
  reflexivity.
Defined.

(** ** Sessions and their tasks *)

Section Sessions.

Import System Where Progress.

Variable cfg : config.

Lemma sessions_snoc (h : list hevent) (e : hevent) :
  sessions_started (h ++ [e])
  = sessions_started h + (if Hist.is_session e then 1 else 0).
Proof.
  unfold sessions_started. rewrite filter_app, length_app. cbn.
  now destruct (Hist.is_session e).
Qed.

Ltac hist_done :=
  rewrite ?sessions_snoc; unfold Hist.appended_buffer;
  rewrite ?appended_snoc, ?filter_app, ?length_app; cbn;
  rewrite ?app_nil_r, ?Nat.add_0_r;
  try reflexivity.

(** Between two sessions only the sender and the supervisor move, and no
    entry is appended. *)
Lemma idle_step (l : label) (s s' : state) :
  no_tasks s -> supervisor s <> S_gather ->
  step cfg l s = Some s' ->
  Hist.appended_buffer (history s') = Hist.appended_buffer (history s)
  /\ match l with
     | L_sender _ _ _ | L_poll _ _ => True
     | L_run _ => running s = Some Supervisor
     | _ => False
     end.
Proof.
  intros (T1 & T2 & T3 & T4) N H.
  destruct s as [g lk rr sr [dpc al rc cm cs] [[hm em] [hs es]]
                   [[wm fm nm] [ws fs ns]] sp run hist].
  unfold handler_at, writer_at in *. cbn in T1, T2, T3, T4, N. subst.
  destruct l; cbn in H; split_channels.
  all: open_step H.
  all: break_match_in H; split_channels.
  all: inversion H; subst; clear H.
  all: cbn in *; try discriminate.
  all: split; try exact Logic.I; try reflexivity.
  all: try (exfalso; apply N; reflexivity).
  all: hist_done.
Qed.

(** Once the supervisor has seen [stop], only the sender moves. *)
Lemma stopped_step (l : label) (s s' : state) :
  supervisor s = S_stopped -> no_tasks s -> running s = None ->
  step cfg l s = Some s' ->
  is_sender_label l = true
  /\ supervisor s' = S_stopped /\ no_tasks s' /\ running s' = None
  /\ Hist.appended_buffer (history s') = Hist.appended_buffer (history s)
  /\ sessions_started (history s') = sessions_started (history s).
Proof.
  intros S (T1 & T2 & T3 & T4) R H.
  destruct s as [g lk rr sr [dpc al rc cm cs] [[hm em] [hs es]]
                   [[wm fm nm] [ws fs ns]] sp run hist].
  unfold no_tasks, handler_at, writer_at in *.
  cbn in T1, T2, T3, T4, S, R. subst.
  destruct l; cbn in H; split_channels; try discriminate H.
  open_step H.
  break_match_in H.
  all: inversion H; subst; clear H.
  all: cbn in *; try discriminate.
  all: repeat split; hist_done.
Qed.

Lemma stopped_exec (more : list label) (s s' : state) :
  supervisor s = S_stopped -> no_tasks s -> running s = None ->
  exec cfg more s = Some s' ->
  forallb is_sender_label more = true
  /\ supervisor s' = S_stopped /\ no_tasks s' /\ running s' = None
  /\ Hist.appended_buffer (history s') = Hist.appended_buffer (history s)
  /\ sessions_started (history s') = sessions_started (history s).
Proof.
  revert s. induction more as [|l more IH]; intros s S T R H;
    cbn [exec] in H.
  - inversion H; subst. split; [reflexivity|]. split; [exact S|].
    split; [exact T|]. split; [exact R|]. split; reflexivity.
  - destruct (step cfg l s) as [s1|] eqn:E; [|discriminate].
    destruct (stopped_step l S T R E) as (L & S1 & T1 & R1 & A1 & N1).
    destruct (IH s1 S1 T1 R1 H) as (L' & S2 & T2 & R2 & A2 & N2).
    cbn [forallb]. rewrite L, L'. split; [reflexivity|].
    split; [exact S2|]. split; [exact T2|]. split; [exact R2|].
    split; congruence.
Qed.

Lemma idle_running (s : state) :
  reachable cfg s -> no_tasks s -> s_suspended (supervisor s) = true ->
  running s = None.
Proof.
  intros R (T1 & T2 & T3 & T4) S.
  destruct (tasks_ok_reachable R) as [_ A].
  destruct (running s) as [k|] eqn:E; [|reflexivity].
  assert (K : is_running k s = true).
  { unfold is_running. rewrite E. destruct k as [[|]|[|]|]; reflexivity. }
  apply A in K. destruct k as [[|]|[|]|]; cbn in K.
  - rewrite T1 in K. discriminate.
  - rewrite T2 in K. discriminate.
  - rewrite T3 in K. discriminate.
  - rewrite T4 in K. discriminate.
  - rewrite S in K. discriminate.
Qed.

End Sessions.

(** X16.  Handlers and writers exist only while [recording_loop] waits at
    line 407: outside a session there is no task, so no event is handled,
    no chunk is written and no entry is appended; only the sender and the
    supervisor move.  Once the supervisor has seen [stop] it starts no
    session any more: from then on only the sender thread moves, and no
    entry is ever appended again. *)
Theorem tasks_live_only_within_a_session
        (cfg : config) (sched more : list System.label)
        (s s' : System.state) :
  System.exec cfg sched System.initial = Some s ->
  System.exec cfg more s = Some s' ->
  (System.supervisor s <> System.S_gather ->
   Progress.no_tasks s
   /\ forall l s1,
       System.step cfg l s = Some s1 ->
       Hist.appended_buffer (System.history s1)
       = Hist.appended_buffer (System.history s)
       /\ match l with
          | System.L_sender _ _ _ | System.L_poll _ _ => True
          | System.L_run _ => System.running s = Some System.Supervisor
          | _ => False
          end)
  /\ (System.supervisor s = System.S_stopped ->
      System.supervisor s' = System.S_stopped
      /\ forallb Progress.is_sender_label more = true
      /\ Hist.appended_buffer (System.history s')
         = Hist.appended_buffer (System.history s)
      /\ Progress.sessions_started (System.history s')
         = Progress.sessions_started (System.history s)).
Proof.
  intros H H'.
  assert (R : Where.reachable cfg s) by now exists sched.
  destruct (tasks_ok_reachable R) as [T _].
  split.
  - intros N. split; [exact (T N)|].
    intros l s1 E. exact (@idle_step cfg l s s1 (T N) N E).
  - intros S.
    assert (N : System.supervisor s <> System.S_gather)
      by (rewrite S; discriminate).
    assert (Rn : System.running s = None).
    { apply (@idle_running cfg s R (T N)). now rewrite S. }
    destruct (@stopped_exec cfg more s s' S (T N) Rn H')
      as (L & S' & _ & _ & A & C).
    repeat split; assumption.
Qed.

Lemma tasks_live_only_within_a_session_witness :
  exists s s',
    System.exec Examples.cfg [System.L_poll true true] System.initial
    = Some s
    /\ System.exec Examples.cfg [Examples.ok] s = Some s'
    /\ System.supervisor s' = System.S_stopped
    /\ Progress.sessions_started (System.history s') = 0.
Proof.
  do 2 eexists. split; [vm_compute; reflexivity|].
  split; [vm_compute; reflexivity|].
  match goal with
  | |- System.supervisor ?s' = _ /\ _ =>
      destruct (@tasks_live_only_within_a_session
                  Examples.cfg [System.L_poll true true]
                  [Examples.ok] _ s' eq_refl eq_refl)
        as [_ (S & _ & _ & C)]; [reflexivity|]
  end.
  split; [exact S|]. rewrite C. reflexivity.
Defined.
